(** * Fence-keyed resource engines of the D3D12 translation layer

    A shallow embedding of the allocators declared in
    [include/d3d12translationlayer/ImmediateContext.hpp]:

    - [CFencePool] / [CBoundedFencePool]: pools recycled on fence values;
    - [CFencedRingBuffer]: ring buffer with a 16-entry fence ledger;
    - [CDescriptorHeapManager]: free lists over descriptor heap pages;
    - [DeferredDeletionQueueManager]: retirement of suballocations (the
      readiness predicate and the trim of the deletion queue are defined
      outside this header and are modelled from the specification);
    - [CMultiLevelPool]: fence pools bucketed by size;
    - small members of [ImmediateContext]: [IsSingleCommandListType],
      [TryAllocateResourceWithFallback], the handles of an online descriptor
      heap and the synchronous-op scratch space.

    Machine integers are [Z] with the wrap-around of their C++ type written
    out ([wrap32], [wrap64]).  Exceptions are values of [Outcome].  The
    optional mutexes of the classes guard whole member functions and are not
    part of the sequential behaviour modelled here. *)

From Stdlib Require Import ZArith List Lia Bool.
From stdpp Require Import base numbers list.
Import ListNotations.
Local Open Scope Z_scope.

(* ===================================================================== *)
(** * Part I: the embedding                                               *)
(* ===================================================================== *)

Module Cxx.

(** [UINT32] and [UINT64] arithmetic wraps modulo a power of two. *)
Definition wrap32 (z : Z) : Z := z mod 2 ^ 32.
Definition wrap64 (z : Z) : Z := z mod 2 ^ 64.

(** The exceptions the header annotates with [// throw( ... )]. *)
Inductive Exn : Type :=
| bad_alloc
| com_error.

(** What a call that is not [noexcept] can do: return, throw, or run into
    behaviour the language leaves undefined (a violated [assert]). *)
Inductive Outcome (A : Type) : Type :=
| Returned (a : A)
| Thrown (e : Exn)
| Undefined.

Arguments Returned {A} a.
Arguments Thrown {A} e.
Arguments Undefined {A}.

Inductive HRESULT : Type :=
| S_OK
| E_FAIL.

Definition FAILED (hr : HRESULT) : bool :=
  match hr with
  | S_OK => false
  | E_FAIL => true
  end.

End Cxx.

Import Cxx.

(* --------------------------------------------------------------------- *)
(** ** CFencePool                                                         *)
(* --------------------------------------------------------------------- *)

Module FencePool.

(** Calls made to the callbacks a pool is handed, in program order. *)
Inductive Call (Arg : Type) : Type :=
| CallCreateNew (args : Arg)
| CallWaitForFenceValue (FenceValue : Z).

Arguments CallCreateNew {Arg} args.
Arguments CallWaitForFenceValue {Arg} FenceValue.

Section Pool.

Context {TResourceType CreationArgType : Type}.

(** [std::pair<UINT64, TResourceType>] and [std::list<TPoolEntry>]. *)
Definition TPoolEntry : Type := Z * TResourceType.
Definition TPool : Type := list TPoolEntry.

(** [m_Pool.emplace_back(...)]: allocates a list node, [throw( bad_alloc )].
    [node_ok] says whether that allocation succeeds. *)
Definition emplace_back (node_ok : bool) (m_Pool : TPool) (e : TPoolEntry)
  : Outcome TPool :=
  if node_ok then Returned (m_Pool ++ [e]) else Thrown bad_alloc.

(** What [ReturnToPool] leaves behind: the pool, and the resource when it
    was not moved into the pool (it stays with the caller's [unique_comptr],
    whose destructor releases it). *)
Record PoolAfterReturn : Type := mkReturned {
  after_return : TPool;
  dropped : option TResourceType
}.

(** [void ReturnToPool(TResourceType&& Resource, UINT64 FenceValue) noexcept]:
    the [try] block, then [catch (std::bad_alloc&)]. *)
Definition ReturnToPool (node_ok : bool) (m_Pool : TPool)
    (Resource : TResourceType) (FenceValue : Z) : Outcome PoolAfterReturn :=
  match emplace_back node_ok m_Pool (FenceValue, Resource) with
  | Returned m_Pool' => Returned (mkReturned m_Pool' None)
  | Thrown bad_alloc => Returned (mkReturned m_Pool (Some Resource))
  | Thrown e => Thrown e
  | Undefined => Undefined
  end.

(** The result of a retrieval: what the call returned or threw, the pool
    afterwards, and the callbacks it invoked. *)
Record Retrieved : Type := mkRetrieved {
  ret : Outcome TResourceType;
  after_retrieve : TPool;
  calls : list (Call CreationArgType)
}.

(** [return std::move(pfnCreateNew(CreationArgs...));] *)
Definition create_new (m_Pool : TPool)
    (pfnCreateNew : CreationArgType -> Outcome TResourceType)
    (CreationArgs : CreationArgType) : Retrieved :=
  mkRetrieved (pfnCreateNew CreationArgs) m_Pool [CallCreateNew CreationArgs].

(** [ret = std::move(Head->second); m_Pool.erase(Head); return ret;]
    The preceding [assert(Head->second)] is a diagnostic on the resource
    and does not affect the pool. *)
Definition take_head (Head : TPoolEntry) (rest : TPool)
    (made : list (Call CreationArgType)) : Retrieved :=
  mkRetrieved (Returned (snd Head)) rest made.

(** [TResourceType RetrieveFromPool(UINT64 CurrentFenceValue,
      PFNCreateNew pfnCreateNew, const CreationArgType&... CreationArgs)] *)
Definition RetrieveFromPool (m_Pool : TPool) (CurrentFenceValue : Z)
    (pfnCreateNew : CreationArgType -> Outcome TResourceType)
    (CreationArgs : CreationArgType) : Retrieved :=
  match m_Pool with
  | [] => create_new m_Pool pfnCreateNew CreationArgs
  | Head :: rest =>
      if CurrentFenceValue <? fst Head
      then create_new m_Pool pfnCreateNew CreationArgs
      else take_head Head rest []
  end.

(** [void Trim(UINT64 TrimThreshold, UINT64 CurrentFenceValue)] *)
Definition Trim (m_Pool : TPool) (TrimThreshold CurrentFenceValue : Z) : TPool :=
  match m_Pool with
  | [] => m_Pool
  | Head :: rest =>
      if CurrentFenceValue <? fst Head then m_Pool
      else
        let difference := wrap64 (CurrentFenceValue - fst Head) in
        if difference >=? TrimThreshold then rest else m_Pool
  end.

End Pool.

Arguments PoolAfterReturn : clear implicits.
Arguments Retrieved : clear implicits.

End FencePool.

(* --------------------------------------------------------------------- *)
(** ** CBoundedFencePool                                                  *)
(* --------------------------------------------------------------------- *)

Module BoundedFencePool.

Import FencePool.

Section Pool.

Context {TResourceType CreationArgType : Type}.

(** [CBoundedFencePool : CFencePool] adds [UINT m_MaxInFlightDepth]. *)
Record CBoundedFencePool : Type := mkBounded {
  m_Pool : @TPool TResourceType;
  m_MaxInFlightDepth : Z
}.

(** [TResourceType RetrieveFromPool(UINT64 CurrentFenceValue,
      PFNWaitForFenceValue pfnWaitForFenceValue, PFNCreateNew pfnCreateNew,
      const CreationArgType&... CreationArgs)].
    Both callbacks are annotated [throw( _com_error )]; when the wait throws
    the function is left before the head is erased. *)
Definition RetrieveFromPool (this : CBoundedFencePool) (CurrentFenceValue : Z)
    (pfnWaitForFenceValue : Z -> Outcome unit)
    (pfnCreateNew : CreationArgType -> Outcome TResourceType)
    (CreationArgs : CreationArgType) : Retrieved TResourceType CreationArgType :=
  match m_Pool this with
  | [] => create_new (m_Pool this) pfnCreateNew CreationArgs
  | Head :: rest =>
      if CurrentFenceValue <? fst Head then
        if Z.of_nat (length (m_Pool this)) <? m_MaxInFlightDepth this
        then create_new (m_Pool this) pfnCreateNew CreationArgs
        else
          match pfnWaitForFenceValue (fst Head) with
          | Returned _ => take_head Head rest [CallWaitForFenceValue (fst Head)]
          | Thrown e =>
              mkRetrieved (Thrown e) (m_Pool this) [CallWaitForFenceValue (fst Head)]
          | Undefined =>
              mkRetrieved Undefined (m_Pool this) [CallWaitForFenceValue (fst Head)]
          end
      else take_head Head rest []
  end.

End Pool.

Arguments CBoundedFencePool : clear implicits.

End BoundedFencePool.

(* --------------------------------------------------------------------- *)
(** ** RetiredSuballocationBlock and DeferredDeletionQueueManager         *)
(* --------------------------------------------------------------------- *)

Module DeferredDeletion.

Section Queue.

(** Types the header only names: the context consulted for completed fence
    values, the user-attached waits, the suballocation descriptor and the
    identity of the parent allocator a block refers back to. *)
Context {ImmediateContext DeferredWait HeapSuballocationBlock
         ConditionalHeapAllocator : Type}.

(** [(UINT)COMMAND_LIST_TYPE::MAX_VALID], the number of command list types. *)
Variable MAX_VALID : nat.

(** The static [RetiredObject::ReadyToDestroy(pContext, completionRequired,
    lastCommandListIDs, deferredWaits)] is declared in the header and defined
    elsewhere; the queue code is parametric in it. *)
Variable ReadyToDestroy_static :
  ImmediateContext -> bool -> list Z -> list DeferredWait -> bool.

Record RetiredObject : Type := mkRetiredObject {
  m_lastCommandListIDs : list Z;     (* UINT64 [MAX_VALID] *)
  m_completionRequired : bool;
  m_deferredWaits : list DeferredWait
}.

(** [RetiredObject(COMMAND_LIST_TYPE CommandListType, UINT64 lastCommandListID,
      bool completionRequired, std::vector<DeferredWait> deferredWaits = {})]:
    the array member is value-initialised to zero, then
    [m_lastCommandListIDs[(UINT)CommandListType] = lastCommandListID].  The
    array has [MAX_VALID] elements; for an index at or beyond [MAX_VALID]
    the assignment writes past it, which is undefined. *)
Definition RetiredObject_of_type (CommandListType : nat) (lastCommandListID : Z)
    (completionRequired : bool) (deferredWaits : list DeferredWait)
  : Outcome RetiredObject :=
  if (CommandListType <? MAX_VALID)%nat then
    Returned
      (mkRetiredObject
         (<[CommandListType := lastCommandListID]> (replicate MAX_VALID 0))
         completionRequired deferredWaits)
  else Undefined.

(** [RetiredObject(const UINT64 lastCommandListIDs[MAX_VALID],
      bool completionRequired, std::vector<DeferredWait> deferredWaits = {})]:
    the loop reads [lastCommandListIDs[i]] for every [i < MAX_VALID]; an
    array with fewer elements is read past its end, which is undefined. *)
Definition RetiredObject_of_ids (lastCommandListIDs : list Z)
    (completionRequired : bool) (deferredWaits : list DeferredWait)
  : Outcome RetiredObject :=
  if (MAX_VALID <=? length lastCommandListIDs)%nat then
    Returned
      (mkRetiredObject (take MAX_VALID lastCommandListIDs)
         completionRequired deferredWaits)
  else Undefined.

(** [bool ReadyToDestroy(ImmediateContext* pContext)] *)
Definition ReadyToDestroy (o : RetiredObject) (pContext : ImmediateContext) : bool :=
  ReadyToDestroy_static pContext (m_completionRequired o)
    (m_lastCommandListIDs o) (m_deferredWaits o).

Record RetiredSuballocationBlock : Type := mkRetiredSuballocation {
  retired : RetiredObject;
  m_SuballocatedBlock : HeapSuballocationBlock;
  m_ParentAllocator : ConditionalHeapAllocator
}.

(** The member initialisers of both constructors: the [RetiredObject] base
    first, then [m_SuballocatedBlock(block)] and
    [m_ParentAllocator(parentAllocator)]. *)
Definition with_base (base : Outcome RetiredObject)
    (block : HeapSuballocationBlock) (parentAllocator : ConditionalHeapAllocator)
  : Outcome RetiredSuballocationBlock :=
  match base with
  | Returned o => Returned (mkRetiredSuballocation o block parentAllocator)
  | Thrown e => Thrown e
  | Undefined => Undefined
  end.

(** [RetiredSuballocationBlock(block, parentAllocator, CommandListType,
      lastCommandListID) : RetiredObject(CommandListType, lastCommandListID,
      true), ...] *)
Definition RetiredSuballocationBlock_of_type (block : HeapSuballocationBlock)
    (parentAllocator : ConditionalHeapAllocator) (CommandListType : nat)
    (lastCommandListID : Z) : Outcome RetiredSuballocationBlock :=
  with_base (RetiredObject_of_type CommandListType lastCommandListID true [])
    block parentAllocator.

(** [RetiredSuballocationBlock(block, parentAllocator, lastCommandListIDs)
      : RetiredObject(lastCommandListIDs, true), ...] *)
Definition RetiredSuballocationBlock_of_ids (block : HeapSuballocationBlock)
    (parentAllocator : ConditionalHeapAllocator) (lastCommandListIDs : list Z)
  : Outcome RetiredSuballocationBlock :=
  with_base (RetiredObject_of_ids lastCommandListIDs true [])
    block parentAllocator.

(** [void Destroy()] calls [m_ParentAllocator.Deallocate(m_SuballocatedBlock)];
    the allocator is defined outside these files, and the call is recorded
    as an effect on it. *)
Inductive AllocatorCall : Type :=
| CallDeallocate (allocator : ConditionalHeapAllocator) (block : HeapSuballocationBlock).

Definition Destroy (r : RetiredSuballocationBlock) : list AllocatorCall :=
  [CallDeallocate (m_ParentAllocator r) (m_SuballocatedBlock r)].

(** The part of [DeferredDeletionQueueManager] the suballocation path
    touches: [m_pParent] and [m_DeferredSuballocationDeletionQueue]
    (a [std::queue], pushed at the back). *)
Record DeferredDeletionQueueManager : Type := mkManager {
  m_pParent : ImmediateContext;
  m_DeferredSuballocationDeletionQueue : list RetiredSuballocationBlock
}.

(** [DeferredDeletionQueueManager(ImmediateContext *pContext)] *)
Definition construct (pContext : ImmediateContext) : DeferredDeletionQueueManager :=
  mkManager pContext [].

(** What a call of [AddSuballocationToQueue] did: how it ended, the manager
    afterwards, and the calls it made on parent allocators. *)
Record Added : Type := mkAdded {
  outcome : Outcome unit;
  after_add : DeferredDeletionQueueManager;
  allocator_calls : list AllocatorCall
}.

(** The common body of both [AddSuballocationToQueue] overloads, after the
    local [retiredSuballocation] has been constructed.
    [m_DeferredSuballocationDeletionQueue.push] allocates; [push_ok] says
    whether it gets its memory.  The function is not [noexcept] and has no
    [try]: a [bad_alloc] of [push] leaves it, with the queue as it was and
    the local block gone without [Destroy]. *)
Definition enqueue_or_destroy (push_ok : bool) (this : DeferredDeletionQueueManager)
    (retiredSuballocation : RetiredSuballocationBlock) : Added :=
  if negb (ReadyToDestroy (retired retiredSuballocation) (m_pParent this)) then
    if push_ok then
      mkAdded (Returned tt)
        (mkManager (m_pParent this)
           (m_DeferredSuballocationDeletionQueue this ++ [retiredSuballocation]))
        []
    else mkAdded (Thrown bad_alloc) this []
  else mkAdded (Returned tt) this (Destroy retiredSuballocation).

Definition after_construction (push_ok : bool) (this : DeferredDeletionQueueManager)
    (constructed : Outcome RetiredSuballocationBlock) : Added :=
  match constructed with
  | Returned retiredSuballocation =>
      enqueue_or_destroy push_ok this retiredSuballocation
  | Thrown e => mkAdded (Thrown e) this []
  | Undefined => mkAdded Undefined this []
  end.

(** [void AddSuballocationToQueue(HeapSuballocationBlock&,
      ConditionalHeapAllocator&, COMMAND_LIST_TYPE, UINT64 lastCommandListID)] *)
Definition AddSuballocationToQueue_of_type (push_ok : bool)
    (this : DeferredDeletionQueueManager)
    (suballocation : HeapSuballocationBlock)
    (parentAllocator : ConditionalHeapAllocator)
    (CommandListType : nat) (lastCommandListID : Z) : Added :=
  after_construction push_ok this
    (RetiredSuballocationBlock_of_type suballocation parentAllocator
       CommandListType lastCommandListID).

(** [void AddSuballocationToQueue(HeapSuballocationBlock&,
      ConditionalHeapAllocator&, const UINT64 lastCommandListIDs[MAX_VALID])] *)
Definition AddSuballocationToQueue_of_ids (push_ok : bool)
    (this : DeferredDeletionQueueManager)
    (suballocation : HeapSuballocationBlock)
    (parentAllocator : ConditionalHeapAllocator)
    (lastCommandListIDs : list Z) : Added :=
  after_construction push_ok this
    (RetiredSuballocationBlock_of_ids suballocation parentAllocator
       lastCommandListIDs).

(** A request to retire a suballocation, through either overload. *)
Inductive AddRequest : Type :=
| AddOfType (suballocation : HeapSuballocationBlock)
            (parentAllocator : ConditionalHeapAllocator)
            (CommandListType : nat) (lastCommandListID : Z)
| AddOfIds (suballocation : HeapSuballocationBlock)
           (parentAllocator : ConditionalHeapAllocator)
           (lastCommandListIDs : list Z).

Definition request_block (req : AddRequest) : HeapSuballocationBlock :=
  match req with
  | AddOfType b _ _ _ => b
  | AddOfIds b _ _ => b
  end.

Definition request_allocator (req : AddRequest) : ConditionalHeapAllocator :=
  match req with
  | AddOfType _ a _ _ => a
  | AddOfIds _ a _ => a
  end.

(** The block the call constructs first. *)
Definition constructed (req : AddRequest) : Outcome RetiredSuballocationBlock :=
  match req with
  | AddOfType b a t id => RetiredSuballocationBlock_of_type b a t id
  | AddOfIds b a ids => RetiredSuballocationBlock_of_ids b a ids
  end.

(** The arguments stay within the array of [MAX_VALID] fence values. *)
Definition in_range (req : AddRequest) : bool :=
  match req with
  | AddOfType _ _ t _ => (t <? MAX_VALID)%nat
  | AddOfIds _ _ ids => (MAX_VALID <=? length ids)%nat
  end.

(** The fence values a request in range records. *)
Definition recorded (req : AddRequest) : list Z :=
  match req with
  | AddOfType _ _ t id => <[t := id]> (replicate MAX_VALID 0)
  | AddOfIds _ _ ids => take MAX_VALID ids
  end.

(** The block a request in range constructs. *)
Definition built (req : AddRequest) : RetiredSuballocationBlock :=
  mkRetiredSuballocation (mkRetiredObject (recorded req) true [])
    (request_block req) (request_allocator req).

Definition AddSuballocationToQueue (push_ok : bool)
    (this : DeferredDeletionQueueManager) (req : AddRequest) : Added :=
  match req with
  | AddOfType b a t id => AddSuballocationToQueue_of_type push_ok this b a t id
  | AddOfIds b a ids => AddSuballocationToQueue_of_ids push_ok this b a ids
  end.

(** One call of a history: the context at the time of the call (fences
    complete between calls), whether [push] gets its memory, and the
    request. *)
Record QueueCall : Type := mkQueueCall {
  context : ImmediateContext;
  push_ok_at : bool;
  request : AddRequest
}.

(** Whether the block of a call was ready to destroy when it was made. *)
Definition ready_under (call : QueueCall) : bool :=
  ReadyToDestroy (retired (built (request call))) (context call).

(** A sequence of [AddSuballocationToQueue] calls, with the calls made on
    parent allocators in program order.  A caller can catch [bad_alloc] and
    go on; after undefined behaviour there is no state to speak of. *)
Fixpoint run (this : DeferredDeletionQueueManager) (calls : list QueueCall)
  : Outcome (DeferredDeletionQueueManager * list AllocatorCall) :=
  match calls with
  | [] => Returned (this, [])
  | call :: calls' =>
      let step :=
        AddSuballocationToQueue (push_ok_at call)
          (mkManager (context call) (m_DeferredSuballocationDeletionQueue this))
          (request call) in
      match outcome step with
      | Undefined => Undefined
      | _ =>
          match run (after_add step) calls' with
          | Returned (final, made) =>
              Returned (final, allocator_calls step ++ made)
          | other => other
          end
      end
  end.

End Queue.

Arguments RetiredObject : clear implicits.
Arguments RetiredSuballocationBlock : clear implicits.
Arguments AllocatorCall : clear implicits.
Arguments DeferredDeletionQueueManager : clear implicits.
Arguments Added : clear implicits.
Arguments AddRequest : clear implicits.
Arguments QueueCall : clear implicits.

End DeferredDeletion.

(* --------------------------------------------------------------------- *)
(** ** CFencedRingBuffer                                                  *)
(* --------------------------------------------------------------------- *)

Module FencedRingBuffer.

Record LedgerEntry : Type := mkEntry {
  m_FenceValue : Z;        (* UINT64 *)
  m_NumAllocations : Z     (* UINT32 *)
}.

(** [static const UINT32 cLedgerSize = 16;] *)
Definition cLedgerSize : Z := 16.

Record CFencedRingBuffer : Type := mkRing {
  m_Head : Z;              (* UINT64 *)
  m_Tail : Z;              (* UINT64 *)
  m_Size : Z;              (* UINT32 *)
  m_Ledger : list LedgerEntry;   (* LedgerEntry m_Ledger[cLedgerSize] *)
  m_LedgerMask : Z;        (* UINT32 *)
  m_LedgerIndex : Z        (* UINT32 *)
}.

(** [entry = {}] and the value-initialised ledger. *)
Definition empty_entry : LedgerEntry := mkEntry 0 0.

(** [CFencedRingBuffer(UINT32 Size = 0)]: [m_Head(Size)], [m_Ledger{}], and
    the default member initialisers [m_Tail = 0], [m_LedgerMask = 0x1],
    [m_LedgerIndex = 0]. *)
Definition construct (Size : Z) : CFencedRingBuffer :=
  mkRing Size 0 Size (replicate (Z.to_nat cLedgerSize) empty_entry) 1 0.

(** [m_Ledger[i]]; every index the code uses is below [cLedgerSize]. *)
Definition ledger_at (ledger : list LedgerEntry) (i : Z) : LedgerEntry :=
  default empty_entry (ledger !! Z.to_nat i).

Definition ledger_set (ledger : list LedgerEntry) (i : Z) (e : LedgerEntry)
  : list LedgerEntry :=
  <[Z.to_nat i := e]> ledger.

(** [inline UINT32 DereferenceTail() const { return m_Tail % m_Size; }] *)
Definition DereferenceTail (this : CFencedRingBuffer) : Z :=
  wrap32 (m_Tail this mod m_Size this).

(** [LedgerEntry& GetCurrentLedgeEntry() { return m_Ledger[m_LedgerIndex]; }] *)
Definition GetCurrentLedgeEntry (this : CFencedRingBuffer) : LedgerEntry :=
  ledger_at (m_Ledger this) (m_LedgerIndex this).

Definition set_current_entry (this : CFencedRingBuffer) (e : LedgerEntry)
  : CFencedRingBuffer :=
  mkRing (m_Head this) (m_Tail this) (m_Size this)
    (ledger_set (m_Ledger this) (m_LedgerIndex this) e)
    (m_LedgerMask this) (m_LedgerIndex this).

(** [bool IsLedgerEntryAvailable(UINT32 Index) const
      { return (m_LedgerMask & (1 << Index)) == 0; }] *)
Definition IsLedgerEntryAvailable (this : CFencedRingBuffer) (Index : Z) : bool :=
  Z.land (m_LedgerMask this) (Z.shiftl 1 Index) =? 0.

(** [HRESULT MoveToNextLedgerEntry(UINT64 CurrentFenceValue)].  The index is
    advanced before the availability test, also when the call fails. *)
Definition MoveToNextLedgerEntry (this : CFencedRingBuffer) (CurrentFenceValue : Z)
  : HRESULT * CFencedRingBuffer :=
  let index := wrap32 (m_LedgerIndex this + 1) in
  let index := index mod cLedgerSize in
  let this1 :=
    mkRing (m_Head this) (m_Tail this) (m_Size this) (m_Ledger this)
      (m_LedgerMask this) index in
  if IsLedgerEntryAvailable this1 index then
    let this2 :=
      mkRing (m_Head this1) (m_Tail this1) (m_Size this1) (m_Ledger this1)
        (wrap32 (Z.lor (m_LedgerMask this1) (Z.shiftl 1 index))) index in
    let this3 :=
      set_current_entry this2
        (mkEntry (m_FenceValue (GetCurrentLedgeEntry this2)) 0) in
    let this4 :=
      set_current_entry this3
        (mkEntry CurrentFenceValue (m_NumAllocations (GetCurrentLedgeEntry this3))) in
    (S_OK, this4)
  else (E_FAIL, this1).

(** The successful tail of [Allocate]:
    [GetCurrentLedgeEntry().m_NumAllocations += NumItems; m_Tail += NumItems;] *)
Definition record_allocation (this : CFencedRingBuffer) (NumItems : Z)
  : CFencedRingBuffer :=
  let entry := GetCurrentLedgeEntry this in
  let this1 :=
    set_current_entry this
      (mkEntry (m_FenceValue entry) (wrap32 (m_NumAllocations entry + NumItems))) in
  mkRing (m_Head this1) (wrap64 (m_Tail this1 + NumItems)) (m_Size this1)
    (m_Ledger this1) (m_LedgerMask this1) (m_LedgerIndex this1).

(** The result of [Allocate]: the [HRESULT], the value of the reference
    parameter [OffsetOut] on return, and the ring afterwards. *)
Record Allocated : Type := mkAllocated {
  hr : HRESULT;
  OffsetOut : Z;
  after : CFencedRingBuffer
}.

(** [HRESULT Allocate(UINT32 NumItems, UINT64 CurrentFenceValue,
      _Out_ UINT32& OffsetOut)].  The function calls itself for the wrap
    padding; [fuel] bounds the depth of the calls, and [None] means the bound
    was reached.  [OffsetIn] is the value the caller's variable holds on
    entry: some failure paths return without writing to it.  The two
    [assert]s compile away in release builds; they are hypotheses of the
    theorems. *)
Fixpoint Allocate_fuel (fuel : nat) (this : CFencedRingBuffer)
    (NumItems CurrentFenceValue OffsetIn : Z) : option Allocated :=
  match fuel with
  | O => None
  | S fuel' =>
      if NumItems =? 0 then
        Some (mkAllocated S_OK (DereferenceTail this) this)
      else
        let moved :=
          if CurrentFenceValue >? m_FenceValue (GetCurrentLedgeEntry this)
          then MoveToNextLedgerEntry this CurrentFenceValue
          else (S_OK, this) in
        if FAILED (fst moved) then
          Some (mkAllocated E_FAIL OffsetIn (snd moved))
        else
          let this1 := snd moved in
          let tailLocation := DereferenceTail this1 in
          let padded :=
            if wrap64 (tailLocation + NumItems) >? m_Size this1 then
              let remainder := wrap64 (m_Size this1 - tailLocation) in
              let dummy := 0 in
              match Allocate_fuel fuel' this1 (wrap32 remainder)
                      CurrentFenceValue dummy with
              | None => None
              | Some r => Some (hr r, after r)
              end
            else Some (S_OK, this1) in
          match padded with
          | None => None
          | Some (hr_pad, this2) =>
              if FAILED hr_pad then
                Some (mkAllocated E_FAIL OffsetIn this2)
              else if wrap64 (m_Tail this2 + NumItems) <=? m_Head this2 then
                Some (mkAllocated S_OK (DereferenceTail this2)
                        (record_allocation this2 NumItems))
              else
                Some (mkAllocated E_FAIL (wrap32 (-1)) this2)
          end
  end.

(** One level of padding is all [Allocate] ever nests (see
    [Allocate_fuel_enough]). *)
Definition Allocate (this : CFencedRingBuffer)
    (NumItems CurrentFenceValue OffsetIn : Z) : option Allocated :=
  Allocate_fuel 2 this NumItems CurrentFenceValue OffsetIn.

(** One iteration of the loop of [Deallocate], up to the test of the mask. *)
Definition Deallocate_entry (CompletedFenceValue : Z) (this : CFencedRingBuffer)
    (i : Z) : CFencedRingBuffer :=
  let entry := ledger_at (m_Ledger this) i in
  let bit := wrap32 (Z.shiftl 1 i) in
  if negb (Z.land (m_LedgerMask this) bit =? 0)
     && (m_FenceValue entry <=? CompletedFenceValue)
  then
    mkRing (wrap64 (m_Head this + m_NumAllocations entry)) (m_Tail this)
      (m_Size this) (ledger_set (m_Ledger this) i empty_entry)
      (Z.land (m_LedgerMask this) (wrap32 (Z.lnot bit))) (m_LedgerIndex this)
  else this.

(** [for (size_t i = 0; i < _countof(m_Ledger); i++) { ...;
      if (m_LedgerMask == 0) break; }] over the remaining indices. *)
Fixpoint Deallocate_loop (CompletedFenceValue : Z) (this : CFencedRingBuffer)
    (indices : list Z) : CFencedRingBuffer :=
  match indices with
  | [] => this
  | i :: indices' =>
      let this' := Deallocate_entry CompletedFenceValue this i in
      if m_LedgerMask this' =? 0 then this'
      else Deallocate_loop CompletedFenceValue this' indices'
  end.

Definition ledger_indices : list Z :=
  map Z.of_nat (seq 0 (Z.to_nat cLedgerSize)).

(** [void Deallocate(UINT64 CompletedFenceValue)] *)
Definition Deallocate (this : CFencedRingBuffer) (CompletedFenceValue : Z)
  : CFencedRingBuffer :=
  Deallocate_loop CompletedFenceValue this ledger_indices.

(** *** Quantities the specification speaks about *)

(** The specification's [head]: the code starts [m_Head] at [Size]. *)
Definition head (this : CFencedRingBuffer) : Z := m_Head this - m_Size this.
Definition tail (this : CFencedRingBuffer) : Z := m_Tail this.

(** Slot [i] is live when its bit is set in the ledger mask. *)
Definition live (this : CFencedRingBuffer) (i : Z) : bool :=
  Z.testbit (m_LedgerMask this) i.

Definition live_allocations (this : CFencedRingBuffer) (i : Z) : Z :=
  if live this i then m_NumAllocations (ledger_at (m_Ledger this) i) else 0.

Definition sum_over (f : Z -> Z) (indices : list Z) : Z :=
  fold_right (fun i acc => f i + acc) 0 indices.

(** The sum of [m_NumAllocations] over the live ledger slots. *)
Definition live_total (this : CFencedRingBuffer) : Z :=
  sum_over (live_allocations this) ledger_indices.

(** The next ledger slot, [(index + 1) mod 16]. *)
Definition next_slot (this : CFencedRingBuffer) : Z :=
  (m_LedgerIndex this + 1) mod cLedgerSize.

(** The ledger is saturated for a fence value: a new entry is needed and the
    next slot is still in use. *)
Definition saturated (this : CFencedRingBuffer) (CurrentFenceValue : Z) : bool :=
  (CurrentFenceValue >? m_FenceValue (GetCurrentLedgeEntry this))
  && negb (IsLedgerEntryAvailable this (next_slot this)).

(** The padding a request needs to start at offset 0 when it would straddle
    the end of the buffer. *)
Definition wraps (this : CFencedRingBuffer) (NumItems : Z) : bool :=
  tail this mod m_Size this + NumItems >? m_Size this.

Definition padding (this : CFencedRingBuffer) (NumItems : Z) : Z :=
  if wraps this NumItems then m_Size this - tail this mod m_Size this else 0.

(** After the padding, the request does not fit below [head + size]. *)
Definition no_room (this : CFencedRingBuffer) (NumItems : Z) : bool :=
  tail this + padding this NumItems + NumItems >? head this + m_Size this.

(** Calls made on a ring buffer. *)
Inductive Op : Type :=
| OpAllocate (NumItems CurrentFenceValue : Z)
| OpDeallocate (CompletedFenceValue : Z).

Definition step (this : CFencedRingBuffer) (op : Op) : CFencedRingBuffer :=
  match op with
  | OpAllocate NumItems CurrentFenceValue =>
      match Allocate this NumItems CurrentFenceValue 0 with
      | Some r => after r
      | None => this
      end
  | OpDeallocate CompletedFenceValue => Deallocate this CompletedFenceValue
  end.

Definition run (this : CFencedRingBuffer) (ops : list Op) : CFencedRingBuffer :=
  fold_left step ops this.

(** Fifteen single-item allocations under the fence values 1 to 15: with the
    entry the constructor marks in use, they occupy all 16 ledger slots. *)
Definition fifteen_fences : list Op :=
  map (fun i => OpAllocate 1 (Z.of_nat i)) (seq 1 15).

(** *** Derived forms and invariant *)

(** The first step of [Allocate] for a request of at least one item: open a
    new ledger entry when the fence value is newer than the current one. *)
Definition after_move (this : CFencedRingBuffer) (CurrentFenceValue : Z)
  : HRESULT * CFencedRingBuffer :=
  if CurrentFenceValue >? m_FenceValue (GetCurrentLedgeEntry this)
  then MoveToNextLedgerEntry this CurrentFenceValue
  else (S_OK, this).

(** The last step of [Allocate], on counters that do not wrap: place
    [NumItems] items at the tail if they fit below [m_Head]. *)
Definition place (this : CFencedRingBuffer) (NumItems : Z) : Allocated :=
  if m_Tail this + NumItems <=? m_Head this
  then mkAllocated S_OK (m_Tail this mod m_Size this)
         (record_allocation this NumItems)
  else mkAllocated E_FAIL (2 ^ 32 - 1) this.

(** [Allocate] for a request of at least one item, written without the
    recursion: the padding is one more [place].  [Allocate_flat] below shows
    that the code computes this on counters that do not wrap. *)
Definition allocate_flat (this : CFencedRingBuffer)
    (NumItems CurrentFenceValue OffsetIn : Z) : Allocated :=
  let moved := after_move this CurrentFenceValue in
  if FAILED (fst moved) then mkAllocated E_FAIL OffsetIn (snd moved)
  else
    let this1 := snd moved in
    if wraps this NumItems then
      let padded := place this1 (padding this NumItems) in
      if FAILED (hr padded) then mkAllocated E_FAIL OffsetIn (after padded)
      else place (after padded) NumItems
    else place this1 NumItems.

Definition in_ledger (i : Z) : Prop := 0 <= i < cLedgerSize.

(** What the C++ types and the array bound give for every ring buffer of
    positive size. *)
Record well_formed (this : CFencedRingBuffer) : Prop := mkWellFormed {
  wf_size : 0 < m_Size this < 2 ^ 32;
  wf_index : in_ledger (m_LedgerIndex this);
  wf_ledger : length (m_Ledger this) = Z.to_nat cLedgerSize;
  wf_tail : 0 <= m_Tail this
}.

(** The 64-bit tail counter is at least [2^33] items away from wrapping. *)
Definition far_from_wrap (this : CFencedRingBuffer) : Prop :=
  m_Tail this + 2 ^ 33 <= 2 ^ 64.

Record Inv (this : CFencedRingBuffer) : Prop := mkInv {
  inv_wf : well_formed this;
  inv_no_wrap : m_Tail this + m_Size this < 2 ^ 64;
  inv_tail_head : m_Tail this <= m_Head this;
  inv_head_tail : m_Head this <= m_Tail this + m_Size this;
  inv_total : live_total this = m_Tail this + m_Size this - m_Head this;
  inv_counts :
    forall i, in_ledger i -> 0 <= m_NumAllocations (ledger_at (m_Ledger this) i);
  inv_retired :
    forall i, in_ledger i -> live this i = false ->
              ledger_at (m_Ledger this) i = empty_entry
}.

(** The property the specification states for every ring-buffer state. *)
Definition ledger_accounts_for_live_range (this : CFencedRingBuffer) : Prop :=
  0 <= tail this - head this <= m_Size this /\
  live_total this = tail this - head this.

(** Every [Allocate] of a history requests fewer than [size / 2] items. *)
Definition requests_small (Size : Z) (op : Op) : bool :=
  match op with
  | OpAllocate NumItems _ => (0 <=? NumItems) && (NumItems <? Size / 2)
  | OpDeallocate _ => true
  end.

(** ... and, in addition, passes a fence value above 0 (the value of a
    ledger entry that was never used or has been retired) while the tail
    counter is far from wrapping. *)
Definition valid_op (this : CFencedRingBuffer) (op : Op) : bool :=
  requests_small (m_Size this) op &&
  match op with
  | OpAllocate _ CurrentFenceValue =>
      (0 <? CurrentFenceValue) && (m_Tail this + 2 ^ 33 <=? 2 ^ 64)
  | OpDeallocate _ => true
  end.

Fixpoint valid_run (this : CFencedRingBuffer) (ops : list Op) : bool :=
  match ops with
  | [] => true
  | op :: ops' => valid_op this op && valid_run (step this op) ops'
  end.

End FencedRingBuffer.

(* --------------------------------------------------------------------- *)
(** ** CDescriptorHeapManager                                             *)
(* --------------------------------------------------------------------- *)

Module DescriptorHeapManager.

(** [struct SFreeRange { HeapOffsetRaw Start; HeapOffsetRaw End; };]
    [HeapOffsetRaw] is the 64-bit [SIZE_T] of a CPU descriptor handle. *)
Record SFreeRange : Type := mkRange {
  Start : Z;
  End_ : Z
}.

(** [struct SHeapEntry]: the heap object is represented by the CPU handle of
    its first descriptor ([GetCPUDescriptorHandleForHeapStart]). *)
Record SHeapEntry : Type := mkHeapEntry {
  m_Heap : Z;
  m_FreeList : list SFreeRange
}.

(** [HeapIndex] ([UINT]) only ever indexes [m_Heaps]; it is a [nat] here. *)
Definition HeapIndex : Type := nat.

Record CDescriptorHeapManager : Type := mkHeapManager {
  NumDescriptors : Z;            (* m_Desc.NumDescriptors, UINT *)
  m_DescriptorSize : Z;          (* const UINT *)
  m_Heaps : list SHeapEntry;     (* std::deque<SHeapEntry> *)
  m_FreeHeaps : list HeapIndex   (* std::list<HeapIndex> *)
}.

(** The constructor leaves both containers empty. *)
Definition construct (NumDescriptorsPerHeap DescriptorSize : Z)
  : CDescriptorHeapManager :=
  mkHeapManager NumDescriptorsPerHeap DescriptorSize [] [].

(** Which of the CPU-side bookkeeping allocations annotated
    [// throw( bad_alloc )] succeed during one call. *)
Record Mem : Type := mkMem {
  range_node_ok : bool;     (* a node of some m_FreeList *)
  heap_entry_ok : bool;     (* m_Heaps.emplace_back *)
  index_node_ok : bool      (* m_FreeHeaps.push_back *)
}.

Definition mem_ok : Mem := mkMem true true true.

Definition set_heaps (this : CDescriptorHeapManager) (heaps : list SHeapEntry)
  : CDescriptorHeapManager :=
  mkHeapManager (NumDescriptors this) (m_DescriptorSize this) heaps (m_FreeHeaps this).

Definition set_free_heaps (this : CDescriptorHeapManager) (free : list HeapIndex)
  : CDescriptorHeapManager :=
  mkHeapManager (NumDescriptors this) (m_DescriptorSize this) (m_Heaps this) free.

Definition set_free_list (this : CDescriptorHeapManager) (index : HeapIndex)
    (HeapEntry : SHeapEntry) (free : list SFreeRange) : CDescriptorHeapManager :=
  set_heaps this (<[index := mkHeapEntry (m_Heap HeapEntry) free]> (m_Heaps this)).

(** A member function that may throw after it has changed the object:
    the outcome of the call and the object afterwards. *)
Record Call (A : Type) : Type := mkCall {
  result : Outcome A;
  after : CDescriptorHeapManager
}.

Arguments mkCall {A} result after.
Arguments result {A} c.
Arguments after {A} c.

(** [void AllocateHeap() noexcept(false)].  [created] is what the device
    answers to [CreateDescriptorHeap]: the CPU handle of the start of the new
    heap, or the failure [ThrowFailure] turns into an exception. *)
Definition AllocateHeap (mem : Mem) (created : Outcome Z)
    (this : CDescriptorHeapManager) : Call unit :=
  match created with
  | Thrown e => mkCall (Thrown e) this
  | Undefined => mkCall Undefined this
  | Returned HeapBase =>
      if negb (range_node_ok mem) then mkCall (Thrown bad_alloc) this else
      let NewEntry :=
        mkHeapEntry HeapBase
          [mkRange HeapBase
             (wrap64 (HeapBase
                      + wrap32 (NumDescriptors this * m_DescriptorSize this)))] in
      if negb (heap_entry_ok mem) then mkCall (Thrown bad_alloc) this else
      let this1 := set_heaps this (m_Heaps this ++ [NewEntry]) in
      if negb (index_node_ok mem) then mkCall (Thrown bad_alloc) this1 else
      mkCall (Returned tt)
        (set_free_heaps this1
           (m_FreeHeaps this1 ++ [(length (m_Heaps this1) - 1)%nat]))
  end.

(** The part of [AllocateHeapSlot] from [assert(!m_FreeHeaps.empty())] on:
    take the first descriptor of the first free range of the page at the
    front of [m_FreeHeaps]. *)
Definition take_slot (this : CDescriptorHeapManager) : Call (Z * HeapIndex) :=
  match m_FreeHeaps this with
  | [] => mkCall Undefined this              (* assert(!m_FreeHeaps.empty()) *)
  | index :: free_heaps =>
      match m_Heaps this !! index with
      | None => mkCall Undefined this        (* m_Heaps[index] out of range *)
      | Some HeapEntry =>
          match m_FreeList HeapEntry with
          | [] => mkCall Undefined this      (* assert(!m_FreeList.empty()) *)
          | Range :: ranges =>
              let Ret := Start Range in
              let Range' :=
                mkRange (wrap64 (Start Range + m_DescriptorSize this))
                        (End_ Range) in
              if Start Range' =? End_ Range' then
                let this1 := set_free_list this index HeapEntry ranges in
                match ranges with
                | [] => mkCall (Returned (Ret, index))
                          (set_free_heaps this1 free_heaps)
                | _ :: _ => mkCall (Returned (Ret, index)) this1
                end
              else
                mkCall (Returned (Ret, index))
                  (set_free_list this index HeapEntry (Range' :: ranges))
          end
      end
  end.

(** [HeapOffset AllocateHeapSlot(_Out_opt_ HeapIndex *outIndex = nullptr)]:
    create a page if no page has a free descriptor, then [take_slot].
    The index is always part of the result; a caller passing [nullptr]
    ignores it. *)
Definition AllocateHeapSlot (mem : Mem) (created : Outcome Z)
    (this : CDescriptorHeapManager) : Call (Z * HeapIndex) :=
  let grown :=
    match m_FreeHeaps this with
    | [] => AllocateHeap mem created this
    | _ :: _ => mkCall (Returned tt) this
    end in
  match result grown with
  | Thrown e => mkCall (Thrown e) (after grown)
  | Undefined => mkCall Undefined (after grown)
  | Returned _ => take_slot (after grown)
  end.

(** The loop of [FreeHeapSlot] over the free list of the page.
    [Returned (Some l)] is the list when the loop ends with [bFound] set,
    [Returned None] when it ends with [bFound] clear, [Thrown bad_alloc] when
    the insertion cannot allocate its node.  The two [assert]s of the loop
    body are diagnostics only. *)
Fixpoint coalesce (mem : Mem) (DescriptorSize Offset : Z) (ranges : list SFreeRange)
  : Outcome (option (list SFreeRange)) :=
  match ranges with
  | [] => Returned None
  | Range :: ranges' =>
      if Start Range =? wrap64 (Offset + DescriptorSize) then
        Returned (Some (mkRange Offset (End_ Range) :: ranges'))
      else if End_ Range =? Offset then
        Returned (Some (mkRange (Start Range) (wrap64 (End_ Range + DescriptorSize))
                          :: ranges'))
      else if Start Range >? Offset then
        if range_node_ok mem
        then Returned (Some (mkRange Offset (wrap64 (Offset + DescriptorSize))
                               :: Range :: ranges'))
        else Thrown bad_alloc
      else
        match coalesce mem DescriptorSize Offset ranges' with
        | Returned (Some l) => Returned (Some (Range :: l))
        | other => other
        end
  end.

(** [void FreeHeapSlot(HeapOffset Offset, HeapIndex index) noexcept]: the
    [try] block with its [catch( std::bad_alloc& )], which keeps whatever the
    block had already changed. *)
Definition FreeHeapSlot (mem : Mem) (this : CDescriptorHeapManager)
    (Offset : Z) (index : HeapIndex) : Outcome CDescriptorHeapManager :=
  match m_Heaps this !! index with
  | None => Undefined                       (* assert(index < m_Heaps.size()) *)
  | Some HeapEntry =>
      let NewRange :=
        mkRange Offset (wrap64 (Offset + m_DescriptorSize this)) in
      match coalesce mem (m_DescriptorSize this) Offset (m_FreeList HeapEntry) with
      | Returned (Some ranges) =>
          Returned (set_free_list this index HeapEntry ranges)
      | Returned None =>
          let pushed :=
            match m_FreeList HeapEntry with
            | [] =>
                if index_node_ok mem
                then Some (set_free_heaps this (m_FreeHeaps this ++ [index]))
                else None
            | _ :: _ => Some this
            end in
          match pushed with
          | None => Returned this
          | Some this1 =>
              if range_node_ok mem
              then Returned (set_free_list this1 index HeapEntry
                               (m_FreeList HeapEntry ++ [NewRange]))
              else Returned this1
          end
      | Thrown _ => Returned this
      | Undefined => Undefined
      end
  end.

(** *** Histories of a manager *)

(** A descriptor handle together with the page it was allocated from. *)
Definition Slot : Type := Z * HeapIndex.

Definition slot_eq_dec (a b : Slot) : {a = b} + {a <> b}.
Proof. decide equality; [apply Nat.eq_dec | apply Z.eq_dec]. Defined.

(** The per-page conditions on a free list: within a page whose first
    descriptor is at [base], ranges lie in [[lo, hi]], are not empty, start
    and end on descriptor boundaries, and each starts no earlier than the
    previous one ends. *)
Definition on_boundary (DescriptorSize base x : Z) : Prop :=
  (x - base) mod DescriptorSize = 0.

Fixpoint chain (DescriptorSize base hi lo : Z) (ranges : list SFreeRange) : Prop :=
  match ranges with
  | [] => True
  | Range :: ranges' =>
      lo <= Start Range /\ Start Range < End_ Range /\ End_ Range <= hi /\
      on_boundary DescriptorSize base (Start Range) /\
      on_boundary DescriptorSize base (End_ Range) /\
      chain DescriptorSize base hi (End_ Range) ranges'
  end.

(** Sorted by ascending [Start] with no overlap: every range ends no later
    than the next one starts. *)
Fixpoint ascending (ranges : list SFreeRange) : Prop :=
  match ranges with
  | [] => True
  | Range :: ranges' =>
      Start Range < End_ Range /\
      match ranges' with
      | [] => True
      | Next :: _ => End_ Range <= Start Next
      end /\
      ascending ranges'
  end.

(** Two neighbours of a free list touch when the first ends where the
    second starts. *)
Fixpoint touching (ranges : list SFreeRange) : bool :=
  match ranges with
  | [] => false
  | Range :: ranges' =>
      match ranges' with
      | [] => false
      | Next :: _ => (End_ Range =? Start Next) || touching ranges'
      end
  end.

Definition page_limit (this : CDescriptorHeapManager) (HeapEntry : SHeapEntry) : Z :=
  m_Heap HeapEntry + NumDescriptors this * m_DescriptorSize this.

Definition page_ok (this : CDescriptorHeapManager) (HeapEntry : SHeapEntry) : Prop :=
  0 <= m_Heap HeapEntry /\ page_limit this HeapEntry < 2 ^ 64 /\
  chain (m_DescriptorSize this) (m_Heap HeapEntry) (page_limit this HeapEntry)
    (m_Heap HeapEntry) (m_FreeList HeapEntry).

Definition outside (DescriptorSize h : Z) (Range : SFreeRange) : Prop :=
  h + DescriptorSize <= Start Range \/ End_ Range <= h.

Definition slot_ok (this : CDescriptorHeapManager) (s : Slot) : Prop :=
  exists HeapEntry,
    m_Heaps this !! snd s = Some HeapEntry /\
    m_Heap HeapEntry <= fst s /\
    fst s + m_DescriptorSize this <= page_limit this HeapEntry /\
    on_boundary (m_DescriptorSize this) (m_Heap HeapEntry) (fst s) /\
    Forall (outside (m_DescriptorSize this) (fst s)) (m_FreeList HeapEntry).

(** The invariant of a manager with the handles in [allocated] outstanding. *)
Record Inv (this : CDescriptorHeapManager) (allocated : list Slot) : Prop := mkInv {
  inv_size : 0 < m_DescriptorSize this;
  inv_count : 0 < NumDescriptors this;
  inv_page_bytes : NumDescriptors this * m_DescriptorSize this < 2 ^ 32;
  inv_pages : Forall (page_ok this) (m_Heaps this);
  inv_slots : Forall (slot_ok this) allocated;
  inv_distinct : List.NoDup allocated;
  inv_free_heaps :
    Forall (fun index => exists HeapEntry,
              m_Heaps this !! index = Some HeapEntry /\ m_FreeList HeapEntry <> [])
           (m_FreeHeaps this);
  inv_free_distinct : List.NoDup (m_FreeHeaps this)
}.

(** The device hands out heaps whose descriptors all have 64-bit handles. *)
Definition heap_in_range (this : CDescriptorHeapManager) (created : Outcome Z) : Prop :=
  match created with
  | Returned HeapBase =>
      0 <= HeapBase /\
      HeapBase + NumDescriptors this * m_DescriptorSize this < 2 ^ 64
  | _ => True
  end.

(** States reachable from construction by [AllocateHeapSlot] and by
    [FreeHeapSlot] of handles that were allocated and not yet freed, with
    the handles outstanding.  Bookkeeping allocations succeed. *)
Inductive reachable : CDescriptorHeapManager -> list Slot -> Prop :=
| reach_construct NumDescriptorsPerHeap DescriptorSize :
    0 < DescriptorSize -> 0 < NumDescriptorsPerHeap ->
    NumDescriptorsPerHeap * DescriptorSize < 2 ^ 32 ->
    reachable (construct NumDescriptorsPerHeap DescriptorSize) []
| reach_allocate this allocated created slot :
    reachable this allocated ->
    heap_in_range this created ->
    result (AllocateHeapSlot mem_ok created this) = Returned slot ->
    reachable (after (AllocateHeapSlot mem_ok created this)) (slot :: allocated)
| reach_allocate_failed this allocated created e :
    reachable this allocated ->
    result (AllocateHeapSlot mem_ok created this) = Thrown e ->
    reachable (after (AllocateHeapSlot mem_ok created this)) allocated
| reach_free this allocated Offset index this' :
    reachable this allocated ->
    In (Offset, index) allocated ->
    FreeHeapSlot mem_ok this Offset index = Returned this' ->
    reachable this' (remove slot_eq_dec (Offset, index) allocated).

(** Calls made on a manager, with the device's answer for the allocations
    that need a new heap; bookkeeping allocations succeed. *)
Inductive Op : Type :=
| OpAllocate (created : Outcome Z)
| OpFree (Offset : Z) (index : HeapIndex).

Definition step (this : CDescriptorHeapManager) (op : Op) : CDescriptorHeapManager :=
  match op with
  | OpAllocate created => after (AllocateHeapSlot mem_ok created this)
  | OpFree Offset index =>
      match FreeHeapSlot mem_ok this Offset index with
      | Returned this' => this'
      | _ => this
      end
  end.

Definition run (this : CDescriptorHeapManager) (ops : list Op)
  : CDescriptorHeapManager :=
  fold_left step ops this.

(** One page of four 32-byte descriptors at 1000: allocate A = 1000,
    B = 1032, C = 1064, then free A, C and finally B, which lies between
    two free ranges. *)
Definition bridge_ops : list Op :=
  [OpAllocate (Returned 1000); OpAllocate (Returned 1000);
   OpAllocate (Returned 1000);
   OpFree 1000 0%nat; OpFree 1064 0%nat; OpFree 1032 0%nat].

(** Two pages of two descriptors, at 1000 and 5000, both full; then the
    first descriptor of each page is freed. *)
Definition two_pages_ops : list Op :=
  [OpAllocate (Returned 1000); OpAllocate (Returned 1000);
   OpAllocate (Returned 5000); OpAllocate (Returned 5000);
   OpFree 1000 0%nat; OpFree 5000 1%nat].

End DescriptorHeapManager.

(* --------------------------------------------------------------------- *)
(** ** Histories of a fence pool                                          *)
(* --------------------------------------------------------------------- *)

Module FencePoolHistory.

Import FencePool.

Section Pool.

Context {TResourceType CreationArgType : Type}.

(** Fence values do not decrease from the head of the pool to its tail. *)
Fixpoint fences_ascending (m_Pool : @TPool TResourceType) : Prop :=
  match m_Pool with
  | [] => True
  | Head :: rest =>
      Forall (fun entry => fst Head <= fst entry) rest /\ fences_ascending rest
  end.

(** [ReturnToPool] for each entry in turn; list nodes are available. *)
Definition return_all (m_Pool : @TPool TResourceType)
    (entries : list (@TPoolEntry TResourceType)) : @TPool TResourceType :=
  fold_left
    (fun pool entry =>
       match ReturnToPool true pool (snd entry) (fst entry) with
       | Returned r => after_return r
       | _ => pool
       end)
    entries m_Pool.

(** [count] calls of [RetrieveFromPool] with the same arguments: what each
    call returned, every callback invocation, and the pool at the end. *)
Fixpoint retrieve_times (count : nat) (m_Pool : @TPool TResourceType)
    (CurrentFenceValue : Z)
    (pfnCreateNew : CreationArgType -> Outcome TResourceType)
    (CreationArgs : CreationArgType)
  : list (Outcome TResourceType) * list (Call CreationArgType)
    * @TPool TResourceType :=
  match count with
  | O => ([], [], m_Pool)
  | S count' =>
      let r := RetrieveFromPool m_Pool CurrentFenceValue pfnCreateNew CreationArgs in
      let '(rets, made, pool) :=
        retrieve_times count' (after_retrieve r) CurrentFenceValue
          pfnCreateNew CreationArgs in
      (ret r :: rets, calls r ++ made, pool)
  end.

(** [count] calls of [Trim] ("pumping"). *)
Fixpoint trim_times (count : nat) (m_Pool : @TPool TResourceType)
    (TrimThreshold CurrentFenceValue : Z) : @TPool TResourceType :=
  match count with
  | O => m_Pool
  | S count' =>
      trim_times count' (Trim m_Pool TrimThreshold CurrentFenceValue)
        TrimThreshold CurrentFenceValue
  end.

End Pool.

End FencePoolHistory.

(* --------------------------------------------------------------------- *)
(** ** CMultiLevelPool                                                    *)
(* --------------------------------------------------------------------- *)

Module MultiLevelPool.

Section Pool.

Context {TResourceType : Type}.

(** The template parameter [UINT64 ResourceSizeMultiple]. *)
Variable ResourceSizeMultiple : Z.

Record CMultiLevelPool : Type := mkMultiLevelPool {
  m_MultiPool : list (@FencePool.TPool TResourceType);  (* std::vector<TPool> *)
  m_TrimThreshold : Z                                   (* UINT64 *)
}.

(** [CMultiLevelPool(UINT64 TrimThreshold, bool bLock)] *)
Definition construct (TrimThreshold : Z) : CMultiLevelPool :=
  mkMultiLevelPool [] TrimThreshold.

(** [UINT IndexFromSize(UINT64 Size) noexcept
      { return (Size == 0) ? 0 : (UINT)((Size - 1) / ResourceSizeMultiple); }] *)
Definition IndexFromSize (Size : Z) : Z :=
  if Size =? 0 then 0 else wrap32 (wrap64 (Size - 1) / ResourceSizeMultiple).

(** [UINT AlignedSize = (PoolIndex + 1) * ResourceSizeMultiple;]: the sum
    is a [UINT], the product a [UINT64], the variable a [UINT]. *)
Definition AlignedSize (PoolIndex : Z) : Z :=
  wrap32 (wrap64 (wrap32 (PoolIndex + 1) * ResourceSizeMultiple)).

(** [m_MultiPool.resize(n)]: new buckets are empty pools. *)
Definition resize (n : nat) (pools : list (@FencePool.TPool TResourceType))
  : list (@FencePool.TPool TResourceType) :=
  take n pools ++ replicate (n - length pools) [].

(** The pool of bucket [index]; a bucket the vector does not reach holds
    nothing. *)
Definition bucket (this : CMultiLevelPool) (index : nat)
  : @FencePool.TPool TResourceType :=
  default [] (m_MultiPool this !! index).

(** [void ReturnToPool(UINT64 Size, TResourceType&& Resource,
      UINT64 FenceValue) noexcept].  [resize_ok] says whether
    [m_MultiPool.resize] gets its memory; when it does not, [bad_alloc]
    leaves the body of a [noexcept] function (the program is terminated).
    [node_ok] is passed to the bucket's [ReturnToPool].  [PoolIndex + 1] is
    computed as a [UINT].  Indexing the vector out of range is undefined. *)
Definition ReturnToPool (resize_ok node_ok : bool) (this : CMultiLevelPool)
    (Size : Z) (Resource : TResourceType) (FenceValue : Z)
  : Outcome (CMultiLevelPool * option TResourceType) :=
  let PoolIndex := IndexFromSize Size in
  let grow := PoolIndex >=? Z.of_nat (length (m_MultiPool this)) in
  if grow && negb resize_ok then Thrown bad_alloc
  else
    let pools :=
      if grow
      then resize (Z.to_nat (wrap32 (PoolIndex + 1))) (m_MultiPool this)
      else m_MultiPool this in
    match pools !! Z.to_nat PoolIndex with
    | None => Undefined
    | Some pool =>
        match FencePool.ReturnToPool node_ok pool Resource FenceValue with
        | Returned r =>
            Returned
              (mkMultiLevelPool
                 (<[Z.to_nat PoolIndex := FencePool.after_return r]> pools)
                 (m_TrimThreshold this),
               FencePool.dropped r)
        | Thrown e => Thrown e
        | Undefined => Undefined
        end
    end.

(** The result of a retrieval from the multi-level pool. *)
Record Retrieved : Type := mkRetrieved {
  ret : Outcome TResourceType;
  after_retrieve : CMultiLevelPool;
  calls : list (FencePool.Call Z)
}.

(** [TResourceType RetrieveFromPool(UINT64 Size, UINT64 CurrentFenceValue,
      PFNCreateNew pfnCreateNew)]: [pfnCreateNew] receives the aligned
    size. *)
Definition RetrieveFromPool (this : CMultiLevelPool) (Size CurrentFenceValue : Z)
    (pfnCreateNew : Z -> Outcome TResourceType) : Retrieved :=
  let PoolIndex := IndexFromSize Size in
  let Aligned := AlignedSize PoolIndex in
  match m_MultiPool this !! Z.to_nat PoolIndex with
  | None =>
      (* PoolIndex >= m_MultiPool.size() *)
      mkRetrieved (pfnCreateNew Aligned) this [FencePool.CallCreateNew Aligned]
  | Some pool =>
      let r := FencePool.RetrieveFromPool pool CurrentFenceValue pfnCreateNew
                 Aligned in
      mkRetrieved (FencePool.ret r)
        (mkMultiLevelPool
           (<[Z.to_nat PoolIndex := FencePool.after_retrieve r]> (m_MultiPool this))
           (m_TrimThreshold this))
        (FencePool.calls r)
  end.

(** [void Trim(UINT64 CurrentFenceValue)]: one [Trim] per bucket. *)
Definition Trim (this : CMultiLevelPool) (CurrentFenceValue : Z) : CMultiLevelPool :=
  mkMultiLevelPool
    (map (fun pool => FencePool.Trim pool (m_TrimThreshold this) CurrentFenceValue)
       (m_MultiPool this))
    (m_TrimThreshold this).

End Pool.

Arguments CMultiLevelPool : clear implicits.
Arguments Retrieved : clear implicits.

(** [typedef CMultiLevelPool<unique_comptr<ID3D12Resource>, 64*1024>
      TDynamicBufferPool;] *)
Definition TDynamicBufferPool_multiple : Z := 64 * 1024.

End MultiLevelPool.

(* --------------------------------------------------------------------- *)
(** ** Descriptor accounting                                              *)
(* --------------------------------------------------------------------- *)

Module DescriptorHeapAccounting.

Import DescriptorHeapManager.

(** The bytes of descriptor handles a free range covers. *)
Definition range_size (Range : SFreeRange) : Z := End_ Range - Start Range.

Definition free_list_size (ranges : list SFreeRange) : Z :=
  fold_right (fun Range total => range_size Range + total) 0 ranges.

(** The bytes covered by the free lists of all pages. *)
Definition heaps_free_size (heaps : list SHeapEntry) : Z :=
  fold_right (fun HeapEntry total => free_list_size (m_FreeList HeapEntry) + total)
    0 heaps.

Definition free_size (this : CDescriptorHeapManager) : Z :=
  heaps_free_size (m_Heaps this).

(** The bytes of all pages: each page holds [NumDescriptors] descriptors. *)
Definition capacity (this : CDescriptorHeapManager) : Z :=
  Z.of_nat (length (m_Heaps this)) * (NumDescriptors this * m_DescriptorSize this).

(** A page of two 32-byte descriptors at 1000, both allocated. *)
Definition full_page_ops : list Op :=
  [OpAllocate (Returned 1000); OpAllocate (Returned 1000)].

End DescriptorHeapAccounting.

(* --------------------------------------------------------------------- *)
(** ** Trimming the suballocation queue                                   *)
(* --------------------------------------------------------------------- *)

Module DeferredDeletionTeardown.

Import DeferredDeletion.

Section Teardown.

Context {ExternalFence HeapSuballocationBlock ConditionalHeapAllocator : Type}.

(** Modelled from the spec: [ImmediateContext] is declared only.  The
    readiness predicate of the deletion queue reads from it "the completed
    fence" of each command list type, and for a deferred wait "that external
    fence's completed value". *)
Record ImmediateContext : Type := mkContext {
  completed : nat -> Z;
  external_completed : ExternalFence -> Z
}.

(** Modelled from the spec: [DeferredWait] is declared only; "each is a
    fence+value pair". *)
Record DeferredWait : Type := mkWait {
  fence : ExternalFence;
  threshold : Z
}.

(** Modelled from the spec: the static [DeferredWaitsSatisfied], declared in
    the header and defined outside these files.  "All DeferredWait
    predicates must be satisfied (... satisfied means that external fence's
    completed value >= its threshold)". *)
Definition DeferredWaitsSatisfied (pContext : ImmediateContext)
    (deferredWaits : list DeferredWait) : bool :=
  forallb (fun wait => threshold wait <=? external_completed pContext (fence wait))
    deferredWaits.

(** Modelled from the spec: the check for one command list type [t] with
    recorded value [L].  "For each command-list type t with L[t] > 0: the
    completed fence of t must be >= L[t].  If completionRequired is false
    and the device is being torn down, the check for t is waived." *)
Definition fence_reached (pContext : ImmediateContext) (waived : bool)
    (t : nat) (L : Z) : bool :=
  if L >? 0 then (L <=? completed pContext t) || waived else true.

(** Modelled from the spec: the same check for the types [t], [t + 1], ...
    of the recorded values. *)
Fixpoint fences_reached (pContext : ImmediateContext) (waived : bool)
    (t : nat) (lastCommandListIDs : list Z) : bool :=
  match lastCommandListIDs with
  | [] => true
  | L :: rest =>
      fence_reached pContext waived t L
      && fences_reached pContext waived (S t) rest
  end.

(** Modelled from the spec: the "ready-to-destroy predicate" that trimming
    applies (in the code, the static [RetiredObject::ReadyToDestroy] and the
    [deviceBeingDestroyed] argument of [TrimDeletedObjects], both defined
    outside these files). *)
Definition ready_to_destroy (pContext : ImmediateContext)
    (deviceBeingDestroyed : bool) (o : RetiredObject DeferredWait) : bool :=
  fences_reached pContext
    (negb (m_completionRequired o) && deviceBeingDestroyed) 0
    (m_lastCommandListIDs o)
  && DeferredWaitsSatisfied pContext (m_deferredWaits o).

(** Modelled from the spec: the same predicate in the form of the static
    [RetiredObject::ReadyToDestroy(pContext, completionRequired,
    lastCommandListIDs, deferredWaits)] that [AddSuballocationToQueue]
    consults, the device being destroyed or not. *)
Definition ReadyToDestroy_static (deviceBeingDestroyed : bool)
    (pContext : ImmediateContext) (completionRequired : bool)
    (lastCommandListIDs : list Z) (deferredWaits : list DeferredWait) : bool :=
  ready_to_destroy pContext deviceBeingDestroyed
    (mkRetiredObject lastCommandListIDs completionRequired deferredWaits).

(** Modelled from the spec: [bool SuballocationsReadyToBeDestroyed(bool
    deviceBeingDestroyed)], declared in the header: the queue has a head and
    the head is ready to destroy. *)
Definition SuballocationsReadyToBeDestroyed
    (this : DeferredDeletionQueueManager ImmediateContext DeferredWait
              HeapSuballocationBlock ConditionalHeapAllocator)
    (deviceBeingDestroyed : bool) : bool :=
  match m_DeferredSuballocationDeletionQueue this with
  | [] => false
  | head :: _ => ready_to_destroy (m_pParent this) deviceBeingDestroyed (retired head)
  end.

(** Modelled from the spec: the loop of [TrimDeletedObjects] over the
    suballocation queue.  "Repeatedly inspect the head of each queue; while
    the head is ready-to-destroy, pop and destroy it".  The result is the
    blocks popped, in order, and the queue that is left. *)
Fixpoint trim_queue (pContext : ImmediateContext) (deviceBeingDestroyed : bool)
    (queue : list (RetiredSuballocationBlock DeferredWait HeapSuballocationBlock
                     ConditionalHeapAllocator))
  : list (RetiredSuballocationBlock DeferredWait HeapSuballocationBlock
            ConditionalHeapAllocator)
    * list (RetiredSuballocationBlock DeferredWait HeapSuballocationBlock
              ConditionalHeapAllocator) :=
  match queue with
  | [] => ([], [])
  | head :: rest =>
      if ready_to_destroy pContext deviceBeingDestroyed (retired head) then
        let popped := trim_queue pContext deviceBeingDestroyed rest in
        (head :: fst popped, snd popped)
      else ([], queue)
  end.

(** Modelled from the spec: [bool TrimDeletedObjects(bool
    deviceBeingDestroyed = false)], declared in the header, for the
    suballocation queue: every popped block is destroyed, which returns its
    suballocation to the parent allocator. *)
Definition TrimDeletedObjects
    (this : DeferredDeletionQueueManager ImmediateContext DeferredWait
              HeapSuballocationBlock ConditionalHeapAllocator)
    (deviceBeingDestroyed : bool)
  : DeferredDeletionQueueManager ImmediateContext DeferredWait
      HeapSuballocationBlock ConditionalHeapAllocator
    * list (AllocatorCall HeapSuballocationBlock ConditionalHeapAllocator) :=
  let popped :=
    trim_queue (m_pParent this) deviceBeingDestroyed
      (m_DeferredSuballocationDeletionQueue this) in
  (mkManager (m_pParent this) (snd popped), flat_map Destroy (fst popped)).

(** Every recorded fence value above 0 has been reached. *)
Definition fences_completed (pContext : ImmediateContext)
    (o : RetiredObject DeferredWait) : Prop :=
  forall (t : nat) (L : Z),
    m_lastCommandListIDs o !! t = Some L -> 0 < L -> L <= completed pContext t.

End Teardown.

Arguments ImmediateContext : clear implicits.
Arguments DeferredWait : clear implicits.

End DeferredDeletionTeardown.

(* --------------------------------------------------------------------- *)
(** ** ImmediateContext: small members                                    *)
(* --------------------------------------------------------------------- *)

Module CommandListTypeMask.

Section Mask.

(** [COMMAND_LIST_TYPE_UNKNOWN_MASK] is a constant the header uses and
    does not define. *)
Variable COMMAND_LIST_TYPE_UNKNOWN_MASK : Z.

(** [static inline bool IsSingleCommandListType(UINT commandListTypeMask)
    { commandListTypeMask &= ~COMMAND_LIST_TYPE_UNKNOWN_MASK;
      return commandListTypeMask & (commandListTypeMask - 1) ? false : true; }] *)
Definition IsSingleCommandListType (commandListTypeMask : Z) : bool :=
  let commandListTypeMask :=
    Z.land commandListTypeMask (wrap32 (Z.lnot COMMAND_LIST_TYPE_UNKNOWN_MASK)) in
  if Z.land commandListTypeMask (wrap32 (commandListTypeMask - 1)) =? 0
  then true else false.

(** The mask with the UNKNOWN bits cleared. *)
Definition known_types (commandListTypeMask : Z) : Z :=
  Z.land commandListTypeMask (wrap32 (Z.lnot COMMAND_LIST_TYPE_UNKNOWN_MASK)).

End Mask.

End CommandListTypeMask.

Module AllocationFallback.

(** What [allocateFunc] can raise: a [_com_error] carrying an [HRESULT],
    or anything else. *)
Inductive Raised : Type :=
| com_error_of (hr : Z)
| other_exception.

Inductive Attempt (A : Type) : Type :=
| Value (a : A)
| Raises (e : Raised).

Arguments Value {A} a.
Arguments Raises {A} e.

(** What the function did, in program order. *)
Inductive Event : Type :=
| CalledAllocate
| CalledFallback (freed : bool).

Section Fallback.

(** The context the two callbacks act on, and the result type of
    [allocateFunc]. *)
Context {State A : Type}.

(** [E_OUTOFMEMORY], an [HRESULT] of the platform headers. *)
Variable E_OUTOFMEMORY : Z.

(** [bool ResourceAllocationFallback(ResourceAllocationContext)], declared
    in the header and defined elsewhere. *)
Variable ResourceAllocationFallback : State -> bool * State.

(** [auto TryAllocateResourceWithFallback(TFunc&& allocateFunc,
      ResourceAllocationContext threadingContext)]: [while (true)] with a
    [try] around [return allocateFunc();].  [fuel] bounds the number of
    iterations; [None] means the bound was reached.  In
    [hrEx.Error() != E_OUTOFMEMORY || !ResourceAllocationFallback(...)] the
    fallback is only called for [E_OUTOFMEMORY]. *)
Fixpoint TryAllocateResourceWithFallback (fuel : nat)
    (allocateFunc : State -> Attempt A * State) (s : State)
  : option (Attempt A * State * list Event) :=
  match fuel with
  | O => None
  | S fuel' =>
      match allocateFunc s with
      | (Value a, s1) => Some (Value a, s1, [CalledAllocate])
      | (Raises other_exception, s1) =>
          Some (Raises other_exception, s1, [CalledAllocate])
      | (Raises (com_error_of hr), s1) =>
          if negb (hr =? E_OUTOFMEMORY)
          then Some (Raises (com_error_of hr), s1, [CalledAllocate])
          else
            let (freed, s2) := ResourceAllocationFallback s1 in
            if negb freed
            then Some (Raises (com_error_of hr), s2,
                       [CalledAllocate; CalledFallback false])
            else
              match TryAllocateResourceWithFallback fuel' allocateFunc s2 with
              | None => None
              | Some (r, s3, events) =>
                  Some (r, s3, CalledAllocate :: CalledFallback true :: events)
              end
      end
  end.

(** [count] rounds of a failed allocation followed by a fallback that
    frees something. *)
Fixpoint retries (count : nat) : list Event :=
  match count with
  | O => []
  | S count' => CalledAllocate :: CalledFallback true :: retries count'
  end.

(** What a finished call looks like: some rounds of a failed allocation
    and a fallback that freed something, then one last [allocateFunc]; the
    result is the out-of-memory error only if the fallback was asked once
    more and freed nothing. *)
Definition finished (count : nat) (r : Attempt A) (events : list Event) : Prop :=
  (events = retries count ++ [CalledAllocate] /\
   r <> Raises (com_error_of E_OUTOFMEMORY))
  \/
  (events = retries count ++ [CalledAllocate; CalledFallback false] /\
   r = Raises (com_error_of E_OUTOFMEMORY)).

End Fallback.

End AllocationFallback.

Module OnlineDescriptorHeap.

(** The members of [struct OnlineDescriptorHeap] that [CPUHandle] and
    [GPUHandle] read. *)
Record OnlineDescriptorHeap : Type := mkOnlineHeap {
  m_DescriptorHeapBase : Z;       (* D3D12_GPU_DESCRIPTOR_HANDLE::ptr, UINT64 *)
  m_DescriptorHeapBaseCPU : Z;    (* D3D12_CPU_DESCRIPTOR_HANDLE::ptr, SIZE_T *)
  NumDescriptors : Z;             (* m_Desc.NumDescriptors, UINT *)
  m_DescriptorSize : Z            (* UINT *)
}.

(** [return { m_DescriptorHeapBaseCPU + slot * m_DescriptorSize };]: the
    product of two [UINT]s is a [UINT]. *)
Definition CPUHandle (this : OnlineDescriptorHeap) (slot : Z) : Z :=
  wrap64 (m_DescriptorHeapBaseCPU this + wrap32 (slot * m_DescriptorSize this)).

(** [return { m_DescriptorHeapBase + slot * m_DescriptorSize };] *)
Definition GPUHandle (this : OnlineDescriptorHeap) (slot : Z) : Z :=
  wrap64 (m_DescriptorHeapBase this + wrap32 (slot * m_DescriptorSize this)).

End OnlineDescriptorHeap.

Module ScratchSpace.

(** [m_SyncronousOpScrachSpace]: the array [m_spScratchBuffer] owns,
    given by its length ([None] is the null pointer), and [UINT m_Size]. *)
Record ScratchSpace : Type := mkScratch {
  m_spScratchBuffer : option Z;
  m_Size : Z
}.

(** The default member initialisers. *)
Definition construct : ScratchSpace := mkScratch None 0.

(** [BYTE* GetBuffer(UINT minSize)]: [array_ok] says whether
    [std::make_unique<BYTE[]>(minSize)] gets its memory.  The result is
    [m_spScratchBuffer.get()]. *)
Definition GetBuffer (array_ok : bool) (this : ScratchSpace) (minSize : Z)
  : Outcome (option Z) * ScratchSpace :=
  if minSize >? m_Size this then
    if array_ok
    then (Returned (Some minSize), mkScratch (Some minSize) minSize)
    else (Thrown bad_alloc, this)
  else (Returned (m_spScratchBuffer this), this).

(** A sequence of calls, each with the fate of its allocation. *)
Definition run (this : ScratchSpace) (calls : list (bool * Z)) : ScratchSpace :=
  fold_left (fun scratch call => snd (GetBuffer (fst call) scratch (snd call)))
    calls this.

(** The bytes a returned pointer gives access to. *)
Definition capacity_of (buffer : option Z) : Z := default 0 buffer.

End ScratchSpace.

(* ===================================================================== *)
(** * Part II: properties                                                 *)
(* ===================================================================== *)

(* --------------------------------------------------------------------- *)
(** ** Machine integers and mask bits                                     *)
(* --------------------------------------------------------------------- *)

Module MachineFacts.

Lemma wrap32_small z : 0 <= z < 2 ^ 32 -> wrap32 z = z.
Proof. intros H. unfold wrap32. now apply Z.mod_small. Qed.

Lemma wrap64_small z : 0 <= z < 2 ^ 64 -> wrap64 z = z.
Proof. intros H. unfold wrap64. now apply Z.mod_small. Qed.

Lemma wrap32_range z : 0 <= wrap32 z < 2 ^ 32.
Proof. unfold wrap32. apply Z.mod_pos_bound. lia. Qed.

Lemma wrap64_range z : 0 <= wrap64 z < 2 ^ 64.
Proof. unfold wrap64. apply Z.mod_pos_bound. lia. Qed.

(** [1 << i] for a bit of the 16-bit ledger mask. *)
Lemma shiftl_one i : 0 <= i -> Z.shiftl 1 i = 2 ^ i.
Proof. intros H. rewrite Z.shiftl_mul_pow2 by lia. lia. Qed.

Lemma pow2_bit_range i : 0 <= i < 16 -> 0 <= 2 ^ i < 2 ^ 32.
Proof.
  intros H. split; [apply Z.pow_nonneg; lia |].
  apply Z.pow_lt_mono_r; lia.
Qed.

(** [mask & (1 << i)] is zero exactly when bit [i] of the mask is clear. *)
Lemma land_bit_is_zero mask i :
  0 <= i -> (Z.land mask (2 ^ i) =? 0) = negb (Z.testbit mask i).
Proof.
  intros Hi. destruct (Z.testbit mask i) eqn:Hbit; simpl.
  - apply Z.eqb_neq. intros Hz.
    assert (Hb : Z.testbit (Z.land mask (2 ^ i)) i = false)
      by (rewrite Hz; apply Z.bits_0).
    rewrite Z.land_spec, Hbit, Z.pow2_bits_true in Hb by lia. discriminate.
  - apply Z.eqb_eq. apply Z.bits_inj'. intros j Hj.
    rewrite Z.land_spec, Z.bits_0, Z.pow2_bits_eqb by lia.
    destruct (Z.eqb_spec i j) as [-> | Hne].
    + now rewrite Hbit.
    + apply andb_false_r.
Qed.

(** [mask |= (1 << i)] sets bit [i] and keeps the others. *)
Lemma testbit_set_bit mask i j :
  0 <= i < 16 -> 0 <= j < 16 ->
  Z.testbit (wrap32 (Z.lor mask (2 ^ i))) j = Z.testbit mask j || (i =? j).
Proof.
  intros Hi Hj. unfold wrap32.
  rewrite Z.mod_pow2_bits_low by lia.
  now rewrite Z.lor_spec, Z.pow2_bits_eqb by lia.
Qed.

(** [mask &= ~bit] clears bit [i] and keeps the others. *)
Lemma testbit_clear_bit mask i j :
  0 <= i < 16 -> 0 <= j < 16 ->
  Z.testbit (Z.land mask (wrap32 (Z.lnot (2 ^ i)))) j
  = Z.testbit mask j && negb (i =? j).
Proof.
  intros Hi Hj. unfold wrap32.
  rewrite Z.land_spec, Z.mod_pow2_bits_low by lia.
  now rewrite Z.lnot_spec, Z.pow2_bits_eqb by lia.
Qed.

End MachineFacts.

(* --------------------------------------------------------------------- *)
(** ** Fence pools                                                        *)
(* --------------------------------------------------------------------- *)

Module FencePoolFacts.

Import FencePool.

Section Facts.

Context {TResourceType CreationArgType : Type}.

Implicit Types (m_Pool rest : @TPool TResourceType) (Head : @TPoolEntry TResourceType).
Implicit Types (create : CreationArgType -> Outcome TResourceType).

Lemma retrieve_empty create args completed :
  RetrieveFromPool [] completed create args = create_new [] create args.
Proof. reflexivity. Qed.

Lemma retrieve_in_flight Head rest create args completed :
  completed < fst Head ->
  RetrieveFromPool (Head :: rest) completed create args
  = create_new (Head :: rest) create args.
Proof.
  intros Hlt. unfold RetrieveFromPool.
  destruct (Z.ltb_spec completed (fst Head)); [reflexivity | lia].
Qed.

Lemma retrieve_completed Head rest create args completed :
  fst Head <= completed ->
  RetrieveFromPool (Head :: rest) completed create args = take_head Head rest [].
Proof.
  intros Hle. unfold RetrieveFromPool.
  destruct (Z.ltb_spec completed (fst Head)); [lia | reflexivity].
Qed.

(** C4. [CFencePool::RetrieveFromPool]: on an empty pool, or when the head's
    fence value is strictly greater than the completed value, the call
    returns what [createNew(args...)] returns and leaves the pool unchanged;
    otherwise it removes the head entry and returns its resource without
    calling [createNew].  Consequently, after [return(R1, 10); return(R2, 20)]
    on an empty pool, retrieving at 15 gives [R1], retrieving at 15 again
    invokes [createNew], and retrieving at 25 gives [R2]. *)
Theorem CFencePool_RetrieveFromPool_spec :
  (forall m_Pool completed create args,
      (m_Pool = [] \/
       exists Head rest, m_Pool = Head :: rest /\ completed < fst Head) ->
      RetrieveFromPool m_Pool completed create args
      = mkRetrieved (create args) m_Pool [CallCreateNew args])
  /\
  (forall Head rest completed create args,
      fst Head <= completed ->
      RetrieveFromPool (Head :: rest) completed create args
      = mkRetrieved (Returned (snd Head)) rest [])
  /\
  (forall (R1 R2 : TResourceType) create args,
      exists p1 p2,
        ReturnToPool true [] R1 10 = Returned (mkReturned p1 None) /\
        ReturnToPool true p1 R2 20 = Returned (mkReturned p2 None) /\
        let r1 := RetrieveFromPool p2 15 create args in
        let r2 := RetrieveFromPool (after_retrieve r1) 15 create args in
        let r3 := RetrieveFromPool (after_retrieve r2) 25 create args in
        ret r1 = Returned R1 /\ calls r1 = [] /\
        ret r2 = create args /\ calls r2 = [CallCreateNew args] /\
        after_retrieve r2 = after_retrieve r1 /\
        ret r3 = Returned R2 /\ calls r3 = [] /\ after_retrieve r3 = []).
Proof.
  split; [| split].
  - intros m_Pool completed create args [-> | (Head & rest & -> & Hlt)].
    + apply retrieve_empty.
    + now rewrite retrieve_in_flight.
  - intros. now rewrite retrieve_completed.
  - intros R1 R2 create args.
    exists [(10, R1)], [(10, R1); (20, R2)].
    repeat split; reflexivity.
Qed.


(** C8. [CFencePool::ReturnToPool] never fails observably: in every pool
    state the call returns normally, and it has either appended
    [(fenceValue, resource)] at the tail of the pool, or, when the node
    allocation throws [bad_alloc], left the pool unchanged with the resource
    dropped (left to its owner's destructor). *)
Theorem CFencePool_ReturnToPool_never_fails :
  forall (node_ok : bool) m_Pool (Resource : TResourceType) (FenceValue : Z),
  exists r,
    ReturnToPool node_ok m_Pool Resource FenceValue = Returned r /\
    ((emplace_back node_ok m_Pool (FenceValue, Resource)
      = Returned (m_Pool ++ [(FenceValue, Resource)]) /\
      after_return r = m_Pool ++ [(FenceValue, Resource)] /\
      dropped r = None)
     \/
     (emplace_back node_ok m_Pool (FenceValue, Resource) = Thrown bad_alloc /\
      after_return r = m_Pool /\
      dropped r = Some Resource)).
Proof.
  intros [|] m_Pool Resource FenceValue; eexists; (split; [reflexivity |]).
  - left. repeat split.
  - right. repeat split.
Qed.

End Facts.

Lemma CFencePool_RetrieveFromPool_witness :
  RetrieveFromPool [(10, 1%nat); (20, 2%nat)] 15 (fun _ : unit => Returned 0%nat) tt
  = mkRetrieved (Returned 1%nat) [(20, 2%nat)] []
  /\
  RetrieveFromPool [(20, 2%nat)] 15 (fun _ : unit => Returned 0%nat) tt
  = mkRetrieved (Returned 0%nat) [(20, 2%nat)] [CallCreateNew tt].
Proof.
  split.
  - apply (proj1 (proj2 (@CFencePool_RetrieveFromPool_spec nat unit)) (10, 1%nat)).
    simpl. lia.
  - apply (proj1 (@CFencePool_RetrieveFromPool_spec nat unit)).
    right. exists (20, 2%nat), []. split; [reflexivity | simpl; lia].
Defined.

End FencePoolFacts.

Module BoundedFencePoolFacts.

Import FencePool BoundedFencePool.

Section Facts.

Context {TResourceType CreationArgType : Type}.

Implicit Types (this : CBoundedFencePool TResourceType).
Implicit Types (create : CreationArgType -> Outcome TResourceType).
Implicit Types (wait : Z -> Outcome unit).

(** C3. [CBoundedFencePool::RetrieveFromPool(completed, wait, create)]:
    - empty pool: the result of [create], pool unchanged;
    - head in flight and fewer entries than [maxInFlightDepth]: the result
      of [create], pool unchanged;
    - head in flight and at least [maxInFlightDepth] entries: [wait] is
      called exactly once, with the head's fence value, [create] is not
      called, and when the wait returns the head is removed and returned
      (when the wait throws, the exception leaves the pool as it was);
    - head completed: the head is removed and returned, no callback runs. *)
Theorem CBoundedFencePool_RetrieveFromPool_spec :
  forall this completed wait create args,
  let r := RetrieveFromPool this completed wait create args in
  (m_Pool this = [] ->
     ret r = create args /\ calls r = [CallCreateNew args] /\
     after_retrieve r = m_Pool this)
  /\
  (forall Head rest,
     m_Pool this = Head :: rest -> completed < fst Head ->
     Z.of_nat (length (m_Pool this)) < m_MaxInFlightDepth this ->
     ret r = create args /\ calls r = [CallCreateNew args] /\
     after_retrieve r = m_Pool this)
  /\
  (forall Head rest,
     m_Pool this = Head :: rest -> completed < fst Head ->
     m_MaxInFlightDepth this <= Z.of_nat (length (m_Pool this)) ->
     calls r = [CallWaitForFenceValue (fst Head)] /\
     (forall u, wait (fst Head) = Returned u ->
        ret r = Returned (snd Head) /\ after_retrieve r = rest) /\
     (forall e, wait (fst Head) = Thrown e ->
        ret r = Thrown e /\ after_retrieve r = m_Pool this))
  /\
  (forall Head rest,
     m_Pool this = Head :: rest -> fst Head <= completed ->
     ret r = Returned (snd Head) /\ calls r = [] /\ after_retrieve r = rest).
Proof.
  intros this completed wait create args r. subst r.
  unfold RetrieveFromPool.
  destruct (m_Pool this) as [|H0 rest0] eqn:Hpool.
  - repeat split; intros; try discriminate; reflexivity.
  - split; [discriminate |].
    split; [| split]; intros Head rest [= <- <-].
    + intros Hlt Hdepth.
      destruct (Z.ltb_spec completed (fst H0)); [| lia].
      destruct (Z.ltb_spec (Z.of_nat (length (H0 :: rest0)))
                  (m_MaxInFlightDepth this)); [| lia].
      repeat split.
    + intros Hlt Hdepth.
      destruct (Z.ltb_spec completed (fst H0)); [| lia].
      destruct (Z.ltb_spec (Z.of_nat (length (H0 :: rest0)))
                  (m_MaxInFlightDepth this)); [lia |].
      destruct (wait (fst H0)) as [u | e |] eqn:Hwait; simpl;
        repeat split; intros; try discriminate; try reflexivity;
        congruence.
    + intros Hle.
      destruct (Z.ltb_spec completed (fst H0)); [lia |].
      repeat split.
Qed.


End Facts.

(** Scenario "bounded-pool blocking": depth 1, [return(R, 50)], completed 40. *)
Lemma CBoundedFencePool_RetrieveFromPool_witness :
  let this := mkBounded [(50, 7%nat)] 1 in
  let r := RetrieveFromPool this 40 (fun _ => Returned tt)
             (fun _ : unit => Returned 0%nat) tt in
  calls r = [CallWaitForFenceValue 50] /\
  ret r = Returned 7%nat /\ after_retrieve r = [].
Proof.
  intros this r.
  destruct (CBoundedFencePool_RetrieveFromPool_spec this 40
              (fun _ => Returned tt) (fun _ : unit => Returned 0%nat) tt)
    as (_ & _ & Hwait & _).
  destruct (Hwait (50, 7%nat) []) as (Hcalls & Hret & _).
  - reflexivity.
  - simpl. lia.
  - simpl. lia.
  - split; [exact Hcalls |]. exact (Hret tt eq_refl).
Defined.

End BoundedFencePoolFacts.

(* --------------------------------------------------------------------- *)
(** ** Fenced ring buffer                                                 *)
(* --------------------------------------------------------------------- *)

Module FencedRingBufferFacts.

Import FencedRingBuffer MachineFacts.

(** *** The ledger array *)

Implicit Types (ledger : list LedgerEntry) (this : CFencedRingBuffer).

Lemma ledger_at_set_eq ledger i e :
  0 <= i -> (Z.to_nat i < length ledger)%nat ->
  ledger_at (ledger_set ledger i e) i = e.
Proof.
  intros Hi Hlen. unfold ledger_at, ledger_set.
  now rewrite list_lookup_insert_eq.
Qed.

Lemma ledger_at_set_ne ledger i j e :
  0 <= i -> 0 <= j -> i <> j ->
  ledger_at (ledger_set ledger i e) j = ledger_at ledger j.
Proof.
  intros Hi Hj Hne. unfold ledger_at, ledger_set.
  rewrite list_lookup_insert_ne; [reflexivity | lia].
Qed.

Lemma ledger_set_set ledger i e e' :
  ledger_set (ledger_set ledger i e) i e' = ledger_set ledger i e'.
Proof. unfold ledger_set. apply list_insert_insert_eq. Qed.

Lemma ledger_set_length ledger i e :
  length (ledger_set ledger i e) = length ledger.
Proof. unfold ledger_set. apply length_insert. Qed.

Lemma in_ledger_nat i ledger :
  in_ledger i -> length ledger = Z.to_nat cLedgerSize ->
  (Z.to_nat i < length ledger)%nat.
Proof. unfold in_ledger, cLedgerSize. intros Hi ->. lia. Qed.

Lemma in_ledger_indices i : In i ledger_indices <-> in_ledger i.
Proof.
  unfold in_ledger, cLedgerSize.
  change ledger_indices with [0;1;2;3;4;5;6;7;8;9;10;11;12;13;14;15].
  simpl. lia.
Qed.

Lemma ledger_indices_distinct : List.NoDup ledger_indices.
Proof.
  change ledger_indices with [0;1;2;3;4;5;6;7;8;9;10;11;12;13;14;15].
  repeat (apply List.NoDup_cons; [simpl; lia |]). apply List.NoDup_nil.
Qed.

Lemma next_in_ledger i : 0 <= i -> in_ledger (wrap32 (i + 1) mod cLedgerSize).
Proof. intros _. unfold in_ledger, cLedgerSize. apply Z.mod_pos_bound. lia. Qed.

Lemma next_index i :
  in_ledger i -> wrap32 (i + 1) mod cLedgerSize = (i + 1) mod cLedgerSize.
Proof.
  unfold in_ledger, cLedgerSize. intros Hi.
  rewrite wrap32_small; [reflexivity | lia].
Qed.

(** *** Sums over the ledger *)

Lemma sum_over_ext f g l :
  (forall j, In j l -> g j = f j) -> sum_over g l = sum_over f l.
Proof.
  induction l as [| a l IH]; intros Hfg; simpl; [reflexivity |].
  rewrite Hfg by (now left). rewrite IH; [reflexivity |].
  intros j Hj. apply Hfg. now right.
Qed.

Lemma sum_over_update f g l i :
  List.NoDup l -> In i l ->
  (forall j, In j l -> j <> i -> g j = f j) ->
  sum_over g l = sum_over f l - f i + g i.
Proof.
  induction l as [| a l IH]; intros Hnd Hin Hfg; [contradiction |].
  inversion Hnd as [| ? ? Hnotin Hnd']; subst. simpl.
  destruct Hin as [-> | Hin].
  - rewrite (sum_over_ext f g l); [lia |].
    intros j Hj. apply Hfg; [now right |]. intros ->. contradiction.
  - rewrite IH by (auto; intros; apply Hfg; auto; now right).
    rewrite (Hfg a); [lia | now left |]. intros ->. contradiction.
Qed.

Lemma sum_over_member_le f l i :
  (forall j, In j l -> 0 <= f j) -> In i l -> f i <= sum_over f l.
Proof.
  induction l as [| a l IH]; intros Hpos Hin; [contradiction |]. simpl.
  assert (Hrest : 0 <= sum_over f l).
  { clear IH Hin. induction l as [| b l IHl]; simpl; [lia |].
    assert (0 <= f b) by (apply Hpos; right; now left).
    assert (0 <= sum_over f l); [| lia].
    apply IHl. intros j [-> | Hj]; apply Hpos; [now left | right; now right]. }
  destruct Hin as [-> | Hin].
  - lia.
  - assert (0 <= f a) by (apply Hpos; now left).
    assert (f i <= sum_over f l); [| lia].
    apply IH; [| exact Hin]. intros j Hj. apply Hpos. now right.
Qed.

(** *** [MoveToNextLedgerEntry] *)

Lemma next_slot_in_ledger this : in_ledger (next_slot this).
Proof. unfold in_ledger, next_slot, cLedgerSize. apply Z.mod_pos_bound. lia. Qed.

Lemma available_iff this i :
  0 <= i -> IsLedgerEntryAvailable this i = negb (live this i).
Proof.
  intros Hi. unfold IsLedgerEntryAvailable, live.
  rewrite shiftl_one by lia. now apply land_bit_is_zero.
Qed.

(** The call on a well-formed ring, in one piece. *)
Lemma MoveToNextLedgerEntry_eq this f :
  well_formed this ->
  MoveToNextLedgerEntry this f
  = if live this (next_slot this)
    then (E_FAIL,
          mkRing (m_Head this) (m_Tail this) (m_Size this) (m_Ledger this)
            (m_LedgerMask this) (next_slot this))
    else (S_OK,
          mkRing (m_Head this) (m_Tail this) (m_Size this)
            (ledger_set (m_Ledger this) (next_slot this) (mkEntry f 0))
            (wrap32 (Z.lor (m_LedgerMask this) (2 ^ next_slot this)))
            (next_slot this)).
Proof.
  intros [Hsize Hidx Hlen Htail].
  pose proof (next_slot_in_ledger this) as Hnext.
  unfold MoveToNextLedgerEntry. rewrite next_index by assumption.
  fold (next_slot this).
  rewrite available_iff by (destruct Hnext; assumption).
  unfold live at 1. simpl m_LedgerMask.
  fold (live this (next_slot this)).
  destruct (live this (next_slot this)); simpl; [reflexivity |].
  unfold set_current_entry, GetCurrentLedgeEntry. simpl.
  rewrite ledger_set_set.
  rewrite ledger_at_set_eq
    by (try apply in_ledger_nat; try assumption; destruct Hnext; assumption).
  simpl. rewrite shiftl_one by (destruct Hnext; assumption). reflexivity.
Qed.

(** *** [Allocate] without the recursion *)

Lemma after_move_shares this f :
  well_formed this ->
  let this1 := snd (after_move this f) in
  m_Head this1 = m_Head this /\ m_Tail this1 = m_Tail this /\
  m_Size this1 = m_Size this /\ well_formed this1.
Proof.
  intros Hwf. unfold after_move.
  destruct (f >? _); [| simpl; auto].
  rewrite MoveToNextLedgerEntry_eq by assumption.
  pose proof (next_slot_in_ledger this) as Hnext.
  destruct Hwf as [Hsize Hidx Hlen Htail].
  destruct (live this (next_slot this)); simpl; repeat split;
    simpl; try assumption; try lia;
    try (destruct Hnext; assumption);
    now rewrite ledger_set_length.
Qed.

(** After a successful first step the fence value is not newer than the
    current entry's: the padding call does not move again. *)
Lemma after_move_settled this f :
  well_formed this ->
  FAILED (fst (after_move this f)) = false ->
  (f >? m_FenceValue (GetCurrentLedgeEntry (snd (after_move this f)))) = false.
Proof.
  intros Hwf. unfold after_move.
  destruct (f >? m_FenceValue (GetCurrentLedgeEntry this)) eqn:Hnewer;
    [| intros _; exact Hnewer].
  rewrite MoveToNextLedgerEntry_eq by assumption.
  pose proof (next_slot_in_ledger this) as Hnext.
  destruct (live this (next_slot this)); simpl; [discriminate | intros _].
  unfold GetCurrentLedgeEntry. simpl.
  rewrite ledger_at_set_eq.
  - simpl. lia.
  - destruct Hnext; assumption.
  - apply in_ledger_nat; [assumption | apply Hwf].
Qed.

Lemma after_move_idle this f :
  (f >? m_FenceValue (GetCurrentLedgeEntry this)) = false ->
  after_move this f = (S_OK, this).
Proof. intros H. unfold after_move. now rewrite H. Qed.

Lemma tail_location this :
  well_formed this ->
  DereferenceTail this = m_Tail this mod m_Size this /\
  0 <= m_Tail this mod m_Size this < m_Size this.
Proof.
  intros [Hsize _ _ Htail].
  assert (Hr : 0 <= m_Tail this mod m_Size this < m_Size this)
    by (apply Z.mod_pos_bound; lia).
  split; [| exact Hr]. unfold DereferenceTail. apply wrap32_small. lia.
Qed.

Lemma Allocate_fuel_S fuel this n f off :
  Allocate_fuel (S fuel) this n f off
  = if n =? 0 then Some (mkAllocated S_OK (DereferenceTail this) this)
    else
      let moved := after_move this f in
      if FAILED (fst moved) then Some (mkAllocated E_FAIL off (snd moved))
      else
        let this1 := snd moved in
        let tailLocation := DereferenceTail this1 in
        let padded :=
          if wrap64 (tailLocation + n) >? m_Size this1 then
            match Allocate_fuel fuel this1
                    (wrap32 (wrap64 (m_Size this1 - tailLocation))) f 0 with
            | None => None
            | Some r => Some (hr r, after r)
            end
          else Some (S_OK, this1) in
        match padded with
        | None => None
        | Some (hr_pad, this2) =>
            if FAILED hr_pad then Some (mkAllocated E_FAIL off this2)
            else if wrap64 (m_Tail this2 + n) <=? m_Head this2 then
              Some (mkAllocated S_OK (DereferenceTail this2)
                      (record_allocation this2 n))
            else Some (mkAllocated E_FAIL (wrap32 (-1)) this2)
        end.
Proof. reflexivity. Qed.

(** A request that does not straddle the end of the buffer, on an entry
    that needs no move: one [place], whatever the fuel. *)
Lemma Allocate_fits fuel this n f off :
  well_formed this ->
  (f >? m_FenceValue (GetCurrentLedgeEntry this)) = false ->
  0 < n ->
  m_Tail this mod m_Size this + n <= m_Size this ->
  m_Tail this + n < 2 ^ 64 ->
  Allocate_fuel (S fuel) this n f off = Some (place this n).
Proof.
  intros Hwf Hidle Hn Hfit Hfar.
  destruct (tail_location this Hwf) as [Hderef Hloc].
  pose proof Hwf as [Hsize _ _ Htail].
  rewrite Allocate_fuel_S.
  destruct (Z.eqb_spec n 0); [lia |].
  rewrite after_move_idle by assumption. simpl.
  rewrite Hderef.
  rewrite (wrap64_small (_ + n)) by lia.
  destruct (Z.gtb_spec (m_Tail this mod m_Size this + n) (m_Size this)); [lia |].
  simpl. rewrite Hderef.
  rewrite (wrap64_small (_ + n)) by lia.
  unfold place. now destruct (_ <=? _).
Qed.

Lemma record_allocation_fields this n :
  m_Head (record_allocation this n) = m_Head this /\
  m_Tail (record_allocation this n) = wrap64 (m_Tail this + n) /\
  m_Size (record_allocation this n) = m_Size this /\
  m_LedgerMask (record_allocation this n) = m_LedgerMask this /\
  m_LedgerIndex (record_allocation this n) = m_LedgerIndex this.
Proof. now repeat split. Qed.

(** The code computes [allocate_flat]; two levels of calls are all it needs,
    and more fuel changes nothing. *)
Lemma Allocate_flat fuel this n f off :
  well_formed this -> far_from_wrap this -> 0 < n < 2 ^ 32 ->
  Allocate_fuel (S (S fuel)) this n f off = Some (allocate_flat this n f off).
Proof.
  intros Hwf Hfar Hn. unfold far_from_wrap in Hfar.
  rewrite Allocate_fuel_S. unfold allocate_flat.
  destruct (Z.eqb_spec n 0); [lia |].
  destruct (after_move_shares this f Hwf) as (Hhead & Htl & Hsz & Hwf1).
  pose proof (after_move_settled this f Hwf) as Hsettled.
  set (moved := after_move this f) in *. cbv zeta.
  destruct (FAILED (fst moved)); [reflexivity |].
  specialize (Hsettled eq_refl).
  set (this1 := snd moved) in *.
  destruct (tail_location this1 Hwf1) as [Hderef Hloc].
  pose proof Hwf1 as [Hsize _ _ Htail].
  assert (Hwraps : wraps this n
                   = (m_Tail this1 mod m_Size this1 + n >? m_Size this1))
    by (unfold wraps, tail; now rewrite Htl, Hsz).
  assert (Hpadding : padding this n
                     = if wraps this n
                       then m_Size this1 - m_Tail this1 mod m_Size this1
                       else 0)
    by (unfold padding, tail; now rewrite Htl, Hsz).
  rewrite Hderef, Hpadding, Hwraps.
  rewrite (wrap64_small (_ + n)) by lia.
  destruct (Z.gtb_spec (m_Tail this1 mod m_Size this1 + n) (m_Size this1))
    as [Hwrap | Hfit].
  - rewrite (wrap64_small (m_Size this1 - _)) by lia.
    rewrite (wrap32_small (m_Size this1 - _)) by lia.
    rewrite Allocate_fits; try assumption; try lia.
    set (r := m_Size this1 - m_Tail this1 mod m_Size this1) in *.
    remember (place this1 r) as p eqn:Hp. unfold place in Hp.
    destruct (Z.leb_spec (m_Tail this1 + r) (m_Head this1)) as [Hpad | Hpad];
      subst p; cbn [hr after FAILED]; [| reflexivity].
    destruct (record_allocation_fields this1 r) as (Hh2 & Ht2 & Hs2 & _).
    rewrite (wrap64_small (m_Tail this1 + r)) in Ht2 by lia.
    unfold place. rewrite Ht2, Hh2, Hs2.
    rewrite (wrap64_small (_ + n)) by lia.
    destruct (_ <=? _); [| reflexivity].
    f_equal. f_equal. unfold DereferenceTail. rewrite Ht2, Hs2.
    apply wrap32_small.
    assert (0 <= (m_Tail this1 + r) mod m_Size this1 < m_Size this1)
      by (apply Z.mod_pos_bound; lia).
    lia.
  - cbn [FAILED]. rewrite (wrap64_small (_ + n)) by lia.
    unfold place. rewrite Hderef. now destruct (_ <=? _).
Qed.

Lemma Allocate_zero fuel this f off :
  Allocate_fuel (S fuel) this 0 f off
  = Some (mkAllocated S_OK (DereferenceTail this) this).
Proof. reflexivity. Qed.

Lemma after_move_failed this f :
  well_formed this -> FAILED (fst (after_move this f)) = saturated this f.
Proof.
  intros Hwf. unfold after_move, saturated.
  destruct (f >? _); [| reflexivity].
  rewrite MoveToNextLedgerEntry_eq by assumption.
  rewrite available_iff by apply next_slot_in_ledger.
  now destruct (live this (next_slot this)).
Qed.

Lemma current_entry_recorded this n :
  well_formed this ->
  m_NumAllocations (GetCurrentLedgeEntry (record_allocation this n))
  = wrap32 (m_NumAllocations (GetCurrentLedgeEntry this) + n).
Proof.
  intros [_ Hidx Hlen _]. unfold record_allocation, GetCurrentLedgeEntry. simpl.
  rewrite ledger_at_set_eq; [reflexivity | apply Hidx |].
  now apply in_ledger_nat.
Qed.

Lemma record_allocation_wf this n :
  well_formed this -> 0 <= m_Tail this + n < 2 ^ 64 ->
  well_formed (record_allocation this n).
Proof.
  intros [Hsize Hidx Hlen Htail] Hn. split; simpl; try assumption.
  - now rewrite ledger_set_length.
  - apply wrap64_range.
Qed.

Lemma place_cases this n :
  (m_Tail this + n <= m_Head this /\
   place this n
   = mkAllocated S_OK (m_Tail this mod m_Size this) (record_allocation this n))
  \/
  (m_Head this < m_Tail this + n /\
   place this n = mkAllocated E_FAIL (2 ^ 32 - 1) this).
Proof.
  unfold place. destruct (Z.leb_spec (m_Tail this + n) (m_Head this)); auto.
Qed.

Lemma wrap32_add_l a b : wrap32 (wrap32 a + b) = wrap32 (a + b).
Proof. unfold wrap32. apply Zplus_mod_idemp_l. Qed.

(** C6. When [Allocate] succeeds for at least one item, the offset it
    writes is [tail mod size] of the ring immediately before the tail is
    advanced for this allocation (the start of the new range, whose end is
    the new tail); when the request wraps, that ring is the one after the
    padding, the offset is 0, and the current ledger entry has been charged
    the padding on top of the items. *)
Theorem Allocate_offset_is_start :
  forall this n f off r,
    well_formed this -> far_from_wrap this -> 0 < n < 2 ^ 32 ->
    Allocate this n f off = Some r -> hr r = S_OK ->
    exists before,
      after r = record_allocation before n /\
      OffsetOut r = m_Tail before mod m_Size before /\
      m_Tail (after r) = m_Tail before + n /\
      m_Tail before = m_Tail this + padding this n /\
      (wraps this n = true ->
         OffsetOut r = 0 /\ 0 < padding this n /\
         m_NumAllocations (GetCurrentLedgeEntry (after r))
         = wrap32 (m_NumAllocations
                     (GetCurrentLedgeEntry (snd (after_move this f)))
                   + padding this n + n)).
Proof.
  intros this n f off r Hwf Hfar Hn Halloc Hok.
  unfold Allocate in Halloc. rewrite Allocate_flat in Halloc by assumption.
  injection Halloc as <-. unfold allocate_flat in *.
  destruct (after_move_shares this f Hwf) as (Hhead & Htl & Hsz & Hwf1).
  set (this1 := snd (after_move this f)) in *.
  destruct (FAILED (fst (after_move this f))); [discriminate |].
  pose proof Hwf1 as [Hsize _ _ Htail]. unfold far_from_wrap in Hfar.
  assert (Hloc : 0 <= m_Tail this1 mod m_Size this1 < m_Size this1)
    by (apply Z.mod_pos_bound; lia).
  unfold padding, wraps, tail in *. rewrite <- Htl, <- Hsz in *.
  destruct (Z.gtb_spec (m_Tail this1 mod m_Size this1 + n) (m_Size this1))
    as [Hwrap | Hfit].
  - set (pad := m_Size this1 - m_Tail this1 mod m_Size this1) in *.
    destruct (place_cases this1 pad) as [[Hpad Hp] | [Hpad Hp]];
      rewrite Hp in *; cbn [hr after FAILED] in *; [| discriminate].
    set (this2 := record_allocation this1 pad) in *.
    assert (Ht2 : m_Tail this2 = m_Tail this1 + pad)
      by (subst this2; simpl; apply wrap64_small; lia).
    assert (Hs2 : m_Size this2 = m_Size this1) by reflexivity.
    assert (Hwf2 : well_formed this2)
      by (apply record_allocation_wf; [assumption | lia]).
    destruct (place_cases this2 n) as [[Hfits Hp2] | [Hfits Hp2]];
      rewrite Hp2 in *; cbn [hr after OffsetOut] in *; [| discriminate].
    exists this2.
    split; [reflexivity |]. split; [reflexivity |].
    split; [destruct (record_allocation_fields this2 n) as (_ & -> & _);
            rewrite Ht2; apply wrap64_small; lia |].
    split; [exact Ht2 |]. intros _.
    split; [| split; [lia |]].
    + rewrite Ht2, Hs2.
      replace (m_Tail this1 + pad)
        with (m_Tail this1 - m_Tail this1 mod m_Size this1 + 1 * m_Size this1)
        by (subst pad; lia).
      rewrite Z.mod_add by lia.
      rewrite Zminus_mod, Z.mod_mod, Z.sub_diag by lia.
      apply Z.mod_0_l. lia.
    + rewrite current_entry_recorded by assumption.
      subst this2. rewrite current_entry_recorded by assumption.
      apply wrap32_add_l.
  - destruct (place_cases this1 n) as [[Hfits Hp] | [Hfits Hp]];
      rewrite Hp in *; cbn [hr after OffsetOut] in *; [| discriminate].
    exists this1.
    split; [reflexivity |]. split; [reflexivity |].
    split; [destruct (record_allocation_fields this1 n) as (_ & -> & _);
            apply wrap64_small; lia |].
    split; [lia |]. intros Hcontra. discriminate.
Qed.

(** C5 (amended). [Allocate] never blocks: it returns with two levels of
    calls, whatever fuel beyond that it is given.  A request for 0 items
    always succeeds and leaves the ring untouched, without looking at the
    ledger.  A request for at least one item fails exactly when the ledger
    is saturated (the fence value is newer than the current entry's and slot
    [(index + 1) mod 16] is still in use) or, counting the wrap padding, the
    items do not fit ([tail + padding + numItems > head + size]); in all
    other cases it succeeds. *)
Theorem Allocate_fails_exactly_when :
  forall this n f off,
    well_formed this -> far_from_wrap this -> 0 <= n < 2 ^ 32 ->
    exists r,
      Allocate this n f off = Some r /\
      (forall fuel, (2 <= fuel)%nat -> Allocate_fuel fuel this n f off = Some r) /\
      (n = 0 -> hr r = S_OK /\ after r = this) /\
      (0 < n ->
         (hr r = E_FAIL <-> saturated this f = true \/ no_room this n = true) /\
         (hr r = S_OK <-> saturated this f = false /\ no_room this n = false)).
Proof.
  intros this n f off Hwf Hfar Hn.
  assert (Hfuel : forall r,
             (forall k, Allocate_fuel (S (S k)) this n f off = Some r) ->
             Allocate this n f off = Some r /\
             (forall fuel, (2 <= fuel)%nat ->
                           Allocate_fuel fuel this n f off = Some r)).
  { intros r Hr. split; [apply (Hr O) |].
    intros [| [| k]] Hk; try lia. apply Hr. }
  destruct (Z.eq_dec n 0) as [-> | Hpos].
  - eexists. split; [reflexivity |].
    split; [intros [| k] Hk; [lia | apply Allocate_zero] |].
    split; [now split | lia].
  - exists (allocate_flat this n f off).
    destruct (Hfuel (allocate_flat this n f off)) as [H1 H2];
      [intros k; apply Allocate_flat; assumption || lia |].
    split; [exact H1 |]. split; [exact H2 |]. split; [lia |]. intros _.
    unfold allocate_flat.
    destruct (after_move_shares this f Hwf) as (Hhead & Htl & Hsz & Hwf1).
    rewrite (after_move_failed this f Hwf).
    set (this1 := snd (after_move this f)) in *.
    destruct (saturated this f); cbn [hr]; [split; split; intuition congruence |].
    assert (Hroom : no_room this n
                    = (m_Tail this1 + padding this n + n >? m_Head this1))
      by (unfold no_room, head, tail; rewrite Htl, Hhead; f_equal; lia).
    rewrite Hroom.
    assert (Hpad0 : 0 <= padding this n).
    { unfold padding, wraps, tail. destruct Hwf as [Hsize _ _ Htail].
      assert (0 <= m_Tail this mod m_Size this < m_Size this)
        by (apply Z.mod_pos_bound; lia).
      destruct (m_Tail this mod m_Size this + n >? m_Size this); lia. }
    destruct (wraps this n) eqn:Hwraps.
    + destruct (place_cases this1 (padding this n)) as [[Hpad Hp] | [Hpad Hp]];
        rewrite Hp; cbn [hr after FAILED].
      * set (this2 := record_allocation this1 (padding this n)).
        assert (Ht2 : m_Tail this2 = m_Tail this1 + padding this n).
        { subst this2.
          destruct (record_allocation_fields this1 (padding this n))
            as (_ & -> & _).
          apply wrap64_small. unfold far_from_wrap in Hfar.
          destruct Hwf1 as [_ _ _ Htail]. unfold padding in *.
          rewrite Hwraps in *. unfold tail in *.
          destruct Hwf as [Hsize _ _ _].
          assert (0 <= m_Tail this mod m_Size this < m_Size this)
            by (apply Z.mod_pos_bound; lia).
          lia. }
        destruct (place_cases this2 n) as [[Hfits Hp2] | [Hfits Hp2]];
          rewrite Hp2; cbn [hr];
          destruct (Z.gtb_spec (m_Tail this1 + padding this n + n) (m_Head this1));
          replace (m_Head this2) with (m_Head this1) in * by reflexivity;
          split; split; intuition (congruence || lia).
      * destruct (Z.gtb_spec (m_Tail this1 + padding this n + n) (m_Head this1));
          split; split; intuition (congruence || lia).
    + assert (Hzero : padding this n = 0) by (unfold padding; now rewrite Hwraps).
      rewrite Hzero.
      destruct (place_cases this1 n) as [[Hfits Hp] | [Hfits Hp]];
        rewrite Hp; cbn [hr];
        destruct (Z.gtb_spec (m_Tail this1 + 0 + n) (m_Head this1));
        split; split; intuition (congruence || lia).
Qed.

(** *** The invariant *)

Lemma live_total_ext a b :
  m_LedgerMask a = m_LedgerMask b -> m_Ledger a = m_Ledger b ->
  live_total a = live_total b.
Proof.
  intros Hmask Hledger. unfold live_total. apply sum_over_ext.
  intros j _. unfold live_allocations, live. now rewrite Hmask, Hledger.
Qed.

Lemma ledger_at_fresh i :
  ledger_at (replicate (Z.to_nat cLedgerSize) empty_entry) i = empty_entry.
Proof.
  unfold ledger_at.
  destruct (replicate _ _ !! _) as [e |] eqn:Hlook; [| reflexivity].
  apply lookup_replicate in Hlook as [-> _]. reflexivity.
Qed.

Lemma ring_Inv_construct Size : 0 < Size < 2 ^ 32 -> Inv (construct Size).
Proof.
  intros HSize. constructor; simpl.
  - split; simpl; try assumption; try lia.
    + unfold in_ledger, cLedgerSize. lia.
    + reflexivity.
  - lia.
  - lia.
  - lia.
  - transitivity 0; [| lia]. reflexivity.
  - intros i _. rewrite ledger_at_fresh. simpl. lia.
  - intros i _ _. apply ledger_at_fresh.
Qed.

Lemma live_allocations_nonneg this i :
  Inv this -> in_ledger i -> 0 <= live_allocations this i.
Proof.
  intros Hinv Hi. unfold live_allocations.
  destruct (live this i); [now apply inv_counts | lia].
Qed.

Lemma live_entry_le_total this i :
  Inv this -> in_ledger i -> live this i = true ->
  m_NumAllocations (ledger_at (m_Ledger this) i) <= live_total this.
Proof.
  intros Hinv Hi Hlive.
  pose proof (sum_over_member_le (live_allocations this) ledger_indices i) as Hle.
  unfold live_allocations at 2 in Hle. rewrite Hlive in Hle.
  apply Hle; [| now apply in_ledger_indices].
  intros j Hj. apply live_allocations_nonneg; [assumption |].
  now apply in_ledger_indices.
Qed.

(** Opening a ledger entry keeps the invariant: the slot taken was retired,
    so it re-enters the sum with a count of 0. *)
Lemma after_move_inv this f : Inv this -> Inv (snd (after_move this f)).
Proof.
  intros Hinv. pose proof Hinv as [Hwf Hnw Hth Hht Htotal Hcounts Hretired].
  unfold after_move. destruct (f >? _); [| assumption].
  rewrite MoveToNextLedgerEntry_eq by assumption.
  pose proof (next_slot_in_ledger this) as Hnext.
  pose proof Hwf as [Hsize Hidx Hlen Htail].
  destruct (live this (next_slot this)) eqn:Hlive; cbn [snd].
  - constructor; try assumption. split; assumption.
  - set (this' := mkRing _ _ _ _ _ _).
    assert (Hlive' : forall j, in_ledger j ->
                live this' j = live this j || (next_slot this =? j)).
    { intros j Hj. unfold live, this'. simpl. now apply testbit_set_bit. }
    assert (Hat : forall j, in_ledger j -> j <> next_slot this ->
                ledger_at (m_Ledger this') j = ledger_at (m_Ledger this) j).
    { intros j Hj Hne. unfold this'. simpl.
      apply ledger_at_set_ne; [apply Hnext | apply Hj | congruence]. }
    assert (Hnew : ledger_at (m_Ledger this') (next_slot this) = mkEntry f 0).
    { unfold this'. simpl. apply ledger_at_set_eq; [apply Hnext |].
      now apply in_ledger_nat. }
    constructor; try assumption.
    + split; try assumption. unfold this'. simpl. now rewrite ledger_set_length.
    + transitivity (live_total this); [| exact Htotal].
      unfold live_total. apply sum_over_ext.
      intros j Hj. apply in_ledger_indices in Hj.
      unfold live_allocations. rewrite Hlive' by assumption.
      destruct (Z.eqb_spec (next_slot this) j) as [<- | Hne].
      * rewrite Hlive, Hnew. reflexivity.
      * rewrite orb_false_r, Hat by congruence. reflexivity.
    + intros j Hj. destruct (Z.eq_dec j (next_slot this)) as [-> | Hne].
      * rewrite Hnew. simpl. lia.
      * rewrite Hat by assumption. now apply Hcounts.
    + intros j Hj. rewrite Hlive' by assumption.
      destruct (Z.eqb_spec (next_slot this) j) as [<- | Hne].
      * rewrite orb_true_r. discriminate.
      * rewrite orb_false_r, Hat by congruence. now apply Hretired.
Qed.

(** With a fence value above 0, the entry that is current after the first
    step is live. *)
Lemma after_move_current_live this f :
  Inv this -> 0 < f -> FAILED (fst (after_move this f)) = false ->
  let this1 := snd (after_move this f) in
  live this1 (m_LedgerIndex this1) = true.
Proof.
  intros Hinv Hf. pose proof Hinv as [Hwf _ _ _ _ _ Hretired].
  unfold after_move.
  destruct (Z.gtb_spec f (m_FenceValue (GetCurrentLedgeEntry this)))
    as [Hnewer | Hold].
  - rewrite MoveToNextLedgerEntry_eq by assumption.
    pose proof (next_slot_in_ledger this) as Hnext.
    destruct (live this (next_slot this)); cbn [fst snd FAILED];
      [discriminate | intros _].
    unfold live. simpl. rewrite testbit_set_bit by assumption.
    rewrite Z.eqb_refl. apply orb_true_r.
  - intros _. simpl.
    destruct (live this (m_LedgerIndex this)) eqn:Hlive; [reflexivity |].
    unfold GetCurrentLedgeEntry in Hold.
    rewrite Hretired in Hold; [simpl in Hold; lia | apply Hwf | assumption].
Qed.

Lemma place_keeps this n :
  let this' := after (place this n) in
  m_Size this' = m_Size this /\ m_Head this' = m_Head this /\
  m_LedgerMask this' = m_LedgerMask this /\
  m_LedgerIndex this' = m_LedgerIndex this.
Proof.
  destruct (place_cases this n) as [[_ ->] | [_ ->]]; now repeat split.
Qed.

(** Placing items on a live current entry keeps the invariant. *)
Lemma place_inv this n :
  Inv this -> live this (m_LedgerIndex this) = true -> 0 < n ->
  m_Tail this + n + m_Size this < 2 ^ 64 ->
  Inv (after (place this n)).
Proof.
  intros Hinv Hlive Hn Hfar.
  pose proof Hinv as [Hwf Hnw Hth Hht Htotal Hcounts Hretired].
  pose proof Hwf as [Hsize Hidx Hlen Htail].
  destruct (place_cases this n) as [[Hfits ->] | [_ ->]]; [| assumption].
  cbn [after].
  pose proof (live_entry_le_total this _ Hinv Hidx Hlive) as Hle.
  pose proof (Hcounts _ Hidx) as Hcur.
  set (this' := record_allocation this n).
  assert (Ht' : m_Tail this' = m_Tail this + n)
    by (unfold this'; simpl; apply wrap64_small; lia).
  assert (Hnew : ledger_at (m_Ledger this') (m_LedgerIndex this)
                 = mkEntry (m_FenceValue (GetCurrentLedgeEntry this))
                     (m_NumAllocations (GetCurrentLedgeEntry this) + n)).
  { unfold this', record_allocation. simpl.
    rewrite ledger_at_set_eq; [| apply Hidx | now apply in_ledger_nat].
    f_equal. apply wrap32_small. unfold GetCurrentLedgeEntry. lia. }
  assert (Hat : forall j, in_ledger j -> j <> m_LedgerIndex this ->
              ledger_at (m_Ledger this') j = ledger_at (m_Ledger this) j).
  { intros j Hj Hne. unfold this', record_allocation. simpl.
    apply ledger_at_set_ne; [apply Hidx | apply Hj | congruence]. }
  constructor.
  - split; try assumption.
    + unfold this', record_allocation. simpl. now rewrite ledger_set_length.
    + lia.
  - rewrite Ht'. exact Hfar.
  - rewrite Ht'. exact Hfits.
  - rewrite Ht'. change (m_Head this') with (m_Head this).
    change (m_Size this') with (m_Size this). lia.
  - rewrite Ht'. change (m_Head this') with (m_Head this).
    change (m_Size this') with (m_Size this).
    unfold live_total.
    rewrite (sum_over_update (live_allocations this) (live_allocations this')
               ledger_indices (m_LedgerIndex this)).
    + fold (live_total this). rewrite Htotal.
      unfold live_allocations.
      change (live this' (m_LedgerIndex this)) with (live this (m_LedgerIndex this)).
      rewrite Hlive, Hnew. simpl. unfold GetCurrentLedgeEntry. lia.
    + apply ledger_indices_distinct.
    + now apply in_ledger_indices.
    + intros j Hj Hne. apply in_ledger_indices in Hj.
      unfold live_allocations. change (live this' j) with (live this j).
      now rewrite Hat.
  - intros j Hj. destruct (Z.eq_dec j (m_LedgerIndex this)) as [-> | Hne].
    + rewrite Hnew. simpl. unfold GetCurrentLedgeEntry. lia.
    + rewrite Hat by assumption. now apply Hcounts.
  - intros j Hj. change (live this' j) with (live this j). intros Hdead.
    rewrite Hat; [now apply Hretired | assumption | congruence].
Qed.

Lemma place_tail this n :
  0 <= m_Tail this -> 0 <= n -> m_Tail this + n < 2 ^ 64 ->
  m_Tail this <= m_Tail (after (place this n)) <= m_Tail this + n.
Proof.
  intros Htail Hn Hfar.
  destruct (place_cases this n) as [[_ ->] | [_ ->]]; cbn [after]; [| lia].
  destruct (record_allocation_fields this n) as (_ & -> & _).
  rewrite wrap64_small; lia.
Qed.

Lemma allocate_flat_inv this n f off :
  Inv this -> far_from_wrap this -> 0 < n -> n < m_Size this / 2 -> 0 < f ->
  Inv (after (allocate_flat this n f off)).
Proof.
  intros Hinv Hfar Hn Hhalf Hf. unfold far_from_wrap in Hfar.
  pose proof (after_move_inv this f Hinv) as Hinv1.
  pose proof (after_move_current_live this f Hinv Hf) as Hlive1.
  destruct (after_move_shares this f (inv_wf _ Hinv)) as (Hhead & Htl & Hsz & Hwf1).
  unfold allocate_flat.
  destruct (FAILED (fst (after_move this f))); [exact Hinv1 |].
  specialize (Hlive1 eq_refl). cbv zeta in Hlive1.
  set (this1 := snd (after_move this f)) in *.
  pose proof Hwf1 as [Hsize _ _ Htail].
  pose proof (Z.mul_div_le (m_Size this) 2 ltac:(lia)) as Hdiv.
  assert (Hloc : 0 <= m_Tail this mod m_Size this < m_Size this)
    by (apply Z.mod_pos_bound; lia).
  unfold padding, wraps, tail.
  destruct (Z.gtb_spec (m_Tail this mod m_Size this + n) (m_Size this))
    as [Hwrap | Hfit].
  - set (pad := m_Size this - m_Tail this mod m_Size this) in *.
    assert (Hinv2 : Inv (after (place this1 pad)))
      by (apply place_inv; try assumption; lia).
    destruct (place_keeps this1 pad) as (Hs2 & Hh2 & Hm2 & Hi2).
    pose proof (place_tail this1 pad ltac:(lia) ltac:(lia) ltac:(lia)) as Ht2.
    destruct (FAILED (hr (place this1 pad))); [exact Hinv2 |].
    apply place_inv; try assumption; try lia.
    unfold live. rewrite Hm2, Hi2. exact Hlive1.
  - apply place_inv; try assumption; lia.
Qed.

(** Retiring a ledger entry moves its count from the sum to the head. *)
Lemma Deallocate_entry_inv c this i :
  Inv this -> in_ledger i -> Inv (Deallocate_entry c this i).
Proof.
  intros Hinv Hi. pose proof Hinv as [Hwf Hnw Hth Hht Htotal Hcounts Hretired].
  pose proof Hwf as [Hsize Hidx Hlen Htail].
  assert (Hi' : 0 <= i < 16) by exact Hi.
  unfold Deallocate_entry.
  rewrite shiftl_one, (wrap32_small (2 ^ i)) by (try apply pow2_bit_range; lia).
  rewrite land_bit_is_zero, negb_involutive by lia.
  fold (live this i).
  destruct (live this i) eqn:Hlive; cbn [andb]; [| assumption].
  destruct (_ <=? c); [| assumption].
  pose proof (live_entry_le_total this i Hinv Hi Hlive) as Hle.
  pose proof (Hcounts i Hi) as Hnum.
  set (this' := mkRing _ _ _ _ _ _).
  assert (Hh' : m_Head this'
                = m_Head this + m_NumAllocations (ledger_at (m_Ledger this) i))
    by (unfold this'; simpl; apply wrap64_small; lia).
  assert (Hlive' : forall j, in_ledger j ->
              live this' j = live this j && negb (i =? j)).
  { intros j Hj. unfold live, this'. simpl. now apply testbit_clear_bit. }
  assert (Hat : forall j, in_ledger j -> j <> i ->
              ledger_at (m_Ledger this') j = ledger_at (m_Ledger this) j).
  { intros j Hj Hne. unfold this'. simpl.
    apply ledger_at_set_ne; [lia | apply Hj | congruence]. }
  assert (Hnew : ledger_at (m_Ledger this') i = empty_entry).
  { unfold this'. simpl. apply ledger_at_set_eq; [lia |].
    now apply in_ledger_nat. }
  constructor.
  - split; try assumption. unfold this'. simpl. now rewrite ledger_set_length.
  - exact Hnw.
  - rewrite Hh'. change (m_Tail this') with (m_Tail this). lia.
  - rewrite Hh'. change (m_Tail this') with (m_Tail this).
    change (m_Size this') with (m_Size this). lia.
  - rewrite Hh'. change (m_Tail this') with (m_Tail this).
    change (m_Size this') with (m_Size this).
    unfold live_total.
    rewrite (sum_over_update (live_allocations this) (live_allocations this')
               ledger_indices i).
    + fold (live_total this). rewrite Htotal.
      unfold live_allocations. rewrite Hlive' by assumption.
      rewrite Hlive, Z.eqb_refl. simpl. lia.
    + apply ledger_indices_distinct.
    + now apply in_ledger_indices.
    + intros j Hj Hne. apply in_ledger_indices in Hj.
      unfold live_allocations. rewrite Hlive' by assumption.
      destruct (Z.eqb_spec i j); [congruence |].
      rewrite andb_true_r. now rewrite Hat.
  - intros j Hj. destruct (Z.eq_dec j i) as [-> | Hne].
    + rewrite Hnew. simpl. lia.
    + rewrite Hat by assumption. now apply Hcounts.
  - intros j Hj. rewrite Hlive' by assumption.
    destruct (Z.eqb_spec i j) as [<- | Hne]; [intros _; exact Hnew |].
    rewrite andb_true_r. intros Hdead.
    rewrite Hat; [now apply Hretired | assumption | congruence].
Qed.

Lemma Deallocate_loop_inv c indices : forall this,
  Forall in_ledger indices -> Inv this -> Inv (Deallocate_loop c this indices).
Proof.
  induction indices as [| i indices IH]; intros this Hall Hinv; [exact Hinv |].
  inversion Hall as [| ? ? Hi Hrest]; subst. simpl.
  pose proof (Deallocate_entry_inv c this i Hinv Hi) as Hinv'.
  destruct (_ =? 0); [exact Hinv' | now apply IH].
Qed.

Lemma Deallocate_inv this c : Inv this -> Inv (Deallocate this c).
Proof.
  intros Hinv. apply Deallocate_loop_inv; [| exact Hinv].
  apply List.Forall_forall. intros i Hi. now apply in_ledger_indices.
Qed.

Lemma step_inv this op : Inv this -> valid_op this op = true -> Inv (step this op).
Proof.
  intros Hinv Hvalid. destruct op as [n f | c]; [| now apply Deallocate_inv].
  unfold valid_op, requests_small in Hvalid.
  apply andb_prop in Hvalid as [Hsmall Hrest].
  apply andb_prop in Hsmall as [Hn0 Hhalf].
  apply andb_prop in Hrest as [Hf Hfar].
  apply Z.leb_le in Hn0, Hfar. apply Z.ltb_lt in Hhalf, Hf.
  pose proof Hinv as [Hwf _ _ _ _ _ _]. pose proof Hwf as [Hsize _ _ _].
  pose proof (Z.mul_div_le (m_Size this) 2 ltac:(lia)) as Hdiv.
  unfold step, Allocate.
  destruct (Z.eq_dec n 0) as [-> | Hpos]; [exact Hinv |].
  rewrite Allocate_flat; try assumption; try lia.
  apply allocate_flat_inv; try assumption; lia.
Qed.

Lemma run_inv ops : forall this,
  Inv this -> valid_run this ops = true -> Inv (run this ops).
Proof.
  induction ops as [| op ops IH]; intros this Hinv Hvalid; [exact Hinv |].
  simpl in Hvalid. apply andb_prop in Hvalid as [Hop Hrest].
  unfold run. simpl. apply IH; [now apply step_inv | exact Hrest].
Qed.

(** C1 (amended). In every state reachable from construction with a
    positive size by [Allocate] and [Deallocate] calls in which every
    [Allocate] requests fewer than [size / 2] items with a fence value
    above 0, and is made while the 64-bit tail counter is not about to wrap:
    [0 <= tail - head <= size], and the [m_NumAllocations] of the ledger
    slots whose mask bit is set sum to [tail - head]. *)
Theorem ring_ledger_invariant :
  forall Size ops,
    0 < Size < 2 ^ 32 ->
    valid_run (construct Size) ops = true ->
    ledger_accounts_for_live_range (run (construct Size) ops).
Proof.
  intros Size ops HSize Hvalid.
  pose proof (run_inv ops (construct Size) (ring_Inv_construct Size HSize) Hvalid)
    as [_ _ Hth Hht Htotal _ _].
  unfold ledger_accounts_for_live_range, head, tail. lia.
Qed.

End FencedRingBufferFacts.

Module FencedRingBufferExamples.

Import FencedRingBuffer FencedRingBufferFacts.

Lemma ring_ledger_invariant_witness :
  ledger_accounts_for_live_range
    (run (construct 1024)
       [OpAllocate 400 1; OpAllocate 300 1; OpDeallocate 1; OpAllocate 400 2]).
Proof.
  apply ring_ledger_invariant; [lia | vm_compute; reflexivity].
Defined.

(** C1 as stated fails for the fence value 0: once [Deallocate] has retired
    the current ledger entry, an [Allocate] at fence 0 is charged to that
    retired entry, whose bit is clear. *)
Lemma ring_ledger_invariant_needs_fence_above_0 :
  forallb (requests_small 8) [OpDeallocate 0; OpAllocate 1 0] = true /\
  tail (run (construct 8) [OpDeallocate 0; OpAllocate 1 0])
  - head (run (construct 8) [OpDeallocate 0; OpAllocate 1 0]) = 1 /\
  live_total (run (construct 8) [OpDeallocate 0; OpAllocate 1 0]) = 0 /\
  ~ ledger_accounts_for_live_range
      (run (construct 8) [OpDeallocate 0; OpAllocate 1 0]).
Proof.
  split; [reflexivity |]. split; [reflexivity |]. split; [reflexivity |].
  intros [_ Hsum]. vm_compute in Hsum. discriminate.
Qed.

Lemma fifteen_fences_well_formed :
  well_formed (run (construct 64) fifteen_fences) /\
  far_from_wrap (run (construct 64) fifteen_fences).
Proof.
  split; [split |]; vm_compute; repeat split; discriminate.
Defined.

(** C5 as stated fails for a request of 0 items: with all 16 ledger slots
    in use and a newer fence value the ledger is saturated, and the call
    still succeeds. *)
Lemma Allocate_of_no_items_ignores_saturation :
  valid_run (construct 64) fifteen_fences = true /\
  saturated (run (construct 64) fifteen_fences) 16 = true /\
  exists r,
    Allocate (run (construct 64) fifteen_fences) 0 16 0 = Some r /\
    hr r = S_OK.
Proof.
  split; [vm_compute; reflexivity |]. split; [vm_compute; reflexivity |].
  eexists. split; [vm_compute; reflexivity | reflexivity].
Qed.

Lemma Allocate_fails_exactly_when_witness :
  exists r,
    Allocate (run (construct 64) fifteen_fences) 1 16 0 = Some r /\
    hr r = E_FAIL.
Proof.
  destruct (Allocate_fails_exactly_when (run (construct 64) fifteen_fences) 1 16 0)
    as (r & Hr & _ & _ & Hfails).
  - apply fifteen_fences_well_formed.
  - apply fifteen_fences_well_formed.
  - lia.
  - exists r. split; [exact Hr |].
    apply (proj1 (Hfails ltac:(lia))). left. vm_compute. reflexivity.
Defined.

(** The wrap scenario: 700 of 1024 slots used and released, then 400 items
    are requested; 324 slots of padding take the tail to the boundary. *)
Lemma Allocate_offset_is_start_witness :
  let this :=
    run (construct 1024) [OpAllocate 400 1; OpAllocate 300 1; OpDeallocate 1] in
  let r := allocate_flat this 400 2 0 in
  wraps this 400 = true /\ padding this 400 = 324 /\ OffsetOut r = 0 /\
  m_NumAllocations (GetCurrentLedgeEntry (after r)) = 724.
Proof.
  intros this r.
  destruct (Allocate_offset_is_start this 400 2 0 r)
    as (before & _ & _ & _ & _ & Hwrap).
  - split; vm_compute; repeat split; discriminate.
  - vm_compute. discriminate.
  - lia.
  - vm_compute. reflexivity.
  - vm_compute. reflexivity.
  - destruct (Hwrap eq_refl) as (Hoff & _ & Hcount).
    split; [reflexivity |]. split; [reflexivity |]. split; [exact Hoff |].
    rewrite Hcount. vm_compute. reflexivity.
Defined.

End FencedRingBufferExamples.

(* --------------------------------------------------------------------- *)
(** ** Descriptor heap manager                                            *)
(* --------------------------------------------------------------------- *)

Module DescriptorHeapManagerFacts.

Import DescriptorHeapManager MachineFacts.

Implicit Types (this : CDescriptorHeapManager) (HeapEntry : SHeapEntry).
Implicit Types (Range : SFreeRange) (ranges : list SFreeRange).
Implicit Types (allocated : list Slot) (index : HeapIndex).

(** *** Descriptor boundaries *)

Lemma boundary_gap ds base x y :
  0 < ds -> on_boundary ds base x -> on_boundary ds base y -> x < y ->
  x + ds <= y.
Proof.
  unfold on_boundary. intros Hds Hx Hy Hlt.
  apply Z.mod_divide in Hx; [| lia]. apply Z.mod_divide in Hy; [| lia].
  destruct Hx as [kx Hx]. destruct Hy as [ky Hy].
  assert (kx < ky) by nia. nia.
Qed.

Lemma boundary_next ds base x :
  0 < ds -> on_boundary ds base x -> on_boundary ds base (x + ds).
Proof.
  unfold on_boundary. intros Hds Hx.
  replace (x + ds - base) with (x - base + 1 * ds) by lia.
  now rewrite Z.mod_add by lia.
Qed.

Lemma boundary_base ds base : on_boundary ds base base.
Proof. unfold on_boundary. rewrite Z.sub_diag. apply Zmod_0_l. Qed.

Lemma boundary_limit ds base count :
  0 < ds -> on_boundary ds base (base + count * ds).
Proof.
  unfold on_boundary. intros Hds.
  replace (base + count * ds - base) with (count * ds) by lia.
  now apply Z.mod_mul; lia.
Qed.

(** Two descriptors of one page are equal or a descriptor apart. *)
Lemma boundary_apart ds base x y :
  0 < ds -> on_boundary ds base x -> on_boundary ds base y -> x <> y ->
  x + ds <= y \/ y + ds <= x.
Proof.
  intros Hds Hx Hy Hne.
  destruct (Z.lt_ge_cases x y); [left | right]; apply (boundary_gap ds base);
    try assumption; lia.
Qed.

(** *** Free lists *)

Lemma chain_weaken ds base hi lo lo' ranges :
  lo' <= lo -> chain ds base hi lo ranges -> chain ds base hi lo' ranges.
Proof.
  destruct ranges as [| Range ranges]; [trivial |].
  simpl. intros Hle (H1 & H2 & H3 & H4 & H5 & H6). repeat split; try assumption. lia.
Qed.

Lemma chain_starts ds base hi ranges : forall lo,
  chain ds base hi lo ranges -> Forall (fun Range => lo <= Start Range) ranges.
Proof.
  induction ranges as [| Range ranges IH]; intros lo Hchain; [constructor |].
  destruct Hchain as (H1 & H2 & H3 & H4 & H5 & H6).
  constructor; [exact H1 |].
  eapply List.Forall_impl; [| apply (IH _ H6)].
  simpl. intros r Hr. lia.
Qed.

Lemma chain_ascending ds base hi ranges : forall lo,
  chain ds base hi lo ranges -> ascending ranges.
Proof.
  induction ranges as [| Range ranges IH]; intros lo Hchain; [exact I |].
  destruct Hchain as (H1 & H2 & H3 & H4 & H5 & H6). simpl.
  split; [exact H2 |]. split; [| apply (IH _ H6)].
  destruct ranges as [| Next ranges]; [exact I |]. apply H6.
Qed.

Lemma chain_push_back ds base hi ranges NewRange : forall lo,
  chain ds base hi lo ranges ->
  Forall (fun Range => End_ Range <= Start NewRange) ranges ->
  lo <= Start NewRange -> Start NewRange < End_ NewRange -> End_ NewRange <= hi ->
  on_boundary ds base (Start NewRange) -> on_boundary ds base (End_ NewRange) ->
  chain ds base hi lo (ranges ++ [NewRange]).
Proof.
  induction ranges as [| Range ranges IH]; intros lo Hchain Hbefore Hlo Hne Hhi Hs He.
  - simpl. repeat split; assumption.
  - destruct Hchain as (H1 & H2 & H3 & H4 & H5 & H6).
    inversion Hbefore as [| ? ? Hb Hbs]; subst.
    simpl. repeat split; try assumption.
    apply IH; assumption.
Qed.

(** *** The loop of [FreeHeapSlot] *)

(** Freeing a descriptor that lies outside every free range keeps the list
    ascending and inside the page; when no range is found, every range ends
    before the descriptor, so that pushing it at the back does too. *)
Lemma coalesce_chain ds base hi h ranges : forall lo,
  0 < ds -> 0 <= h -> h + ds < 2 ^ 64 ->
  chain ds base hi lo ranges -> lo <= h -> h + ds <= hi ->
  on_boundary ds base h -> Forall (outside ds h) ranges ->
  match coalesce mem_ok ds h ranges with
  | Returned (Some ranges') => chain ds base hi lo ranges' /\ ranges' <> []
  | Returned None => Forall (fun Range => End_ Range <= h) ranges
  | Thrown _ | Undefined => False
  end.
Proof.
  intros lo Hds Hh Hfar. revert lo.
  induction ranges as [| Range ranges IH];
    intros lo Hchain Hlo Hhi Hb Hout; [constructor |].
  destruct Hchain as (H1 & H2 & H3 & H4 & H5 & H6).
  inversion Hout as [| ? ? Ho Hos]; subst. unfold outside in Ho.
  pose proof (boundary_next ds base h Hds Hb) as Hb'.
  simpl. rewrite !(wrap64_small (h + ds)) by lia.
  destruct (Z.eqb_spec (Start Range) (h + ds)) as [Hs | Hs].
  { split; [| discriminate]. simpl. repeat split; try assumption; lia. }
  destruct (Z.eqb_spec (End_ Range) h) as [He | He].
  { split; [| discriminate]. rewrite He. rewrite wrap64_small by lia.
    simpl. repeat split; try assumption; try lia.
    destruct ranges as [| Next ranges]; [exact I |].
    destruct H6 as (G1 & G2 & G3 & G4 & G5 & G6).
    inversion Hos as [| ? ? Hn _]; subst. unfold outside in Hn.
    simpl. repeat split; try assumption. lia. }
  destruct (Z.gtb_spec (Start Range) h) as [Hgt | Hle].
  { split; [| discriminate]. simpl. repeat split; try assumption; lia. }
  specialize (IH (End_ Range) H6 ltac:(lia) Hhi Hb Hos).
  destruct (coalesce mem_ok ds h ranges) as [[ranges' |] | e |]; try contradiction.
  - destruct IH as [IH _]. split; [| discriminate].
    simpl. repeat split; assumption.
  - constructor; [lia | exact IH].
Qed.

(** Another descriptor of the page stays outside the free ranges. *)
Lemma coalesce_outside ds h h' ranges : forall ranges',
  0 < ds -> 0 <= h -> h + ds < 2 ^ 64 ->
  (h' + ds <= h \/ h + ds <= h') ->
  Forall (outside ds h') ranges ->
  coalesce mem_ok ds h ranges = Returned (Some ranges') ->
  Forall (outside ds h') ranges'.
Proof.
  intros ranges' Hds Hh Hfar Hapart. revert ranges'.
  induction ranges as [| Range ranges IH]; intros ranges' Hout Hco;
    [discriminate |].
  inversion Hout as [| ? ? Ho Hos]; subst. unfold outside in Ho.
  simpl in Hco. rewrite !(wrap64_small (h + ds)) in Hco by lia.
  destruct (Z.eqb_spec (Start Range) (h + ds)) as [Hs | Hs].
  { injection Hco as <-. constructor; [| exact Hos]. unfold outside. simpl. lia. }
  destruct (Z.eqb_spec (End_ Range) h) as [He | He].
  { injection Hco as <-. constructor; [| exact Hos].
    rewrite He, wrap64_small by lia. unfold outside. simpl. lia. }
  destruct (Z.gtb_spec (Start Range) h) as [Hgt | Hle].
  { injection Hco as <-. constructor; [| exact Hout].
    unfold outside. simpl. lia. }
  destruct (coalesce mem_ok ds h ranges) as [[l |] | e |]; try discriminate.
  injection Hco as <-. constructor; [exact Ho | now apply IH].
Qed.

(** When every free range starts at or after the end of the descriptor,
    the descriptor becomes the start of the first free range. *)
Lemma coalesce_front ds h Range ranges :
  0 < ds -> 0 <= h -> h + ds < 2 ^ 64 ->
  h + ds <= Start Range -> Start Range < End_ Range ->
  exists First ranges',
    coalesce mem_ok ds h (Range :: ranges) = Returned (Some (First :: ranges')) /\
    Start First = h.
Proof.
  intros Hds Hh Hfar Hs Hne. simpl. rewrite !(wrap64_small (h + ds)) by lia.
  destruct (Z.eqb_spec (Start Range) (h + ds)); [now eauto |].
  destruct (Z.eqb_spec (End_ Range) h); [lia |].
  destruct (Z.gtb_spec (Start Range) h); [now eauto | lia].
Qed.

(** *** Updating the free list of one page *)

Lemma remove_distinct (x : Slot) allocated :
  List.NoDup allocated -> List.NoDup (remove slot_eq_dec x allocated).
Proof.
  induction allocated as [| y l IH]; intros Hnd; [constructor |].
  inversion Hnd as [| ? ? Hnotin Hnd']; subst. simpl.
  destruct (slot_eq_dec x y); [now apply IH |].
  constructor; [| now apply IH].
  intros Hin. apply in_remove in Hin. tauto.
Qed.

(** The invariant after the free list of page [index] is replaced by
    [ranges'], the free-page list by [free'] and the outstanding handles by
    [allocated']. *)
Lemma update_inv this allocated allocated' index HeapEntry ranges' free' :
  Inv this allocated ->
  m_Heaps this !! index = Some HeapEntry ->
  chain (m_DescriptorSize this) (m_Heap HeapEntry) (page_limit this HeapEntry)
    (m_Heap HeapEntry) ranges' ->
  List.NoDup allocated' ->
  (forall s, In s allocated' -> snd s <> index -> In s allocated) ->
  (forall s, In s allocated' -> snd s = index ->
     m_Heap HeapEntry <= fst s /\
     fst s + m_DescriptorSize this <= page_limit this HeapEntry /\
     on_boundary (m_DescriptorSize this) (m_Heap HeapEntry) (fst s) /\
     Forall (outside (m_DescriptorSize this) (fst s)) ranges') ->
  List.NoDup free' ->
  (forall j, In j free' -> j <> index -> In j (m_FreeHeaps this)) ->
  (In index free' -> ranges' <> []) ->
  Inv (set_free_heaps (set_free_list this index HeapEntry ranges') free') allocated'.
Proof.
  intros [Hds HN Hbytes Hpages Hslots Hnd Hfree Hfd] Hlook Hchain Hnd' Hother
    Hsame Hfd' Hfree_other Hfree_same.
  pose proof (lookup_lt_Some _ _ _ Hlook) as Hlt.
  pose proof (Forall_lookup_1 _ _ _ _ Hpages Hlook) as (Hb0 & Hlim & _).
  constructor; simpl; try assumption.
  - apply Forall_insert; [exact Hpages |]. repeat split; assumption.
  - apply List.Forall_forall. intros s Hs.
    destruct (Nat.eq_dec (snd s) index) as [Heq | Hne].
    + destruct (Hsame s Hs Heq) as (S1 & S2 & S3 & S4).
      exists (mkHeapEntry (m_Heap HeapEntry) ranges'). simpl.
      rewrite Heq, list_lookup_insert_eq by assumption.
      repeat split; assumption.
    + pose proof (Hother s Hs Hne) as Hold.
      pose proof (proj1 (List.Forall_forall _ _) Hslots s Hold)
        as (page & P1 & P2 & P3 & P4 & P5).
      exists page. simpl. rewrite list_lookup_insert_ne by congruence.
      repeat split; assumption.
  - apply List.Forall_forall. intros j Hj.
    destruct (Nat.eq_dec j index) as [-> | Hne].
    + exists (mkHeapEntry (m_Heap HeapEntry) ranges').
      rewrite list_lookup_insert_eq by assumption. split; [reflexivity |].
      simpl. now apply Hfree_same.
    + pose proof (Hfree_other j Hj Hne) as Hold.
      pose proof (proj1 (List.Forall_forall _ _) Hfree j Hold) as (page & P1 & P2).
      exists page. now rewrite list_lookup_insert_ne by congruence.
Qed.

Lemma slot_on_page this allocated h index HeapEntry :
  Inv this allocated -> In (h, index) allocated ->
  m_Heaps this !! index = Some HeapEntry ->
  m_Heap HeapEntry <= h /\
  h + m_DescriptorSize this <= page_limit this HeapEntry /\
  on_boundary (m_DescriptorSize this) (m_Heap HeapEntry) h /\
  Forall (outside (m_DescriptorSize this) h) (m_FreeList HeapEntry).
Proof.
  intros Hinv Hin Hlook.
  pose proof (proj1 (List.Forall_forall _ _) (inv_slots _ _ Hinv) _ Hin)
    as (page & P1 & P2 & P3 & P4 & P5).
  simpl in *. rewrite Hlook in P1. injection P1 as <-. repeat split; assumption.
Qed.

(** *** [AllocateHeapSlot] *)

Lemma take_slot_front this index free_heaps HeapEntry Range ranges :
  m_FreeHeaps this = index :: free_heaps ->
  m_Heaps this !! index = Some HeapEntry ->
  m_FreeList HeapEntry = Range :: ranges ->
  result (take_slot this) = Returned (Start Range, index).
Proof.
  intros Hfront Hlook Hlist. unfold take_slot. rewrite Hfront, Hlook, Hlist.
  cbv zeta. destruct (_ =? _); [| reflexivity]. now destruct ranges.
Qed.

(** The handle taken is the start of the first free range of the page at
    the front; the invariant holds with it outstanding. *)
Lemma take_slot_inv this allocated index free_heaps :
  Inv this allocated -> m_FreeHeaps this = index :: free_heaps ->
  exists h,
    result (take_slot this) = Returned (h, index) /\
    Inv (after (take_slot this)) ((h, index) :: allocated).
Proof.
  intros Hinv Hfront.
  pose proof Hinv as [Hds HN Hbytes Hpages Hslots Hnd Hfree Hfd].
  rewrite Hfront in Hfree, Hfd.
  inversion Hfree as [| ? ? (HeapEntry & Hlook & Hne) Hfree']; subst.
  inversion Hfd as [| ? ? Hnotin Hfd']; subst.
  destruct (m_FreeList HeapEntry) as [| Range ranges] eqn:Hlist; [congruence |].
  pose proof (Forall_lookup_1 _ _ _ _ Hpages Hlook) as (Hb0 & Hlim & Hchain).
  rewrite Hlist in Hchain. destruct Hchain as (C1 & C2 & C3 & C4 & C5 & C6).
  pose proof (boundary_gap _ _ _ _ Hds C4 C5 C2) as Hgap.
  pose proof (chain_starts _ _ _ _ _ C6) as Hstarts.
  exists (Start Range).
  split; [now apply (take_slot_front this index free_heaps HeapEntry Range ranges) |].
  assert (Hfresh : ~ In (Start Range, index) allocated).
  { intros Hin.
    destruct (slot_on_page _ _ _ _ _ Hinv Hin Hlook) as (_ & _ & _ & Hout).
    rewrite Hlist in Hout. inversion Hout as [| ? ? Ho _]; subst.
    unfold outside in Ho. lia. }
  assert (Hnd' : List.NoDup ((Start Range, index) :: allocated))
    by (now constructor).
  assert (Hother : forall s, In s ((Start Range, index) :: allocated) ->
                             snd s <> index -> In s allocated).
  { intros s [<- | Hs] Hdiff; [simpl in Hdiff; congruence | exact Hs]. }
  assert (Hsame : forall ranges',
             Forall (fun r => Start Range + m_DescriptorSize this <= Start r) ranges' ->
             (forall h', Forall (outside (m_DescriptorSize this) h') (Range :: ranges) ->
                         Forall (outside (m_DescriptorSize this) h') ranges') ->
             forall s, In s ((Start Range, index) :: allocated) -> snd s = index ->
               m_Heap HeapEntry <= fst s /\
               fst s + m_DescriptorSize this <= page_limit this HeapEntry /\
               on_boundary (m_DescriptorSize this) (m_Heap HeapEntry) (fst s) /\
               Forall (outside (m_DescriptorSize this) (fst s)) ranges').
  { intros ranges' Hnew Hold s [<- | Hs] Hpage; simpl.
    - repeat split; try assumption; try lia.
      eapply List.Forall_impl; [| exact Hnew]. intros r Hr. left. exact Hr.
    - destruct s as [h' i']. simpl in Hpage. subst i'.
      destruct (slot_on_page _ _ _ _ _ Hinv Hs Hlook) as (S1 & S2 & S3 & S4).
      rewrite Hlist in S4. repeat split; try assumption. now apply Hold. }
  unfold take_slot. rewrite Hfront, Hlook, Hlist. cbv zeta.
  rewrite wrap64_small by lia. cbn [Start End_].
  destruct (Z.eqb_spec (Start Range + m_DescriptorSize this) (End_ Range))
    as [Hpop | Hkeep].
  - destruct ranges as [| Next ranges]; cbn [after].
    + refine (update_inv this allocated _ index HeapEntry _ _ Hinv Hlook
                _ Hnd' Hother _ Hfd' _ _).
      * exact I.
      * apply Hsame; [constructor | intros; constructor].
      * intros j Hj _. rewrite Hfront. now right.
      * intros Hin. contradiction.
    + change (set_free_list this index HeapEntry (Next :: ranges))
        with (set_free_heaps (set_free_list this index HeapEntry (Next :: ranges))
                (m_FreeHeaps this)).
      refine (update_inv this allocated _ index HeapEntry _ _ Hinv Hlook
                _ Hnd' Hother _ (inv_free_distinct _ _ Hinv) _ _).
      * apply (chain_weaken _ _ _ (End_ Range)); [lia | exact C6].
      * apply Hsame.
        -- eapply List.Forall_impl; [| exact Hstarts]. simpl. intros r Hr. lia.
        -- intros h' Hall. now inversion Hall.
      * intros j Hj _. exact Hj.
      * discriminate.
  - cbn [after].
    set (Range' := mkRange (Start Range + m_DescriptorSize this) (End_ Range)).
    change (set_free_list this index HeapEntry (Range' :: ranges))
      with (set_free_heaps (set_free_list this index HeapEntry (Range' :: ranges))
              (m_FreeHeaps this)).
    refine (update_inv this allocated _ index HeapEntry _ _ Hinv Hlook
              _ Hnd' Hother _ (inv_free_distinct _ _ Hinv) _ _).
    + simpl. repeat split; try assumption; try lia.
      now apply boundary_next.
    + apply Hsame.
      * constructor; [simpl; lia |].
        eapply List.Forall_impl; [| exact Hstarts]. simpl. intros r Hr. lia.
      * intros h' Hall. inversion Hall as [| ? ? Ho Hos]; subst.
        constructor; [| exact Hos]. unfold outside in *. simpl. lia.
    + intros j Hj _. exact Hj.
    + discriminate.
Qed.

Lemma AllocateHeap_inv this allocated HeapBase :
  Inv this allocated -> m_FreeHeaps this = [] ->
  heap_in_range this (Returned HeapBase) ->
  let grown := AllocateHeap mem_ok (Returned HeapBase) this in
  result grown = Returned tt /\
  Inv (after grown) allocated /\
  m_FreeHeaps (after grown) = [length (m_Heaps this)].
Proof.
  intros [Hds HN Hbytes Hpages Hslots Hnd Hfree Hfd] Hempty [Hb0 Hlim].
  assert (Hlen : forall x : SHeapEntry,
             (length (m_Heaps this ++ [x]) - 1)%nat = length (m_Heaps this))
    by (intros x; rewrite List.length_app; simpl; lia).
  assert (Hbytes0 : 0 < NumDescriptors this * m_DescriptorSize this) by nia.
  unfold AllocateHeap. simpl. rewrite Hempty, Hlen. simpl.
  split; [reflexivity |]. split; [| reflexivity].
  rewrite (wrap32_small (_ * _)), wrap64_small by lia.
  constructor; simpl; try assumption.
  - apply List.Forall_app. split; [exact Hpages |].
    constructor; [| constructor]. unfold page_ok, page_limit. simpl.
    repeat split; try lia.
    + apply boundary_base.
    + now apply boundary_limit.
  - eapply List.Forall_impl; [| exact Hslots].
    intros s (page & P1 & P2 & P3 & P4 & P5). exists page. simpl.
    repeat split; try assumption. now apply lookup_app_l_Some.
  - constructor; [| constructor]. eexists. split.
    + now apply list_lookup_middle.
    + discriminate.
  - constructor; [intros [] | constructor].
Qed.

(** [AllocateHeapSlot] keeps the invariant: it returns a handle that was
    not outstanding, or fails exactly as the device did and changes
    nothing. *)
Lemma AllocateHeapSlot_inv this allocated created :
  Inv this allocated -> heap_in_range this created ->
  match result (AllocateHeapSlot mem_ok created this) with
  | Returned slot =>
      Inv (after (AllocateHeapSlot mem_ok created this)) (slot :: allocated)
  | Thrown e =>
      created = Thrown e /\ after (AllocateHeapSlot mem_ok created this) = this
  | Undefined => created = Undefined
  end.
Proof.
  intros Hinv Hrange. unfold AllocateHeapSlot.
  destruct (m_FreeHeaps this) as [| index free_heaps] eqn:Hfront.
  - destruct created as [HeapBase | e |]; [| now split | reflexivity].
    destruct (AllocateHeap_inv this allocated HeapBase Hinv Hfront Hrange)
      as (Hres & Hinv1 & Hfront1).
    cbv zeta. rewrite Hres.
    destruct (take_slot_inv _ _ _ _ Hinv1 Hfront1) as (h & -> & Hinv2).
    exact Hinv2.
  - cbv zeta. cbn [result after].
    destruct (take_slot_inv _ _ _ _ Hinv Hfront) as (h & -> & Hinv2).
    exact Hinv2.
Qed.

(** *** [FreeHeapSlot] *)

Lemma snoc_distinct (index : HeapIndex) free :
  List.NoDup free -> ~ In index free -> List.NoDup (free ++ [index]).
Proof.
  induction free as [| j free IH]; intros Hnd Hnotin; simpl.
  - constructor; [intros [] | constructor].
  - inversion Hnd as [| ? ? Hj Hnd']; subst.
    constructor.
    + intros Hin. apply in_app_or in Hin as [Hin | [-> | []]]; [contradiction |].
      apply Hnotin. now left.
    + apply IH; [assumption |]. intros Hin. apply Hnotin. now right.
Qed.

(** Freeing an outstanding handle returns normally and keeps the
    invariant, with the handle no longer outstanding. *)
Lemma FreeHeapSlot_inv this allocated h index :
  Inv this allocated -> In (h, index) allocated ->
  exists this',
    FreeHeapSlot mem_ok this h index = Returned this' /\
    Inv this' (remove slot_eq_dec (h, index) allocated).
Proof.
  intros Hinv Hin.
  pose proof Hinv as [Hds HN Hbytes Hpages Hslots Hnd Hfree Hfd].
  pose proof (proj1 (List.Forall_forall _ _) Hslots _ Hin)
    as (HeapEntry & Hlook & S1 & S2 & S3 & S4).
  simpl in Hlook, S1, S2, S3, S4.
  pose proof (Forall_lookup_1 _ _ _ _ Hpages Hlook) as (Hb0 & Hlim & Hchain).
  assert (Hh0 : 0 <= h) by lia.
  assert (Hfar : h + m_DescriptorSize this < 2 ^ 64) by lia.
  pose proof (coalesce_chain _ _ _ h _ _ Hds Hh0 Hfar Hchain S1 S2 S3 S4) as Hco.
  assert (Hnd' : List.NoDup (remove slot_eq_dec (h, index) allocated))
    by (now apply remove_distinct).
  assert (Hother : forall s, In s (remove slot_eq_dec (h, index) allocated) ->
                             snd s <> index -> In s allocated)
    by (intros s Hs _; now apply in_remove in Hs).
  assert (Hsame : forall ranges',
             (forall h', (h' + m_DescriptorSize this <= h \/
                          h + m_DescriptorSize this <= h') ->
                         Forall (outside (m_DescriptorSize this) h')
                           (m_FreeList HeapEntry) ->
                         Forall (outside (m_DescriptorSize this) h') ranges') ->
             forall s, In s (remove slot_eq_dec (h, index) allocated) ->
               snd s = index ->
               m_Heap HeapEntry <= fst s /\
               fst s + m_DescriptorSize this <= page_limit this HeapEntry /\
               on_boundary (m_DescriptorSize this) (m_Heap HeapEntry) (fst s) /\
               Forall (outside (m_DescriptorSize this) (fst s)) ranges').
  { intros ranges' Hkeep [h' i'] Hs Hpage. simpl in Hpage. subst i'.
    apply in_remove in Hs as [Hs Hdiff].
    destruct (slot_on_page _ _ _ _ _ Hinv Hs Hlook) as (T1 & T2 & T3 & T4).
    simpl. repeat split; try assumption.
    apply Hkeep; [| exact T4].
    apply (boundary_apart _ (m_Heap HeapEntry)); try assumption. congruence. }
  unfold FreeHeapSlot. rewrite Hlook.
  destruct (coalesce mem_ok (m_DescriptorSize this) h (m_FreeList HeapEntry))
    as [[ranges' |] | e |] eqn:Hcoalesce; try contradiction.
  - destruct Hco as [Hchain' Hne].
    eexists. split; [reflexivity |].
    change (set_free_list this index HeapEntry ranges')
      with (set_free_heaps (set_free_list this index HeapEntry ranges')
              (m_FreeHeaps this)).
    refine (update_inv this allocated _ index HeapEntry _ _ Hinv Hlook
              Hchain' Hnd' Hother _ Hfd _ _).
    + apply Hsame. intros h' Hapart Hout.
      now apply (coalesce_outside _ h h' (m_FreeList HeapEntry)).
    + intros j Hj _. exact Hj.
    + intros _. exact Hne.
  - rewrite wrap64_small by lia.
    set (NewRange := mkRange h (h + m_DescriptorSize this)).
    assert (Hchain' : chain (m_DescriptorSize this) (m_Heap HeapEntry)
                        (page_limit this HeapEntry) (m_Heap HeapEntry)
                        (m_FreeList HeapEntry ++ [NewRange])).
    { apply chain_push_back; simpl; try assumption; try lia.
      now apply boundary_next. }
    assert (Hslots' : forall s, In s (remove slot_eq_dec (h, index) allocated) ->
               snd s = index ->
               m_Heap HeapEntry <= fst s /\
               fst s + m_DescriptorSize this <= page_limit this HeapEntry /\
               on_boundary (m_DescriptorSize this) (m_Heap HeapEntry) (fst s) /\
               Forall (outside (m_DescriptorSize this) (fst s))
                 (m_FreeList HeapEntry ++ [NewRange])).
    { apply Hsame. intros h' Hapart Hout. apply List.Forall_app. split; [exact Hout |].
      constructor; [| constructor]. unfold outside. simpl. lia. }
    assert (Hne : m_FreeList HeapEntry ++ [NewRange] <> [])
      by (destruct (m_FreeList HeapEntry); discriminate).
    destruct (m_FreeList HeapEntry) as [| Range ranges] eqn:Hlist; simpl.
    + eexists. split; [reflexivity |].
      change (set_free_list (set_free_heaps this (m_FreeHeaps this ++ [index]))
                index HeapEntry [NewRange])
        with (set_free_heaps (set_free_list this index HeapEntry [NewRange])
                (m_FreeHeaps this ++ [index])).
      assert (Hnotin : ~ In index (m_FreeHeaps this)).
      { intros Hj.
        pose proof (proj1 (List.Forall_forall _ _) Hfree _ Hj) as (page & P1 & P2).
        rewrite Hlook in P1. injection P1 as <-. congruence. }
      refine (update_inv this allocated _ index HeapEntry _ _ Hinv Hlook
                Hchain' Hnd' Hother Hslots' (snoc_distinct _ _ Hfd Hnotin) _ _).
      * intros j Hj Hdiff. apply in_app_or in Hj as [Hj | [-> | []]];
          [exact Hj | congruence].
      * intros _. exact Hne.
    + eexists. split; [reflexivity |].
      change (set_free_list this index HeapEntry (Range :: ranges ++ [NewRange]))
        with (set_free_heaps
                (set_free_list this index HeapEntry (Range :: ranges ++ [NewRange]))
                (m_FreeHeaps this)).
      refine (update_inv this allocated _ index HeapEntry _ _ Hinv Hlook
                Hchain' Hnd' Hother Hslots' Hfd _ _).
      * intros j Hj _. exact Hj.
      * intros _. exact Hne.
Qed.

(** *** Reachable managers *)

(** A call that throws (the device refused to create a heap) leaves the
    manager as it was. *)
Lemma AllocateHeapSlot_thrown this created e :
  result (AllocateHeapSlot mem_ok created this) = Thrown e ->
  after (AllocateHeapSlot mem_ok created this) = this.
Proof.
  unfold AllocateHeapSlot, AllocateHeap, take_slot.
  destruct (m_FreeHeaps this), created; simpl;
    repeat case_match; simpl; congruence.
Qed.

Lemma manager_Inv_construct NumDescriptorsPerHeap DescriptorSize :
  0 < DescriptorSize -> 0 < NumDescriptorsPerHeap ->
  NumDescriptorsPerHeap * DescriptorSize < 2 ^ 32 ->
  Inv (construct NumDescriptorsPerHeap DescriptorSize) [].
Proof. intros. constructor; simpl; try assumption; constructor. Qed.

Lemma reachable_inv this allocated : reachable this allocated -> Inv this allocated.
Proof.
  induction 1 as [N ds Hds HN Hbytes
                 | this allocated created slot _ IH Hrange Hres
                 | this allocated created e _ IH Hres
                 | this allocated h index this' _ IH Hin Hfree].
  - now apply manager_Inv_construct.
  - pose proof (AllocateHeapSlot_inv this allocated created IH Hrange) as Hstep.
    rewrite Hres in Hstep. exact Hstep.
  - rewrite (AllocateHeapSlot_thrown _ _ _ Hres). exact IH.
  - destruct (FreeHeapSlot_inv this allocated h index IH Hin) as (this'' & Hf & Hinv).
    rewrite Hf in Hfree. injection Hfree as <-. exact Hinv.
Qed.

(** In every reachable manager the free list of every page is sorted by
    ascending [Start] and its ranges do not overlap. *)
Lemma reachable_free_lists_ascending this allocated :
  reachable this allocated ->
  Forall (fun HeapEntry => ascending (m_FreeList HeapEntry)) (m_Heaps this).
Proof.
  intros Hreach. apply reachable_inv in Hreach.
  eapply List.Forall_impl; [| exact (inv_pages _ _ Hreach)].
  intros HeapEntry (_ & _ & Hchain). exact (chain_ascending _ _ _ _ _ Hchain).
Qed.

(** *** Allocate, free, allocate *)

Lemma lookup_set_free_list this index HeapEntry HeapEntry' ranges :
  m_Heaps this !! index = Some HeapEntry' ->
  m_Heaps (set_free_list this index HeapEntry ranges) !! index
  = Some (mkHeapEntry (m_Heap HeapEntry) ranges).
Proof.
  intros Hlook. simpl. apply list_lookup_insert_eq.
  exact (lookup_lt_Some _ _ _ Hlook).
Qed.

Lemma AllocateHeapSlot_front mem created this index free_heaps HeapEntry Range
    ranges h :
  m_FreeHeaps this = index :: free_heaps ->
  m_Heaps this !! index = Some HeapEntry ->
  m_FreeList HeapEntry = Range :: ranges ->
  Start Range = h ->
  result (AllocateHeapSlot mem created this) = Returned (h, index).
Proof.
  intros Hfront Hlook Hlist <-. unfold AllocateHeapSlot. rewrite Hfront.
  cbv zeta. cbn [result after].
  exact (take_slot_front _ _ _ _ _ _ Hfront Hlook Hlist).
Qed.

Lemma FreeHeapSlot_found this h index HeapEntry ranges' :
  m_Heaps this !! index = Some HeapEntry ->
  coalesce mem_ok (m_DescriptorSize this) h (m_FreeList HeapEntry)
  = Returned (Some ranges') ->
  FreeHeapSlot mem_ok this h index
  = Returned (set_free_list this index HeapEntry ranges').
Proof. intros Hlook Hco. unfold FreeHeapSlot. now rewrite Hlook, Hco. Qed.

Lemma FreeHeapSlot_empty this h index HeapEntry :
  m_Heaps this !! index = Some HeapEntry -> m_FreeList HeapEntry = [] ->
  FreeHeapSlot mem_ok this h index
  = Returned
      (set_free_list (set_free_heaps this (m_FreeHeaps this ++ [index])) index
         HeapEntry [mkRange h (wrap64 (h + m_DescriptorSize this))]).
Proof. intros Hlook Hlist. unfold FreeHeapSlot. now rewrite Hlook, Hlist. Qed.

(** The allocation proper is [take_slot] on a manager that satisfies the
    invariant and has a page at the front of its free-page list. *)
Lemma AllocateHeapSlot_grown this allocated created slot :
  Inv this allocated -> heap_in_range this created ->
  result (AllocateHeapSlot mem_ok created this) = Returned slot ->
  exists grown index free_heaps,
    Inv grown allocated /\ m_FreeHeaps grown = index :: free_heaps /\
    AllocateHeapSlot mem_ok created this = take_slot grown.
Proof.
  intros Hinv Hrange Hres. unfold AllocateHeapSlot in *.
  destruct (m_FreeHeaps this) as [| index free_heaps] eqn:Hfront.
  - destruct created as [HeapBase | e |]; try discriminate.
    destruct (AllocateHeap_inv this allocated HeapBase Hinv Hfront Hrange)
      as (Hgrown & Hinv1 & Hfront1).
    cbv zeta in *. rewrite Hgrown in *. eauto 6.
  - exists this, index, free_heaps. auto.
Qed.

Lemma take_free_take grown allocated front free_heaps created' h index :
  Inv grown allocated -> m_FreeHeaps grown = front :: free_heaps ->
  result (take_slot grown) = Returned (h, index) ->
  let this1 := after (take_slot grown) in
  ((exists HeapEntry,
       m_Heaps this1 !! index = Some HeapEntry /\ m_FreeList HeapEntry <> [])
   \/ m_FreeHeaps this1 = [] ->
   exists this2,
     FreeHeapSlot mem_ok this1 h index = Returned this2 /\
     result (AllocateHeapSlot mem_ok created' this2) = Returned (h, index))
  /\
  (forall HeapEntry other rest,
     m_Heaps this1 !! index = Some HeapEntry -> m_FreeList HeapEntry = [] ->
     m_FreeHeaps this1 = other :: rest ->
     exists this2 h',
       FreeHeapSlot mem_ok this1 h index = Returned this2 /\
       result (AllocateHeapSlot mem_ok created' this2) = Returned (h', other) /\
       other <> index).
Proof.
  intros Hinv Hfront Hres.
  destruct (take_slot_inv _ _ _ _ Hinv Hfront) as (h0 & Hres0 & Hinv1).
  rewrite Hres in Hres0. injection Hres0 as <- <-.
  pose proof Hinv as [Hds HN Hbytes Hpages Hslots Hnd Hfree Hfd].
  rewrite Hfront in Hfree.
  inversion Hfree as [| ? ? (HeapEntry & Hlook & Hne) _]; subst.
  destruct (m_FreeList HeapEntry) as [| Range ranges] eqn:Hlist; [congruence |].
  pose proof (Forall_lookup_1 _ _ _ _ Hpages Hlook) as (Hb0 & Hlim & Hchain).
  rewrite Hlist in Hchain. destruct Hchain as (C1 & C2 & C3 & C4 & C5 & C6).
  pose proof (boundary_gap _ _ _ _ Hds C4 C5 C2) as Hgap.
  rewrite (take_slot_front _ _ _ _ _ _ Hfront Hlook Hlist) in Hres.
  injection Hres as <-.
  revert Hinv1. unfold take_slot. rewrite Hfront, Hlook, Hlist. cbv zeta.
  cbn [Start End_].
  destruct (Z.eqb_spec (wrap64 (Start Range + m_DescriptorSize grown)) (End_ Range))
    as [Hpop | Hkeep].
  - rewrite wrap64_small in Hpop by lia.
    destruct ranges as [| Next ranges]; cbn [after]; intros Hinv1.
    + (* the page is exhausted and leaves the free-page list *)
      set (this1 := set_free_heaps (set_free_list grown index HeapEntry []) free_heaps).
      assert (Hlook1 : m_Heaps this1 !! index = Some (mkHeapEntry (m_Heap HeapEntry) []))
        by (apply (lookup_set_free_list grown index HeapEntry HeapEntry []); exact Hlook).
      assert (Hfree1 : FreeHeapSlot mem_ok this1 (Start Range) index = _)
        by (apply (FreeHeapSlot_empty this1 _ index _ Hlook1); reflexivity).
      split.
      * intros [(page & Hp & Hpne) | Hnone].
        { rewrite Hlook1 in Hp. injection Hp as <-. now contradiction Hpne. }
        eexists. split; [exact Hfree1 |].
        eapply AllocateHeapSlot_front.
        -- simpl. simpl in Hnone. rewrite Hnone. reflexivity.
        -- apply (lookup_set_free_list _ index _ _ _ Hlook1).
        -- reflexivity.
        -- reflexivity.
      * intros page other rest Hp Hpl Hother.
        pose proof (inv_free_heaps _ _ Hinv1) as Hfree1'.
        unfold this1 in Hother. simpl in Hother, Hfree1'.
        rewrite Hother in Hfree1'.
        inversion Hfree1' as [| ? ? (page_o & Ho & Hone) _]; subst.
        change (m_Heaps this1 !! other = Some page_o) in Ho.
        assert (Hdiff : other <> index).
        { intros ->. rewrite Hlook1 in Ho. injection Ho as <-. now contradiction Hone. }
        destruct (m_FreeList page_o) as [| First others] eqn:Hfirst; [congruence |].
        eexists. exists (Start First). split; [exact Hfree1 |]. split; [| exact Hdiff].
        eapply AllocateHeapSlot_front.
        -- reflexivity.
        -- simpl. rewrite list_lookup_insert_ne by congruence. exact Ho.
        -- exact Hfirst.
        -- reflexivity.
    + (* the first range is used up, the page keeps its other ranges *)
      set (this1 := set_free_list grown index HeapEntry (Next :: ranges)).
      assert (Hlook1 : m_Heaps this1 !! index
                       = Some (mkHeapEntry (m_Heap HeapEntry) (Next :: ranges)))
        by (apply (lookup_set_free_list grown index HeapEntry HeapEntry); exact Hlook).
      destruct C6 as (N1 & N2 & _).
      destruct (coalesce_front (m_DescriptorSize grown) (Start Range) Next ranges)
        as (First & ranges' & Hco & Hstart); try assumption; try lia.
      pose proof (FreeHeapSlot_found this1 (Start Range) index _ _ Hlook1 Hco) as Hfree1.
      split.
      * intros _. eexists. split; [exact Hfree1 |].
        eapply AllocateHeapSlot_front.
        -- simpl. exact Hfront.
        -- apply (lookup_set_free_list _ index _ _ _ Hlook1).
        -- reflexivity.
        -- exact Hstart.
      * intros page other rest Hp Hpl _.
        rewrite Hlook1 in Hp. injection Hp as <-. discriminate.
  - cbn [after]. intros Hinv1.
    set (Range' := mkRange (wrap64 (Start Range + m_DescriptorSize grown)) (End_ Range)).
    set (this1 := set_free_list grown index HeapEntry (Range' :: ranges)).
    assert (Hlook1 : m_Heaps this1 !! index
                     = Some (mkHeapEntry (m_Heap HeapEntry) (Range' :: ranges)))
      by (apply (lookup_set_free_list grown index HeapEntry HeapEntry); exact Hlook).
    assert (Hco : coalesce mem_ok (m_DescriptorSize this1) (Start Range)
                    (Range' :: ranges)
                  = Returned (Some (mkRange (Start Range) (End_ Range) :: ranges))).
    { simpl. now rewrite Z.eqb_refl. }
    pose proof (FreeHeapSlot_found this1 (Start Range) index _ _ Hlook1 Hco) as Hfree1.
    split.
    + intros _. eexists. split; [exact Hfree1 |].
      eapply AllocateHeapSlot_front.
      * simpl. exact Hfront.
      * apply (lookup_set_free_list _ index _ _ _ Hlook1).
      * reflexivity.
      * reflexivity.
    + intros page other rest Hp Hpl _.
      rewrite Hlook1 in Hp. injection Hp as <-. discriminate.
Qed.

(** C7 (amended). In a reachable manager, let [h] be the handle
    [AllocateHeapSlot] returns, from page [i].  If page [i] still has a free
    range after this allocation, or no page at all is left in the free-page
    list, then [FreeHeapSlot(h, i)] followed by [AllocateHeapSlot] returns
    [h] from page [i] again.  If instead the allocation used up page [i]
    while another page is in the free-page list, the freed page goes to the
    back of that list and the next allocation is served from the other
    page. *)
Theorem allocate_free_allocate :
  forall this allocated created created' h index,
    reachable this allocated ->
    heap_in_range this created ->
    result (AllocateHeapSlot mem_ok created this) = Returned (h, index) ->
    let this1 := after (AllocateHeapSlot mem_ok created this) in
    ((exists HeapEntry,
         m_Heaps this1 !! index = Some HeapEntry /\ m_FreeList HeapEntry <> [])
     \/ m_FreeHeaps this1 = [] ->
     exists this2,
       FreeHeapSlot mem_ok this1 h index = Returned this2 /\
       result (AllocateHeapSlot mem_ok created' this2) = Returned (h, index))
    /\
    (forall HeapEntry other rest,
       m_Heaps this1 !! index = Some HeapEntry -> m_FreeList HeapEntry = [] ->
       m_FreeHeaps this1 = other :: rest ->
       exists this2 h',
         FreeHeapSlot mem_ok this1 h index = Returned this2 /\
         result (AllocateHeapSlot mem_ok created' this2) = Returned (h', other) /\
         other <> index).
Proof.
  intros this allocated created created' h index Hreach Hrange Hres.
  apply reachable_inv in Hreach.
  destruct (AllocateHeapSlot_grown _ _ _ _ Hreach Hrange Hres)
    as (grown & front & free_heaps & Hinv & Hfront & Heq).
  rewrite Heq in *.
  exact (take_free_take grown allocated front free_heaps created' h index
           Hinv Hfront Hres).
Qed.

End DescriptorHeapManagerFacts.

Module DescriptorHeapManagerExamples.

Import DescriptorHeapManager DescriptorHeapManagerFacts.

Lemma constructed_reachable N ds :
  0 < ds -> 0 < N -> N * ds < 2 ^ 32 -> reachable (construct N ds) [].
Proof. intros. now apply reach_construct. Qed.

(** A fresh page of two descriptors: the first allocation leaves the page
    with one free descriptor. *)
Lemma allocate_free_allocate_witness :
  exists this2,
    FreeHeapSlot mem_ok
      (after (AllocateHeapSlot mem_ok (Returned 1000) (construct 2 32)))
      1000 0%nat = Returned this2 /\
    result (AllocateHeapSlot mem_ok (Returned 5000) this2)
    = Returned (1000, 0%nat).
Proof.
  refine (proj1 (allocate_free_allocate (construct 2 32) [] (Returned 1000)
                   (Returned 5000) 1000 0%nat _ _ _) _).
  - apply reach_construct; lia.
  - simpl. lia.
  - vm_compute. reflexivity.
  - left. eexists. split; [vm_compute; reflexivity | discriminate].
Defined.

Lemma two_pages_reachable :
  reachable (run (construct 2 32) two_pages_ops) [(5032, 1%nat); (1032, 0%nat)].
Proof.
  pose proof (constructed_reachable 2 32 ltac:(lia) ltac:(lia) ltac:(lia)) as R0.
  pose proof (reach_allocate _ _ (Returned 1000) (1000, 0%nat) R0
                ltac:(vm_compute; split; [discriminate | reflexivity])
                ltac:(vm_compute; reflexivity)) as R1.
  pose proof (reach_allocate _ _ (Returned 1000) (1032, 0%nat) R1
                ltac:(vm_compute; split; [discriminate | reflexivity])
                ltac:(vm_compute; reflexivity)) as R2.
  pose proof (reach_allocate _ _ (Returned 5000) (5000, 1%nat) R2
                ltac:(vm_compute; split; [discriminate | reflexivity])
                ltac:(vm_compute; reflexivity)) as R3.
  pose proof (reach_allocate _ _ (Returned 5000) (5032, 1%nat) R3
                ltac:(vm_compute; split; [discriminate | reflexivity])
                ltac:(vm_compute; reflexivity)) as R4.
  pose proof (reach_free _ _ 1000 0%nat _ R4 ltac:(simpl; tauto) ltac:(vm_compute; reflexivity)) as R5.
  pose proof (reach_free _ _ 5000 1%nat _ R5 ltac:(simpl; tauto) ltac:(vm_compute; reflexivity)) as R6.
  vm_compute. vm_compute in R6. exact R6.
Qed.

(** C7 as stated fails when the allocation exhausts the page at the front
    of the free-page list while another page has a free descriptor: the
    freed page is appended behind the other page. *)
Lemma allocate_free_allocate_other_page :
  let this := run (construct 2 32) two_pages_ops in
  let first := AllocateHeapSlot mem_ok (Returned 9000) this in
  reachable this [(5032, 1%nat); (1032, 0%nat)] /\
  result first = Returned (1000, 0%nat) /\
  exists this2,
    FreeHeapSlot mem_ok (after first) 1000 0%nat = Returned this2 /\
    result (AllocateHeapSlot mem_ok (Returned 9000) this2)
    = Returned (5000, 1%nat).
Proof.
  split; [exact two_pages_reachable |]. split; [vm_compute; reflexivity |].
  eexists. split; [vm_compute; reflexivity | vm_compute; reflexivity].
Qed.

Lemma bridge_reachable : reachable (run (construct 4 32) bridge_ops) [].
Proof.
  pose proof (constructed_reachable 4 32 ltac:(lia) ltac:(lia) ltac:(lia)) as R0.
  pose proof (reach_allocate _ _ (Returned 1000) (1000, 0%nat) R0
                ltac:(vm_compute; split; [discriminate | reflexivity])
                ltac:(vm_compute; reflexivity)) as R1.
  pose proof (reach_allocate _ _ (Returned 1000) (1032, 0%nat) R1
                ltac:(vm_compute; split; [discriminate | reflexivity])
                ltac:(vm_compute; reflexivity)) as R2.
  pose proof (reach_allocate _ _ (Returned 1000) (1064, 0%nat) R2
                ltac:(vm_compute; split; [discriminate | reflexivity])
                ltac:(vm_compute; reflexivity)) as R3.
  pose proof (reach_free _ _ 1000 0%nat _ R3 ltac:(simpl; tauto) ltac:(vm_compute; reflexivity)) as R4.
  pose proof (reach_free _ _ 1064 0%nat _ R4 ltac:(simpl; tauto) ltac:(vm_compute; reflexivity)) as R5.
  pose proof (reach_free _ _ 1032 0%nat _ R5 ltac:(simpl; tauto) ltac:(vm_compute; reflexivity)) as R6.
  vm_compute. vm_compute in R6. exact R6.
Qed.

(** C2. The code at the failing input: with A, B, C allocated from one
    page and A and C free, freeing B extends the range ending at B and stops;
    the range starting at C is left touching it.  The list is still sorted
    and free of overlaps. *)
Theorem FreeHeapSlot_leaves_touching_ranges :
  let this := run (construct 4 32) bridge_ops in
  reachable this [] /\
  map m_FreeList (m_Heaps this) = [[mkRange 1000 1064; mkRange 1064 1128]] /\
  Forall (fun HeapEntry => touching (m_FreeList HeapEntry) = true) (m_Heaps this) /\
  Forall (fun HeapEntry => ascending (m_FreeList HeapEntry)) (m_Heaps this).
Proof.
  split; [exact bridge_reachable |]. split; [vm_compute; reflexivity |].
  split; [vm_compute; repeat constructor |].
  exact (reachable_free_lists_ascending _ _ bridge_reachable).
Qed.

End DescriptorHeapManagerExamples.

(* --------------------------------------------------------------------- *)
(** ** Deferred deletion of suballocations                                *)
(* --------------------------------------------------------------------- *)

Module DeferredDeletionFacts.

Import DeferredDeletion.

Section Facts.

Context {ImmediateContext DeferredWait HeapSuballocationBlock
         ConditionalHeapAllocator : Type}.
Variable MAX_VALID : nat.
Variable ReadyToDestroy_static :
  ImmediateContext -> bool -> list Z -> list DeferredWait -> bool.

Local Abbreviation Block :=
  (RetiredSuballocationBlock DeferredWait HeapSuballocationBlock
     ConditionalHeapAllocator).
Local Abbreviation Manager :=
  (DeferredDeletionQueueManager ImmediateContext DeferredWait
     HeapSuballocationBlock ConditionalHeapAllocator).
Local Abbreviation Request :=
  (AddRequest HeapSuballocationBlock ConditionalHeapAllocator).
Local Abbreviation constructed :=
  (constructed (DeferredWait := DeferredWait) MAX_VALID).
Local Abbreviation built := (built (DeferredWait := DeferredWait) MAX_VALID).
Local Abbreviation add :=
  (AddSuballocationToQueue (ImmediateContext := ImmediateContext)
     MAX_VALID ReadyToDestroy_static).
Local Abbreviation ready := (ReadyToDestroy ReadyToDestroy_static).

Lemma constructed_cases (req : Request) :
  constructed req = if in_range MAX_VALID req then Returned (built req) else Undefined.
Proof.
  destruct req as [b a t id | b a ids]; simpl;
    unfold RetiredSuballocationBlock_of_type, RetiredSuballocationBlock_of_ids,
      RetiredObject_of_type, RetiredObject_of_ids, with_base;
    [destruct (t <? MAX_VALID)%nat | destruct (MAX_VALID <=? length ids)%nat];
    reflexivity.
Qed.

Lemma add_unfold (push_ok : bool) (this : Manager) (req : Request) :
  add push_ok this req
  = after_construction ReadyToDestroy_static push_ok this (constructed req).
Proof. destruct req; reflexivity. Qed.

Lemma add_in_range (push_ok : bool) (this : Manager) (req : Request) :
  in_range MAX_VALID req = true ->
  add push_ok this req
  = enqueue_or_destroy ReadyToDestroy_static push_ok this (built req).
Proof.
  intros Hin. rewrite add_unfold, constructed_cases, Hin. reflexivity.
Qed.

Lemma add_out_of_range (push_ok : bool) (this : Manager) (req : Request) :
  in_range MAX_VALID req = false ->
  add push_ok this req = mkAdded Undefined this [].
Proof.
  intros Hout. rewrite add_unfold, constructed_cases, Hout. reflexivity.
Qed.

(** C9. [AddSuballocationToQueue] (both overloads), for arguments within
    the array of [MAX_VALID] fence values: the call constructs the block;
    when the block is ready to destroy it is destroyed at once (its
    suballocation goes back to the parent allocator) and the queue is left
    as it was; when it is not ready it is pushed at the back of the queue
    and nothing is destroyed, provided [push] gets its memory; when [push]
    throws [bad_alloc] the exception leaves the call, the queue is as it
    was and nothing is destroyed. *)
Theorem AddSuballocationToQueue_fast_path :
  forall (push_ok : bool) (this : Manager) (req : Request),
    in_range MAX_VALID req = true ->
    constructed req = Returned (built req) /\
    (ready (retired (built req)) (m_pParent this) = true ->
       add push_ok this req
       = mkAdded (Returned tt) this
           [CallDeallocate (request_allocator req) (request_block req)])
    /\
    (ready (retired (built req)) (m_pParent this) = false ->
       push_ok = true ->
       add push_ok this req
       = mkAdded (Returned tt)
           (mkManager (m_pParent this)
              (m_DeferredSuballocationDeletionQueue this ++ [built req]))
           [])
    /\
    (ready (retired (built req)) (m_pParent this) = false ->
       push_ok = false ->
       add push_ok this req = mkAdded (Thrown bad_alloc) this []).
Proof.
  intros push_ok this req Hin.
  split; [rewrite constructed_cases, Hin; reflexivity |].
  rewrite (add_in_range push_ok this req Hin). unfold enqueue_or_destroy.
  split; [| split].
  - intros ->. reflexivity.
  - intros -> ->. reflexivity.
  - intros -> ->. reflexivity.
Qed.

Lemma constructed_required (req : Request) (block : Block) :
  constructed req = Returned block ->
  m_completionRequired (retired block) = true /\
  m_deferredWaits (retired block) = [].
Proof.
  rewrite constructed_cases. destruct (in_range MAX_VALID req); [| discriminate].
  intros H. injection H as <-. split; reflexivity.
Qed.

Lemma add_keeps_required (push_ok : bool) (this : Manager) (req : Request) :
  Forall (fun r => m_completionRequired (retired r) = true)
    (m_DeferredSuballocationDeletionQueue this) ->
  Forall (fun r => m_completionRequired (retired r) = true)
    (m_DeferredSuballocationDeletionQueue (after_add (add push_ok this req))).
Proof.
  intros Hq. destruct (in_range MAX_VALID req) eqn:Hin.
  - rewrite add_in_range by assumption. unfold enqueue_or_destroy.
    destruct (negb _); [destruct push_ok |]; simpl; try exact Hq.
    apply Forall_app; split; [exact Hq |]. constructor; [reflexivity | constructor].
  - rewrite add_out_of_range by assumption. exact Hq.
Qed.

Lemma run_keeps_required calls : forall (this final : Manager) made,
  Forall (fun r => m_completionRequired (retired r) = true)
    (m_DeferredSuballocationDeletionQueue this) ->
  run MAX_VALID ReadyToDestroy_static this calls = Returned (final, made) ->
  Forall (fun r => m_completionRequired (retired r) = true)
    (m_DeferredSuballocationDeletionQueue final).
Proof.
  induction calls as [| call calls IH]; intros this final made Hq Hrun.
  - simpl in Hrun. injection Hrun as <- <-. exact Hq.
  - cbn [run] in Hrun.
    pose proof (add_keeps_required (push_ok_at call)
                  (mkManager (context call) (m_DeferredSuballocationDeletionQueue this))
                  (request call) Hq) as Hstep.
    set (step := AddSuballocationToQueue MAX_VALID ReadyToDestroy_static
                   (push_ok_at call) _ (request call)) in *.
    destruct (run MAX_VALID ReadyToDestroy_static (after_add step) calls)
      as [[final' made'] | e |] eqn:Hrest;
      destruct (outcome step); try discriminate;
      injection Hrun as <- <-; exact (IH _ _ _ Hstep Hrest).
Qed.

End Facts.

(** A context that is just the completed fence value of every command list
    type, with three types: one block already completed, one still in
    flight, with and without memory for the queue. *)
Lemma AddSuballocationToQueue_fast_path_witness :
  let ready_at (completed : Z) (_ : bool) (ids : list Z) (_ : list unit) :=
    forallb (fun id => id <=? completed) ids in
  AddSuballocationToQueue 3 ready_at true (construct 5) (AddOfType 11%nat 22%nat 1%nat 4)
  = mkAdded (Returned tt) (construct 5) [CallDeallocate 22%nat 11%nat]
  /\
  AddSuballocationToQueue 3 ready_at true (construct 5) (AddOfType 11%nat 22%nat 1%nat 9)
  = mkAdded (Returned tt) (mkManager 5 [built 3 (AddOfType 11%nat 22%nat 1%nat 9)]) [].
Proof.
  intros ready_at. split.
  - apply (proj1 (proj2 (AddSuballocationToQueue_fast_path 3 ready_at true (construct 5)
                           (AddOfType 11%nat 22%nat 1%nat 4) eq_refl))).
    reflexivity.
  - apply (proj1 (proj2 (proj2 (AddSuballocationToQueue_fast_path 3 ready_at true
                                  (construct 5)
                                  (AddOfType 11%nat 22%nat 1%nat 9) eq_refl)))).
    + reflexivity.
    + reflexivity.
Defined.

(** C9 as stated fails when [push] cannot allocate: the block is not ready
    to destroy, yet it is not pushed onto the queue; [bad_alloc] leaves the
    call and the block is neither queued nor destroyed. *)
Lemma AddSuballocationToQueue_push_throws :
  let ready_at (completed : Z) (_ : bool) (ids : list Z) (_ : list unit) :=
    forallb (fun id => id <=? completed) ids in
  let req := AddOfType 11%nat 22%nat 1%nat 9 in
  let r := AddSuballocationToQueue 3 ready_at false (construct 5) req in
  in_range 3 req = true /\
  constructed (DeferredWait := unit) 3 req = Returned (built 3 req) /\
  ReadyToDestroy ready_at (retired (built 3 req)) 5 = false /\
  outcome r = Thrown bad_alloc /\
  m_DeferredSuballocationDeletionQueue (after_add r) = [] /\
  allocator_calls r = [].
Proof. repeat split. Qed.

End DeferredDeletionFacts.

(* --------------------------------------------------------------------- *)
(** ** Suballocations when the queue is trimmed                           *)
(* --------------------------------------------------------------------- *)

Module DeferredDeletionTeardownFacts.

Import DeferredDeletion DeferredDeletionTeardown DeferredDeletionFacts.

Section Facts.

Context {ExternalFence HeapSuballocationBlock ConditionalHeapAllocator : Type}.

Local Abbreviation Context_ := (ImmediateContext ExternalFence).
Local Abbreviation Wait := (DeferredWait ExternalFence).
Local Abbreviation Object := (RetiredObject Wait).
Local Abbreviation Block :=
  (RetiredSuballocationBlock Wait HeapSuballocationBlock ConditionalHeapAllocator).

Lemma fences_reached_waived (pContext : Context_) ids : forall t,
  fences_reached pContext true t ids = true.
Proof.
  induction ids as [| L ids IH]; intros t; [reflexivity |].
  cbn [fences_reached]. rewrite IH. unfold fence_reached.
  destruct (L >? 0); [now rewrite orb_true_r | reflexivity].
Qed.

Lemma fences_reached_strict (pContext : Context_) ids : forall t,
  fences_reached pContext false t ids = true ->
  forall (i : nat) (L : Z),
    ids !! i = Some L -> 0 < L -> L <= completed pContext (t + i)%nat.
Proof.
  induction ids as [| First ids IH]; intros t Hall i L Hlook Hpos;
    [discriminate |].
  cbn [fences_reached] in Hall. apply andb_prop in Hall. destruct Hall as [Hone Hrest].
  destruct i as [| i]; simpl in Hlook.
  - injection Hlook as ->. unfold fence_reached in Hone.
    destruct (Z.gtb_spec L 0); [| lia].
    rewrite orb_false_r in Hone. apply Z.leb_le in Hone.
    now rewrite Nat.add_0_r.
  - replace (t + S i)%nat with (S t + i)%nat by lia.
    exact (IH (S t) Hrest i L Hlook Hpos).
Qed.

Lemma ready_when_required (pContext : Context_) (flag : bool) (o : Object) :
  m_completionRequired o = true ->
  ready_to_destroy pContext flag o = ready_to_destroy pContext false o.
Proof. intros Hreq. unfold ready_to_destroy. now rewrite Hreq. Qed.

Lemma ready_means_completed (pContext : Context_) (flag : bool) (o : Object) :
  m_completionRequired o = true ->
  ready_to_destroy pContext flag o = true -> fences_completed pContext o.
Proof.
  intros Hreq Hready. unfold ready_to_destroy in Hready. rewrite Hreq in Hready.
  apply andb_prop in Hready. destruct Hready as [Hfences _].
  intros t L Hlook Hpos.
  exact (fences_reached_strict pContext _ 0%nat Hfences t L Hlook Hpos).
Qed.

Lemma trim_queue_required (pContext : Context_) (flag : bool) (queue : list Block) :
  Forall (fun r => m_completionRequired (retired r) = true) queue ->
  trim_queue pContext flag queue = trim_queue pContext false queue /\
  Forall (fun r => fences_completed pContext (retired r))
    (fst (trim_queue pContext flag queue)).
Proof.
  induction 1 as [| head rest Hhead _ IH]; [split; [reflexivity | constructor] |].
  destruct IH as [Heq Hdone]. cbn [trim_queue].
  rewrite (ready_when_required pContext flag _ Hhead).
  destruct (ready_to_destroy pContext false (retired head)) eqn:Hready.
  - rewrite Heq. split; [reflexivity |]. cbn [fst]. constructor.
    + exact (ready_means_completed pContext false _ Hhead Hready).
    + rewrite <- Heq. exact Hdone.
  - split; [reflexivity | constructor].
Qed.

(** After a trim the queue is empty or its head is not ready to destroy. *)
Lemma trim_leaves_unready_head
    (this : DeferredDeletionQueueManager Context_ Wait HeapSuballocationBlock
              ConditionalHeapAllocator) (flag : bool) :
  SuballocationsReadyToBeDestroyed (fst (TrimDeletedObjects this flag)) flag = false.
Proof.
  unfold TrimDeletedObjects, SuballocationsReadyToBeDestroyed.
  cbn [fst m_pParent m_DeferredSuballocationDeletionQueue].
  induction (m_DeferredSuballocationDeletionQueue this) as [| head rest IH];
    [reflexivity |].
  cbn [trim_queue].
  destruct (ready_to_destroy (m_pParent this) flag (retired head)) eqn:Hready;
    cbn [snd]; [exact IH | now rewrite Hready].
Qed.

(** C10. Both constructors of [RetiredSuballocationBlock] pass
    [completionRequired = true] (and no deferred waits), so every block a
    sequence of [AddSuballocationToQueue] calls leaves in the queue requires
    completion.  Trimming such a queue (the trim of the specification) does
    the same whether or not the device is being destroyed, and every block
    it destroys has reached each of its recorded fence values above 0: the
    waiver that applies to [completionRequired = false] objects on teardown,
    which makes them ready whatever their fence values, never applies to a
    suballocation.  The same holds when a block is destroyed at once by
    [AddSuballocationToQueue]. *)
Theorem RetiredSuballocationBlock_completion_required :
  forall (MAX_VALID : nat)
         (ReadyToDestroy_on_add : Context_ -> bool -> list Z -> list Wait -> bool),
    (forall (req : AddRequest HeapSuballocationBlock ConditionalHeapAllocator)
            (block : Block),
        constructed MAX_VALID req = Returned block ->
        m_completionRequired (retired block) = true /\
        m_deferredWaits (retired block) = [])
    /\
    (forall (pContext : Context_) calls final made,
        run MAX_VALID ReadyToDestroy_on_add (construct pContext) calls
        = Returned (final, made) ->
        Forall (fun r : Block => m_completionRequired (retired r) = true)
          (m_DeferredSuballocationDeletionQueue final) /\
        forall (atTrim : Context_) (deviceBeingDestroyed : bool),
          let queue := m_DeferredSuballocationDeletionQueue final in
          TrimDeletedObjects (mkManager atTrim queue) deviceBeingDestroyed
          = TrimDeletedObjects (mkManager atTrim queue) false /\
          Forall (fun r : Block => fences_completed atTrim (retired r))
            (fst (trim_queue atTrim deviceBeingDestroyed queue)))
    /\
    (forall (deviceBeingDestroyed push_ok : bool)
            (this : DeferredDeletionQueueManager Context_ Wait
                      HeapSuballocationBlock ConditionalHeapAllocator)
            (req : AddRequest HeapSuballocationBlock ConditionalHeapAllocator),
        in_range MAX_VALID req = true ->
        allocator_calls
          (AddSuballocationToQueue MAX_VALID
             (ReadyToDestroy_static deviceBeingDestroyed) push_ok this req) <> [] ->
        fences_completed (m_pParent this) (retired (built MAX_VALID req)))
    /\
    (forall (pContext : Context_) (o : Object),
        m_completionRequired o = false ->
        DeferredWaitsSatisfied pContext (m_deferredWaits o) = true ->
        ready_to_destroy pContext true o = true).
Proof.
  intros MAX_VALID ReadyToDestroy_on_add. split; [| split; [| split]].
  - intros req block. apply constructed_required.
  - intros pContext calls final made Hrun.
    assert (Hreq : Forall (fun r : Block => m_completionRequired (retired r) = true)
                     (m_DeferredSuballocationDeletionQueue final)).
    { eapply (run_keeps_required MAX_VALID ReadyToDestroy_on_add calls);
        [| exact Hrun]. constructor. }
    split; [exact Hreq |]. intros atTrim flag queue.
    destruct (trim_queue_required atTrim flag queue Hreq) as [Heq Hdone].
    split; [| exact Hdone].
    unfold TrimDeletedObjects. cbn [m_pParent m_DeferredSuballocationDeletionQueue].
    now rewrite Heq.
  - intros flag push_ok this req Hin Hcalls.
    rewrite (add_in_range MAX_VALID _ push_ok this req Hin) in Hcalls.
    unfold enqueue_or_destroy in Hcalls.
    destruct (ReadyToDestroy (ReadyToDestroy_static flag)
                (retired (built MAX_VALID req)) (m_pParent this)) eqn:Hready;
      [| destruct push_ok; now contradiction Hcalls].
    exact (ready_means_completed (m_pParent this) flag
             (retired (built MAX_VALID req)) eq_refl Hready).
  - intros pContext o Hfree Hwaits. unfold ready_to_destroy.
    rewrite Hfree, Hwaits. cbn [negb andb]. now rewrite fences_reached_waived.
Qed.

End Facts.

(** Three command list types, every fence completed up to 5.  A block that
    recorded 9 for type 1 was queued; trimming while the device is being
    destroyed leaves it in the queue and destroys nothing. *)
Lemma RetiredSuballocationBlock_completion_required_witness :
  let never (_ : ImmediateContext unit) (_ : bool) (_ : list Z)
            (_ : list (DeferredWait unit)) := false in
  let at5 := mkContext (fun _ => 5) (fun _ : unit => 0) in
  let block := built 3 (AddOfType 11%nat 22%nat 1%nat 9) in
  run 3 never (construct at5) [mkQueueCall at5 true (AddOfType 11%nat 22%nat 1%nat 9)]
  = Returned (mkManager at5 [block], []) /\
  TrimDeletedObjects (mkManager at5 [block]) true
  = TrimDeletedObjects (mkManager at5 [block]) false /\
  TrimDeletedObjects (mkManager at5 [block]) true = (mkManager at5 [block], []).
Proof.
  intros never at5 block.
  assert (Hrun : run 3 never (construct at5)
                   [mkQueueCall at5 true (AddOfType 11%nat 22%nat 1%nat 9)]
                 = Returned (mkManager at5 [block], [])) by reflexivity.
  split; [exact Hrun |]. split; [| reflexivity].
  exact (proj1 (proj2 (proj1 (proj2
           (RetiredSuballocationBlock_completion_required 3 never))
           at5 _ _ _ Hrun) at5 true)).
Defined.

End DeferredDeletionTeardownFacts.

(* --------------------------------------------------------------------- *)
(** ** Fence pools over whole histories                                   *)
(* --------------------------------------------------------------------- *)

Module FencePoolHistoryFacts.

Import FencePool FencePoolHistory FencePoolFacts MachineFacts.

Section Facts.

Context {TResourceType CreationArgType : Type}.

Implicit Types (m_Pool rest : @TPool TResourceType) (Head : @TPoolEntry TResourceType).
Implicit Types (create : CreationArgType -> Outcome TResourceType).

Lemma ascending_snoc m_Pool entry :
  fences_ascending m_Pool -> Forall (fun e => fst e <= fst entry) m_Pool ->
  fences_ascending (m_Pool ++ [entry]).
Proof.
  induction m_Pool as [| Head rest IH]; intros Hasc Hall; simpl.
  - split; [constructor | exact I].
  - destruct Hasc as [Hhead Hrest].
    inversion Hall as [| ? ? Hle Hall']; subst.
    split; [| now apply IH].
    apply List.Forall_app. split; [exact Hhead |]. constructor; [exact Hle | constructor].
Qed.

Lemma ascending_tail Head rest :
  fences_ascending (Head :: rest) -> fences_ascending rest.
Proof. intros [_ H]. exact H. Qed.

Lemma retrieve_leaves_suffix m_Pool completed create args :
  after_retrieve (RetrieveFromPool m_Pool completed create args) = m_Pool \/
  exists Head, m_Pool = Head :: after_retrieve (RetrieveFromPool m_Pool completed create args).
Proof.
  unfold RetrieveFromPool. destruct m_Pool as [| Head rest]; [now left |].
  destruct (_ <? _); [now left | right; now exists Head].
Qed.

Lemma trim_leaves_suffix m_Pool T c :
  Trim m_Pool T c = m_Pool \/ exists Head, m_Pool = Head :: Trim m_Pool T c.
Proof.
  unfold Trim. destruct m_Pool as [| Head rest]; [now left |].
  destruct (_ <? _); [now left |].
  destruct (_ >=? _); [right; now exists Head | now left].
Qed.

(** X1. The order of a pool: if the fence values in the pool do not
    decrease from head to tail, they still do not after [ReturnToPool] with a
    fence value that is at least every stored one (whether or not the node
    allocation succeeds), after [RetrieveFromPool], and after [Trim]. *)
Theorem pool_stays_ascending :
  forall m_Pool,
    fences_ascending m_Pool ->
    (forall node_ok Resource FenceValue r,
        Forall (fun entry => fst entry <= FenceValue) m_Pool ->
        ReturnToPool node_ok m_Pool Resource FenceValue = Returned r ->
        fences_ascending (after_return r))
    /\
    (forall completed create args,
        fences_ascending
          (after_retrieve (RetrieveFromPool m_Pool completed create args)))
    /\
    (forall TrimThreshold completed,
        fences_ascending (Trim m_Pool TrimThreshold completed)).
Proof.
  intros m_Pool Hasc. split; [| split].
  - intros [|] Resource FenceValue r Hall Hret; unfold ReturnToPool in Hret;
      simpl in Hret; injection Hret as <-; simpl; [| exact Hasc].
    now apply ascending_snoc.
  - intros completed create args.
    destruct (retrieve_leaves_suffix m_Pool completed create args)
      as [-> | [Head Heq]]; [exact Hasc |].
    rewrite Heq in Hasc. exact (ascending_tail _ _ Hasc).
  - intros T c.
    destruct (trim_leaves_suffix m_Pool T c) as [-> | [Head Heq]]; [exact Hasc |].
    rewrite Heq in Hasc. exact (ascending_tail _ _ Hasc).
Qed.

(** X2. On a pool whose fence values do not decrease, [RetrieveFromPool]
    calls [createNew] only when no pooled entry has completed; when some
    entry has completed it returns the head, whose fence value is the
    smallest in the pool, and calls nothing. *)
Theorem retrieve_prefers_the_eldest_completed :
  forall m_Pool completed create args,
    fences_ascending m_Pool ->
    let r := RetrieveFromPool m_Pool completed create args in
    (calls r <> [] -> Forall (fun entry => completed < fst entry) m_Pool)
    /\
    (forall entry,
        In entry m_Pool -> fst entry <= completed ->
        exists Head rest,
          m_Pool = Head :: rest /\ ret r = Returned (snd Head) /\
          after_retrieve r = rest /\ calls r = [] /\
          Forall (fun other => fst Head <= fst other) m_Pool).
Proof.
  intros m_Pool completed create args Hasc r. subst r.
  destruct m_Pool as [| Head rest]; [split; [constructor | intros ? []] |].
  destruct Hasc as [Hhead _].
  destruct (Z.lt_ge_cases completed (fst Head)) as [Hin | Hdone].
  - rewrite retrieve_in_flight by assumption. split.
    + intros _. constructor; [exact Hin |].
      eapply List.Forall_impl; [| exact Hhead]. simpl. intros e He. lia.
    + intros entry Hentry Hle. exfalso.
      destruct Hentry as [<- | Hentry]; [lia |].
      pose proof (proj1 (List.Forall_forall _ _) Hhead _ Hentry). simpl in *. lia.
  - rewrite retrieve_completed by lia. split; [intros Hc; now contradiction Hc |].
    intros entry _ _. exists Head, rest. repeat split.
    constructor; [lia | exact Hhead].
Qed.

Lemma return_all_appends entries : forall m_Pool,
  return_all m_Pool entries = m_Pool ++ entries.
Proof.
  induction entries as [| [f R] entries IH]; intros m_Pool; simpl.
  - now rewrite app_nil_r.
  - unfold return_all in *. simpl. rewrite IH. now rewrite <- app_assoc.
Qed.

Lemma retrieve_times_completed entries completed create args :
  Forall (fun entry => fst entry <= completed) entries ->
  retrieve_times (length entries) entries completed create args
  = (map (fun entry => Returned (snd entry)) entries, [], []).
Proof.
  induction entries as [| Head rest IH]; intros Hall; [reflexivity |].
  inversion Hall as [| ? ? Hle Hall']; subst.
  cbn [retrieve_times length map]. rewrite retrieve_completed by assumption.
  unfold take_head. cbn [after_retrieve ret calls].
  now rewrite IH.
Qed.

(** X3. First in, first out: returning resources one after the other to an
    empty pool and then retrieving as many times, with a completed value
    that has reached every fence value, gives the resources back in the
    order they were returned, never calls [createNew] and leaves the pool
    empty. *)
Theorem return_then_retrieve_is_fifo :
  forall (entries : list (@TPoolEntry TResourceType)) completed create args,
    Forall (fun entry => fst entry <= completed) entries ->
    retrieve_times (length entries) (return_all [] entries) completed create args
    = (map (fun entry => Returned (snd entry)) entries, [], []).
Proof.
  intros entries completed create args Hall.
  rewrite return_all_appends. simpl. now apply retrieve_times_completed.
Qed.

Lemma Trim_head Head rest T c :
  0 <= fst Head < 2 ^ 64 -> 0 <= c < 2 ^ 64 -> 0 <= T ->
  Trim (Head :: rest) T c = if fst Head + T <=? c then rest else Head :: rest.
Proof.
  intros HH Hc HT. unfold Trim.
  destruct (Z.ltb_spec c (fst Head)) as [Hlt | Hge].
  - destruct (Z.leb_spec (fst Head + T) c); [lia | reflexivity].
  - rewrite wrap64_small by lia.
    destruct (Z.geb_spec (c - fst Head) T), (Z.leb_spec (fst Head + T) c);
      try reflexivity; lia.
Qed.

Lemma trim_times_nil count T c :
  trim_times count ([] : @TPool TResourceType) T c = [].
Proof. induction count; [reflexivity | exact IHcount]. Qed.

Lemma trim_times_stuck count Head rest T c :
  0 <= fst Head < 2 ^ 64 -> 0 <= c < 2 ^ 64 -> 0 <= T ->
  c < fst Head + T ->
  trim_times count (Head :: rest) T c = Head :: rest.
Proof.
  intros HH Hc HT Hlt. induction count as [| count IH]; [reflexivity |].
  cbn [trim_times]. rewrite Trim_head by assumption.
  destruct (Z.leb_spec (fst Head + T) c); [lia | exact IH].
Qed.

(** X4. Pumping [Trim]: with 64-bit fence values and threshold, [count]
    calls of [Trim] remove a prefix of the pool of at most [count] entries,
    each of which completed at least [TrimThreshold] fence values ago; if
    fewer than [count] were removed, the entry now at the head (if any) is
    younger than that.  In particular an entry still in flight is never
    released. *)
Theorem Trim_releases_only_the_aged_prefix :
  forall count m_Pool TrimThreshold completed,
    Forall (fun entry => 0 <= fst entry < 2 ^ 64) m_Pool ->
    0 <= completed < 2 ^ 64 -> 0 <= TrimThreshold ->
    exists released,
      m_Pool = released ++ trim_times count m_Pool TrimThreshold completed /\
      (length released <= count)%nat /\
      Forall (fun entry => fst entry + TrimThreshold <= completed) released /\
      ((length released < count)%nat ->
       match trim_times count m_Pool TrimThreshold completed with
       | [] => True
       | Head :: _ => completed < fst Head + TrimThreshold
       end).
Proof.
  induction count as [| count IH]; intros m_Pool T c Hall Hc HT.
  - exists []. repeat split; [simpl; lia | constructor | simpl; lia].
  - destruct m_Pool as [| Head rest].
    + exists []. cbn [trim_times Trim]. rewrite trim_times_nil.
      repeat split; [simpl; lia | constructor].
    + inversion Hall as [| ? ? HH Hrest]; subst.
      cbn [trim_times]. rewrite Trim_head by assumption.
      destruct (Z.leb_spec (fst Head + T) c) as [Hold | Hyoung].
      * destruct (IH rest T c Hrest Hc HT) as (released & Heq & Hlen & Hrel & Hnext).
        exists (Head :: released). split; [simpl; now rewrite <- Heq |].
        split; [simpl; lia |]. split; [now constructor |].
        intros Hfew. apply Hnext. simpl in Hfew. lia.
      * rewrite trim_times_stuck by assumption.
        exists []. repeat split; [simpl; lia | constructor | intros _; exact Hyoung].
Qed.

End Facts.

(** A pool of three int-valued resources. *)
Example Trim_releases_only_the_aged_prefix_witness :
  exists released,
    [(10, 1%nat); (20, 2%nat); (45, 3%nat)]
    = released ++ trim_times 5 [(10, 1%nat); (20, 2%nat); (45, 3%nat)] 8 50 /\
    (length released <= 5)%nat /\
    Forall (fun entry => fst entry + 8 <= 50) released /\
    ((length released < 5)%nat ->
     match trim_times 5 [(10, 1%nat); (20, 2%nat); (45, 3%nat)] 8 50 with
     | [] => True
     | Head :: _ => 50 < fst Head + 8
     end).
Proof.
  apply (Trim_releases_only_the_aged_prefix 5 [(10, 1%nat); (20, 2%nat); (45, 3%nat)] 8 50).
  - repeat constructor; simpl; lia.
  - lia.
  - lia.
Defined.

Example pool_stays_ascending_witness :
  fences_ascending (after_retrieve (RetrieveFromPool [(10, 1%nat); (20, 2%nat)] 15 (fun _ : unit => Thrown bad_alloc) tt)).
Proof.
  refine (proj1 (proj2 (pool_stays_ascending [(10, 1%nat); (20, 2%nat)] _)) 15 _ tt).
  simpl. repeat split; repeat constructor; simpl; lia.
Defined.

Example retrieve_prefers_the_eldest_completed_witness :
  let r := RetrieveFromPool [(10, 1%nat); (20, 2%nat)] 15 (fun _ : unit => Returned 7%nat) tt in
  (calls r <> [] -> Forall (fun entry => 15 < fst entry) [(10, 1%nat); (20, 2%nat)])
  /\
  (forall entry,
      In entry [(10, 1%nat); (20, 2%nat)] -> fst entry <= 15 ->
      exists Head rest,
        [(10, 1%nat); (20, 2%nat)] = Head :: rest /\ ret r = Returned (snd Head) /\
        after_retrieve r = rest /\ calls r = [] /\
        Forall (fun other => fst Head <= fst other) [(10, 1%nat); (20, 2%nat)]).
Proof.
  apply (retrieve_prefers_the_eldest_completed [(10, 1%nat); (20, 2%nat)] 15
           (fun _ : unit => Returned 7%nat) tt).
  simpl. repeat split; repeat constructor; simpl; lia.
Defined.

Example return_then_retrieve_is_fifo_witness :
  retrieve_times 2 (return_all [] [(10, 1%nat); (20, 2%nat)]) 20
    (fun _ : unit => Thrown bad_alloc) tt
  = ([Returned 1%nat; Returned 2%nat], [], []).
Proof.
  apply (return_then_retrieve_is_fifo [(10, 1%nat); (20, 2%nat)] 20
           (fun _ : unit => Thrown bad_alloc) tt).
  repeat constructor; simpl; lia.
Defined.

End FencePoolHistoryFacts.

(* --------------------------------------------------------------------- *)
(** ** CBoundedFencePool and CMultiLevelPool                              *)
(* --------------------------------------------------------------------- *)

Module BoundedFencePoolMoreFacts.

Import FencePool BoundedFencePool.

Section Facts.

Context {TResourceType CreationArgType : Type}.

Implicit Types (this : CBoundedFencePool TResourceType).
Implicit Types (create : CreationArgType -> Outcome TResourceType).
Implicit Types (wait : Z -> Outcome unit).

(** X5. A bounded pool that holds fewer entries than [m_MaxInFlightDepth]
    (as every pool built with the default depth [UINT_MAX] does) behaves
    exactly like [CFencePool::RetrieveFromPool]: same result, same pool
    afterwards, and the wait callback is never called. *)
Theorem bounded_pool_below_depth_is_a_fence_pool :
  forall this completed wait create args,
    Z.of_nat (length (m_Pool this)) < m_MaxInFlightDepth this ->
    BoundedFencePool.RetrieveFromPool this completed wait create args
    = FencePool.RetrieveFromPool (m_Pool this) completed create args.
Proof.
  intros this completed wait create args Hdepth.
  unfold BoundedFencePool.RetrieveFromPool, FencePool.RetrieveFromPool.
  destruct (m_Pool this) as [| Head rest] eqn:Hpool; [reflexivity |].
  destruct (completed <? fst Head); [| reflexivity].
  destruct (Z.ltb_spec (Z.of_nat (length (Head :: rest))) (m_MaxInFlightDepth this));
    [reflexivity | lia].
Qed.

(** X6. The depth bounds the pool: when a retrieval from a bounded pool
    returns a resource and that resource is handed back with
    [ReturnToPool], the pool holds at most [max(m_MaxInFlightDepth, 1)]
    entries afterwards if it did before. *)
Theorem bounded_pool_stays_within_depth :
  forall this completed wait create args Resource node_ok FenceValue p,
    Z.of_nat (length (m_Pool this)) <= Z.max (m_MaxInFlightDepth this) 1 ->
    ret (BoundedFencePool.RetrieveFromPool this completed wait create args)
    = Returned Resource ->
    ReturnToPool node_ok
      (after_retrieve (BoundedFencePool.RetrieveFromPool this completed wait create args))
      Resource FenceValue = Returned p ->
    Z.of_nat (length (after_return p)) <= Z.max (m_MaxInFlightDepth this) 1.
Proof.
  intros this completed wait create args Resource node_ok FenceValue p Hlen Hret Hback.
  assert (Hafter :
    Z.of_nat (length (after_retrieve
      (BoundedFencePool.RetrieveFromPool this completed wait create args))) + 1
    <= Z.max (m_MaxInFlightDepth this) 1).
  { revert Hret. unfold BoundedFencePool.RetrieveFromPool.
    destruct (m_Pool this) as [| Head rest] eqn:Hpool; [simpl; lia |].
    simpl in Hlen.
    destruct (completed <? fst Head).
    - destruct (Z.ltb_spec (Z.of_nat (length (Head :: rest))) (m_MaxInFlightDepth this))
        as [Hroom | Hfull].
      + simpl in *. lia.
      + destruct (wait (fst Head)); simpl; try discriminate. lia.
    - simpl. lia. }
  destruct node_ok; unfold ReturnToPool in Hback; simpl in Hback;
    injection Hback as <-; simpl; [| lia].
  rewrite length_app. simpl. lia.
Qed.

End Facts.

Example bounded_pool_below_depth_is_a_fence_pool_witness :
  BoundedFencePool.RetrieveFromPool (mkBounded [(10, 1%nat); (20, 2%nat)] 3) 5
    (fun _ => Returned tt) (fun _ : unit => Returned 9%nat) tt
  = FencePool.RetrieveFromPool [(10, 1%nat); (20, 2%nat)] 5
      (fun _ : unit => Returned 9%nat) tt.
Proof.
  apply (bounded_pool_below_depth_is_a_fence_pool
           (mkBounded [(10, 1%nat); (20, 2%nat)] 3) 5 (fun _ => Returned tt)
           (fun _ : unit => Returned 9%nat) tt).
  simpl. lia.
Defined.

Example bounded_pool_stays_within_depth_witness :
  Z.of_nat (length [(20, 2%nat); (30, 1%nat)]) <= Z.max 2 1.
Proof.
  apply (bounded_pool_stays_within_depth
           (mkBounded [(10, 1%nat); (20, 2%nat)] 2) 5
           (fun _ => Returned tt) (fun _ : unit => Returned 9%nat) tt
           1%nat true 30 (mkReturned [(20, 2%nat); (30, 1%nat)] None)).
  - simpl. lia.
  - reflexivity.
  - reflexivity.
Defined.

End BoundedFencePoolMoreFacts.

Module MultiLevelPoolFacts.

Import MachineFacts FencePool MultiLevelPool.

Section Facts.

Context {TResourceType : Type}.

Variable M : Z.
Hypothesis M_positive : 0 < M.

Implicit Types (this : CMultiLevelPool TResourceType).
Implicit Types (create : Z -> Outcome TResourceType).

Lemma IndexFromSize_range Size : 0 <= IndexFromSize M Size < 2 ^ 32.
Proof.
  unfold IndexFromSize. destruct (Size =? 0); [lia | apply wrap32_range].
Qed.

Lemma IndexFromSize_small Size :
  0 < Size <= 2 ^ 32 -> IndexFromSize M Size = (Size - 1) / M.
Proof.
  intros HS. unfold IndexFromSize.
  destruct (Z.eqb_spec Size 0); [lia |].
  rewrite wrap64_small by lia.
  apply wrap32_small. split; [apply Z.div_pos; lia |].
  apply Z.div_lt_upper_bound; nia.
Qed.

(** X7. Bucket sizes: for a request of [Size] bytes, [0 < Size] and
    [Size + ResourceSizeMultiple <= 2^32], the size handed to [createNew] is
    the least multiple of [ResourceSizeMultiple] that is at least [Size],
    and a resource of that size falls into the same bucket as the
    request. *)
Theorem AlignedSize_is_the_least_multiple :
  forall Size,
    0 < Size -> Size + M <= 2 ^ 32 ->
    let aligned := AlignedSize M (IndexFromSize M Size) in
    Size <= aligned < Size + M /\
    aligned mod M = 0 /\
    IndexFromSize M aligned = IndexFromSize M Size.
Proof.
  intros Size Hpos Hfit aligned. subst aligned.
  rewrite (IndexFromSize_small Size) by lia.
  pose proof (Z.div_mod (Size - 1) M ltac:(lia)) as Hdm.
  pose proof (Z.mod_pos_bound (Size - 1) M M_positive) as Hr.
  set (q := (Size - 1) / M) in *. set (r := (Size - 1) mod M) in *.
  assert (Hq : 0 <= q) by (apply Z.div_pos; lia).
  assert (Hal : AlignedSize M q = (q + 1) * M).
  { unfold AlignedSize.
    assert (q + 1 < 2 ^ 32) by nia.
    rewrite (wrap32_small (q + 1)) by lia.
    rewrite wrap64_small by nia. apply wrap32_small. nia. }
  rewrite Hal. split; [nia |]. split; [apply Z_mod_mult |].
  rewrite IndexFromSize_small by nia.
  symmetry. apply (Z.div_unique _ _ q (M - 1)); lia.
Qed.

Lemma resize_grown n (pools : list (@TPool TResourceType)) j :
  (length pools <= n)%nat ->
  default [] (resize n pools !! j) = default [] (pools !! j).
Proof.
  unfold resize, TPool, TPoolEntry in *. intros Hn. rewrite take_ge by lia.
  destruct (Nat.lt_ge_cases j (length pools)) as [Hj | Hj].
  - now rewrite lookup_app_l.
  - rewrite lookup_app_r by lia. rewrite (lookup_ge_None_2 pools j) by lia.
    destruct (replicate _ _ !! _) eqn:E;
      [| reflexivity].
    apply lookup_replicate in E. destruct E as [-> _]. reflexivity.
Qed.

Lemma resize_length n (pools : list (@TPool TResourceType)) :
  (length pools <= n)%nat -> length (resize n pools) = n.
Proof.
  unfold resize, TPool, TPoolEntry in *. intros Hn. rewrite take_ge by lia.
  rewrite length_app, length_replicate. lia.
Qed.

Lemma bucket_insert (pools : list (@TPool TResourceType)) i j pool T :
  (i < length pools)%nat ->
  bucket (mkMultiLevelPool (<[i := pool]> pools) T) j
  = if Nat.eq_dec j i then pool else default [] (pools !! j).
Proof.
  unfold bucket, TPool, TPoolEntry in *. intros Hi. simpl.
  destruct (Nat.eq_dec j i) as [-> | Hne].
  - now rewrite list_lookup_insert_eq.
  - now rewrite list_lookup_insert_ne by congruence.
Qed.

Lemma ReturnToPool_bucket :
  forall node_ok this Size Resource FenceValue,
    IndexFromSize M Size < 2 ^ 32 - 1 ->
    let index := Z.to_nat (IndexFromSize M Size) in
    exists this' r,
      MultiLevelPool.ReturnToPool M true node_ok this Size Resource FenceValue
      = Returned (this', dropped r) /\
      FencePool.ReturnToPool node_ok (bucket this index) Resource FenceValue
      = Returned r /\
      bucket this' index = after_return r /\
      (forall other, other <> index -> bucket this' other = bucket this other) /\
      length (m_MultiPool this') = Nat.max (length (m_MultiPool this)) (S index) /\
      m_TrimThreshold this' = m_TrimThreshold this.
Proof.
  intros node_ok this Size Resource FenceValue Hidx index.
  pose proof (IndexFromSize_range Size) as Hrange.
  unfold MultiLevelPool.ReturnToPool. cbv zeta. cbn [negb].
  rewrite andb_false_r. cbv iota. fold index.
  set (pools :=
         if IndexFromSize M Size >=? Z.of_nat (length (m_MultiPool this))
         then resize (Z.to_nat (wrap32 (IndexFromSize M Size + 1))) (m_MultiPool this)
         else m_MultiPool this).
  assert (Hsucc : Z.to_nat (wrap32 (IndexFromSize M Size + 1)) = S index).
  { rewrite wrap32_small by lia. unfold index. lia. }
  assert (Hpools :
    (forall j, default [] (pools !! j) = default [] (m_MultiPool this !! j)) /\
    length pools = Nat.max (length (m_MultiPool this)) (S index) /\
    (index < length pools)%nat).
  { unfold pools.
    destruct (Z.geb_spec (IndexFromSize M Size) (Z.of_nat (length (m_MultiPool this))))
      as [Hgrow | Hin].
    - rewrite Hsucc.
      assert (length (m_MultiPool this) <= S index)%nat by (unfold index; lia).
      split; [intros j; now apply resize_grown |].
      rewrite resize_length by assumption. lia.
    - assert (index < length (m_MultiPool this))%nat by (unfold index; lia).
      split; [reflexivity | lia]. }
  destruct Hpools as (Hsame & Hlen & Hin).
  destruct (@lookup _ _ _ _ index pools) as [pool |] eqn:Hpool;
    [| apply lookup_ge_None_1 in Hpool; lia].
  assert (Hbucket : bucket this index = pool).
  { exact (eq_trans (eq_sym (Hsame index)) (f_equal (default []) Hpool)). }
  rewrite Hbucket.
  destruct node_ok; unfold FencePool.ReturnToPool; simpl.
  - eexists _, (mkReturned (pool ++ [(FenceValue, Resource)]) None).
    split; [reflexivity |]. split; [reflexivity |].
    split; [rewrite bucket_insert by assumption; now destruct (Nat.eq_dec index index) |].
    split; [| split; [simpl; now rewrite length_insert | reflexivity]].
    intros other Hother. rewrite bucket_insert by assumption.
    destruct (Nat.eq_dec other index); [contradiction | apply Hsame].
  - eexists _, (mkReturned pool (Some Resource)).
    split; [reflexivity |]. split; [reflexivity |].
    split; [rewrite bucket_insert by assumption; now destruct (Nat.eq_dec index index) |].
    split; [| split; [simpl; now rewrite length_insert | reflexivity]].
    intros other Hother. rewrite bucket_insert by assumption.
    destruct (Nat.eq_dec other index); [contradiction | apply Hsame].
Qed.

(** X8. [CMultiLevelPool::ReturnToPool] acts on one bucket: for a size
    whose bucket index is below [UINT_MAX], and with the vector able to
    grow, the call returns; the bucket of the size has been handed the
    resource exactly as [CFencePool::ReturnToPool] would, every other bucket
    holds what it held, the vector has grown just enough to contain the
    bucket, and the trim threshold is unchanged. *)
Theorem multi_ReturnToPool_acts_on_one_bucket :
  forall node_ok this Size Resource FenceValue,
    IndexFromSize M Size < 2 ^ 32 - 1 ->
    let index := Z.to_nat (IndexFromSize M Size) in
    exists this' r,
      MultiLevelPool.ReturnToPool M true node_ok this Size Resource FenceValue
      = Returned (this', dropped r) /\
      FencePool.ReturnToPool node_ok (bucket this index) Resource FenceValue
      = Returned r /\
      bucket this' index = after_return r /\
      (forall other, other <> index -> bucket this' other = bucket this other) /\
      length (m_MultiPool this') = Nat.max (length (m_MultiPool this)) (S index) /\
      m_TrimThreshold this' = m_TrimThreshold this.
Proof. exact ReturnToPool_bucket. Qed.

(** X9. The last bucket: for a size whose bucket index is [UINT_MAX],
    [PoolIndex + 1] wraps to 0, the vector is resized to no buckets, and
    indexing it is undefined. *)
Theorem multi_ReturnToPool_last_bucket_is_undefined :
  forall node_ok this Size (Resource : TResourceType) FenceValue,
    IndexFromSize M Size = 2 ^ 32 - 1 ->
    Z.of_nat (length (m_MultiPool this)) <= 2 ^ 32 - 1 ->
    MultiLevelPool.ReturnToPool M true node_ok this Size Resource FenceValue
    = Undefined.
Proof.
  intros node_ok this Size Resource FenceValue Hidx Hlen.
  unfold MultiLevelPool.ReturnToPool. cbv zeta. cbn [negb].
  rewrite andb_false_r, Hidx. cbv iota.
  destruct (Z.geb_spec (2 ^ 32 - 1) (Z.of_nat (length (m_MultiPool this)))); [| lia].
  replace (wrap32 (2 ^ 32 - 1 + 1)) with 0 by reflexivity.
  reflexivity.
Qed.

Lemma RetrieveFromPool_bucket :
  forall this Size completed create,
    let index := Z.to_nat (IndexFromSize M Size) in
    let aligned := AlignedSize M (IndexFromSize M Size) in
    let r := MultiLevelPool.RetrieveFromPool M this Size completed create in
    let b := FencePool.RetrieveFromPool (bucket this index) completed create aligned in
    MultiLevelPool.ret r = FencePool.ret b /\
    MultiLevelPool.calls r = FencePool.calls b /\
    bucket (MultiLevelPool.after_retrieve r) index = FencePool.after_retrieve b /\
    (forall other, other <> index ->
       bucket (MultiLevelPool.after_retrieve r) other = bucket this other) /\
    length (m_MultiPool (MultiLevelPool.after_retrieve r)) = length (m_MultiPool this).
Proof.
  intros this Size completed create index aligned r b. subst r b.
  unfold MultiLevelPool.RetrieveFromPool. fold index. fold aligned.
  destruct (m_MultiPool this !! index) as [pool |] eqn:Hpool.
  - assert (Hb : bucket this index = pool) by exact (f_equal (default []) Hpool).
    rewrite Hb. simpl.
    pose proof (lookup_lt_Some _ _ _ Hpool) as Hin.
    split; [reflexivity |]. split; [reflexivity |].
    split; [rewrite bucket_insert by assumption; now destruct (Nat.eq_dec index index) |].
    split; [| now rewrite length_insert].
    intros other Hother. rewrite bucket_insert by assumption.
    destruct (Nat.eq_dec other index); [contradiction | reflexivity].
  - assert (Hb : bucket this index = []) by exact (f_equal (default []) Hpool).
    rewrite Hb. simpl. repeat split. exact Hb.
Qed.

(** X10. [CMultiLevelPool::RetrieveFromPool] is [CFencePool::RetrieveFromPool]
    on the bucket of the size, called with the aligned size, a bucket the
    vector does not reach counting as an empty pool: same result, same
    callback calls, the bucket afterwards as the fence pool leaves it, every
    other bucket and the length of the vector unchanged. *)
Theorem multi_RetrieveFromPool_acts_on_one_bucket :
  forall this Size completed create,
    let index := Z.to_nat (IndexFromSize M Size) in
    let aligned := AlignedSize M (IndexFromSize M Size) in
    let r := MultiLevelPool.RetrieveFromPool M this Size completed create in
    let b := FencePool.RetrieveFromPool (bucket this index) completed create aligned in
    MultiLevelPool.ret r = FencePool.ret b /\
    MultiLevelPool.calls r = FencePool.calls b /\
    bucket (MultiLevelPool.after_retrieve r) index = FencePool.after_retrieve b /\
    (forall other, other <> index ->
       bucket (MultiLevelPool.after_retrieve r) other = bucket this other) /\
    length (m_MultiPool (MultiLevelPool.after_retrieve r)) = length (m_MultiPool this).
Proof. exact RetrieveFromPool_bucket. Qed.

(** X11. Round trip through a bucket: a resource returned for [Size] into
    an empty bucket is what the next retrieval for any size of the same
    bucket gives back once its fence value has completed, without a call of
    [createNew], and the bucket is empty again. *)
Theorem multi_return_then_retrieve :
  forall this Size Size' Resource FenceValue completed create,
    IndexFromSize M Size < 2 ^ 32 - 1 ->
    IndexFromSize M Size' = IndexFromSize M Size ->
    bucket this (Z.to_nat (IndexFromSize M Size)) = [] ->
    FenceValue <= completed ->
    exists this',
      MultiLevelPool.ReturnToPool M true true this Size Resource FenceValue
      = Returned (this', None) /\
      let r := MultiLevelPool.RetrieveFromPool M this' Size' completed create in
      MultiLevelPool.ret r = Returned Resource /\
      MultiLevelPool.calls r = [] /\
      bucket (MultiLevelPool.after_retrieve r) (Z.to_nat (IndexFromSize M Size)) = [].
Proof.
  intros this Size Size' Resource FenceValue completed create Hidx Hsame Hempty Hdone.
  destruct (ReturnToPool_bucket true this Size Resource FenceValue Hidx)
    as (this' & r0 & Hret & Hpool & Hbucket & _).
  rewrite Hempty in Hpool. unfold FencePool.ReturnToPool in Hpool. simpl in Hpool.
  injection Hpool as <-. simpl in Hret, Hbucket.
  exists this'. split; [exact Hret |].
  destruct (RetrieveFromPool_bucket this' Size' completed create)
    as (Hr & Hc & Ha & _).
  rewrite Hsame in Hr, Hc, Ha. rewrite Hbucket in Hr, Hc, Ha.
  rewrite FencePoolFacts.retrieve_completed in Hr, Hc, Ha by (simpl; lia).
  cbv zeta. rewrite Hr, Hc, Ha. repeat split.
Qed.

End Facts.

(** X12. [TDynamicBufferPool] (64 KiB buckets) and the 32-bit aligned size:
    for every request above [2^32 - 65536] bytes the size handed to
    [createNew] is smaller than the request. *)
Theorem TDynamicBufferPool_large_request_is_truncated :
  forall Size,
    2 ^ 32 - 65536 < Size < 2 ^ 64 ->
    AlignedSize TDynamicBufferPool_multiple
      (IndexFromSize TDynamicBufferPool_multiple Size) < Size.
Proof.
  intros Size HS. unfold TDynamicBufferPool_multiple.
  destruct (Z.le_gt_cases Size (2 ^ 32)) as [Hle | Hgt].
  - rewrite IndexFromSize_small by lia.
    replace ((Size - 1) / (64 * 1024)) with 65535
      by (apply (Z.div_unique _ _ 65535 (Size - 1 - 65535 * 65536)); lia).
    replace (AlignedSize (64 * 1024) 65535) with 0 by reflexivity. lia.
  - pose proof (wrap32_range
      (wrap64 (wrap32 (IndexFromSize (64 * 1024) Size + 1) * (64 * 1024)))).
    unfold AlignedSize. lia.
Qed.

Example AlignedSize_is_the_least_multiple_witness :
  let aligned := AlignedSize 65536 (IndexFromSize 65536 70000) in
  70000 <= aligned < 70000 + 65536 /\
  aligned mod 65536 = 0 /\
  IndexFromSize 65536 aligned = IndexFromSize 65536 70000.
Proof.
  apply (AlignedSize_is_the_least_multiple 65536 (eq_refl : 0 < 65536) 70000); lia.
Defined.

Example multi_ReturnToPool_acts_on_one_bucket_witness :
  let this := construct (TResourceType := nat) 4 in
  let index := Z.to_nat (IndexFromSize 65536 70000) in
  exists this' r,
    MultiLevelPool.ReturnToPool 65536 true true this 70000 7%nat 12
    = Returned (this', dropped r) /\
    FencePool.ReturnToPool true (bucket this index) 7%nat 12 = Returned r /\
    bucket this' index = after_return r /\
    (forall other, other <> index -> bucket this' other = bucket this other) /\
    length (m_MultiPool this') = Nat.max (length (m_MultiPool this)) (S index) /\
    m_TrimThreshold this' = m_TrimThreshold this.
Proof.
  apply (multi_ReturnToPool_acts_on_one_bucket 65536 true
           (construct 4) 70000 7%nat 12).
  vm_compute. reflexivity.
Defined.

Example multi_ReturnToPool_last_bucket_is_undefined_witness :
  MultiLevelPool.ReturnToPool 65536 true true (construct (TResourceType := nat) 4)
    (2 ^ 48) 7%nat 12 = Undefined.
Proof.
  apply (multi_ReturnToPool_last_bucket_is_undefined 65536 true (construct 4)
           (2 ^ 48) 7%nat 12).
  - vm_compute. reflexivity.
  - vm_compute. discriminate.
Defined.

Example multi_return_then_retrieve_witness :
  exists this',
    MultiLevelPool.ReturnToPool 65536 true true (construct (TResourceType := nat) 4)
      70000 7%nat 12 = Returned (this', None) /\
    let r := MultiLevelPool.RetrieveFromPool 65536 this' 131072 12
               (fun _ => Thrown com_error) in
    MultiLevelPool.ret r = Returned 7%nat /\
    MultiLevelPool.calls r = [] /\
    bucket (MultiLevelPool.after_retrieve r) (Z.to_nat (IndexFromSize 65536 70000)) = [].
Proof.
  apply (multi_return_then_retrieve 65536 (construct 4) 70000 131072
           7%nat 12 12 (fun _ => Thrown com_error)).
  - vm_compute. reflexivity.
  - vm_compute. reflexivity.
  - reflexivity.
  - lia.
Defined.

Example TDynamicBufferPool_large_request_is_truncated_witness :
  AlignedSize TDynamicBufferPool_multiple
    (IndexFromSize TDynamicBufferPool_multiple (2 ^ 32)) < 2 ^ 32.
Proof.
  apply (TDynamicBufferPool_large_request_is_truncated (2 ^ 32)). lia.
Defined.

End MultiLevelPoolFacts.

(* --------------------------------------------------------------------- *)
(** ** CFencedRingBuffer: retirement and placement                        *)
(* --------------------------------------------------------------------- *)

Module FencedRingBufferMoreFacts.

Import MachineFacts FencedRingBuffer FencedRingBufferFacts.

Local Abbreviation fence_of this i := (m_FenceValue (ledger_at (m_Ledger this) i)).

Lemma Deallocate_entry_eq c this i :
  in_ledger i ->
  Deallocate_entry c this i
  = if live this i && (fence_of this i <=? c)
    then mkRing (wrap64 (m_Head this + m_NumAllocations (ledger_at (m_Ledger this) i)))
           (m_Tail this) (m_Size this) (ledger_set (m_Ledger this) i empty_entry)
           (Z.land (m_LedgerMask this) (wrap32 (Z.lnot (2 ^ i))))
           (m_LedgerIndex this)
    else this.
Proof.
  intros Hi. assert (Hi' : 0 <= i < 16) by exact Hi.
  unfold Deallocate_entry.
  rewrite shiftl_one, (wrap32_small (2 ^ i)) by (try apply pow2_bit_range; lia).
  rewrite land_bit_is_zero, negb_involutive by lia.
  reflexivity.
Qed.

(** What one iteration does to every slot. *)
Lemma Deallocate_entry_slots c this i :
  in_ledger i -> length (m_Ledger this) = Z.to_nat cLedgerSize ->
  let this' := Deallocate_entry c this i in
  length (m_Ledger this') = Z.to_nat cLedgerSize /\
  m_Tail this' = m_Tail this /\ m_Size this' = m_Size this /\
  m_LedgerIndex this' = m_LedgerIndex this /\
  forall j, in_ledger j ->
    live this' j
    = live this j && negb ((i =? j) && (fence_of this i <=? c)) /\
    (live this' j = true -> ledger_at (m_Ledger this') j = ledger_at (m_Ledger this) j).
Proof.
  intros Hi Hlen this'. subst this'. rewrite Deallocate_entry_eq by assumption.
  destruct (live this i && (fence_of this i <=? c)) eqn:Hret.
  - apply andb_prop in Hret. destruct Hret as [Hlive Hdone].
    cbn [m_Ledger m_Tail m_Size m_LedgerIndex].
    split; [now rewrite ledger_set_length |].
    split; [reflexivity |]. split; [reflexivity |]. split; [reflexivity |].
    intros j Hj.
    match goal with
    | |- live ?x j = _ /\ _ =>
        assert (Hl : live x j = live this j && negb (i =? j))
          by (unfold live; cbn [m_LedgerMask];
              apply testbit_clear_bit; [exact Hi | exact Hj])
    end.
    rewrite Hl, Hdone, andb_true_r. split; [reflexivity |].
    intros Hj'. apply andb_prop in Hj'. destruct Hj' as [_ Hne].
    cbn [m_Ledger]. apply ledger_at_set_ne; [apply Hi | apply Hj |].
    destruct (Z.eqb_spec i j); [discriminate | assumption].
  - split; [exact Hlen |].
    split; [reflexivity |]. split; [reflexivity |]. split; [reflexivity |].
    intros j Hj. split; [| reflexivity].
    destruct (Z.eqb_spec i j) as [<- | Hne]; cbn [andb negb].
    + destruct (live this i); [| reflexivity]. cbn [andb] in Hret.
      rewrite Hret. reflexivity.
    + now rewrite andb_true_r.
Qed.

Lemma live_of_empty_mask this j : m_LedgerMask this = 0 -> live this j = false.
Proof. intros H. unfold live. rewrite H. apply Z.bits_0. Qed.

(** The loop never brings a slot to life, never touches an entry it leaves
    live, retires every completed slot it visits and keeps every other. *)
Lemma Deallocate_loop_slots c indices : forall this,
  Forall in_ledger indices ->
  length (m_Ledger this) = Z.to_nat cLedgerSize ->
  let this' := Deallocate_loop c this indices in
  length (m_Ledger this') = Z.to_nat cLedgerSize /\
  m_Tail this' = m_Tail this /\ m_Size this' = m_Size this /\
  m_LedgerIndex this' = m_LedgerIndex this /\
  forall j, in_ledger j ->
    (live this' j = true ->
     live this j = true /\
     ledger_at (m_Ledger this') j = ledger_at (m_Ledger this) j /\
     (In j indices -> c < fence_of this j)) /\
    (live this j = true -> c < fence_of this j -> live this' j = true).
Proof.
  induction indices as [| i indices IH]; intros this Hall Hlen; cbn zeta.
  - simpl. split; [exact Hlen |].
    split; [reflexivity |]. split; [reflexivity |]. split; [reflexivity |].
    intros j Hj. split; [| intros Hlive _; exact Hlive].
    intros Hlive. split; [exact Hlive |]. split; [reflexivity | intros []].
  - inversion Hall as [| ? ? Hi Hrest]; subst.
    destruct (Deallocate_entry_slots c this i Hi Hlen)
      as (Hlen1 & Ht1 & Hs1 & Hx1 & Hslots1).
    cbn [Deallocate_loop].
    set (this1 := Deallocate_entry c this i) in *.
    assert (Hone : forall j, in_ledger j ->
      (live this1 j = true ->
        live this j = true /\
        ledger_at (m_Ledger this1) j = ledger_at (m_Ledger this) j /\
        (j = i -> c < fence_of this j)) /\
      (live this j = true -> c < fence_of this j -> live this1 j = true)).
    { intros j Hj. destruct (Hslots1 j Hj) as [Hl Hat]. split.
      - intros Hlive. rewrite Hl in Hlive.
        apply andb_prop in Hlive. destruct Hlive as [Hb Hn].
        split; [exact Hb |]. split; [apply Hat; rewrite Hl, Hb, Hn; reflexivity |].
        intros ->. rewrite Z.eqb_refl in Hn. cbn [andb] in Hn.
        destruct (Z.leb_spec (fence_of this i) c); [discriminate | assumption].
      - intros Hlive Hyoung. rewrite Hl, Hlive.
        destruct (Z.leb_spec (fence_of this i) c) as [Hle | Hgt];
          [| now rewrite andb_false_r].
        destruct (Z.eqb_spec i j) as [<- | Hne]; [lia | reflexivity]. }
    destruct (Z.eqb_spec (m_LedgerMask this1) 0) as [Hzero | Hmore].
    + split; [exact Hlen1 |]. split; [exact Ht1 |]. split; [exact Hs1 |].
      split; [exact Hx1 |].
      intros j Hj. split.
      * intros Hlive. rewrite (live_of_empty_mask this1 j Hzero) in Hlive.
        discriminate.
      * intros Hlive Hyoung. now apply (Hone j Hj).
    + destruct (IH this1 Hrest Hlen1) as (Hlen' & Ht' & Hs' & Hx' & Hslots').
      split; [exact Hlen' |]. split; [congruence |]. split; [congruence |].
      split; [congruence |].
      intros j Hj. destruct (Hslots' j Hj) as [Hdown Hup].
      destruct (Hone j Hj) as [Hdown1 Hup1]. split.
      * intros Hlive. destruct (Hdown Hlive) as (Hl1 & Hat1 & Hin1).
        destruct (Hdown1 Hl1) as (Hl0 & Hat0 & Hin0).
        split; [exact Hl0 |]. split; [congruence |].
        intros [<- | Hin]; [now apply Hin0 |].
        rewrite <- Hat0. now apply Hin1.
      * intros Hlive Hyoung. apply Hup; [now apply Hup1 |].
        destruct (Hdown1 (Hup1 Hlive Hyoung)) as (_ & -> & _). exact Hyoung.
Qed.

Lemma Deallocate_slots this c :
  length (m_Ledger this) = Z.to_nat cLedgerSize ->
  let this' := Deallocate this c in
  m_Tail this' = m_Tail this /\ m_Size this' = m_Size this /\
  m_LedgerIndex this' = m_LedgerIndex this /\
  forall i, in_ledger i ->
    (live this' i = true <-> live this i = true /\ c < fence_of this i) /\
    (live this' i = true ->
     ledger_at (m_Ledger this') i = ledger_at (m_Ledger this) i).
Proof.
  intros Hlen this'. subst this'. unfold Deallocate.
  assert (Hall : Forall in_ledger ledger_indices)
    by (apply List.Forall_forall; intros i Hi; now apply in_ledger_indices).
  destruct (Deallocate_loop_slots c ledger_indices this Hall Hlen)
    as (_ & Ht & Hs & Hx & Hslots).
  split; [exact Ht |]. split; [exact Hs |]. split; [exact Hx |].
  intros i Hi. destruct (Hslots i Hi) as [Hdown Hup]. split; [split |].
  - intros Hlive. destruct (Hdown Hlive) as (Hl & _ & Hin).
    split; [exact Hl |]. apply Hin. now apply in_ledger_indices.
  - intros [Hl Hy]. now apply Hup.
  - intros Hlive. now destruct (Hdown Hlive) as (_ & Hat & _).
Qed.

(** X13. What [Deallocate] retires: after [Deallocate(CompletedFenceValue)]
    a ledger slot is live exactly when it was live before with a fence value
    above [CompletedFenceValue], and such a slot keeps its entry; the tail,
    the size and the ledger index are not changed. *)
Theorem Deallocate_retires_exactly_the_completed :
  forall this CompletedFenceValue,
    length (m_Ledger this) = Z.to_nat cLedgerSize ->
    let this' := Deallocate this CompletedFenceValue in
    m_Tail this' = m_Tail this /\ m_Size this' = m_Size this /\
    m_LedgerIndex this' = m_LedgerIndex this /\
    forall i, in_ledger i ->
      (live this' i = true <->
       live this i = true /\ CompletedFenceValue < fence_of this i) /\
      (live this' i = true ->
       ledger_at (m_Ledger this') i = ledger_at (m_Ledger this) i).
Proof.
  intros this c Hlen. exact (Deallocate_slots this c Hlen).
Qed.

Lemma Deallocate_loop_idle c indices : forall this,
  Forall in_ledger indices ->
  (forall i, in_ledger i -> live this i = true -> c < fence_of this i) ->
  Deallocate_loop c this indices = this.
Proof.
  induction indices as [| i indices IH]; intros this Hall Hyoung; [reflexivity |].
  inversion Hall as [| ? ? Hi Hrest]; subst.
  cbn [Deallocate_loop].
  assert (Hidle : Deallocate_entry c this i = this).
  { rewrite Deallocate_entry_eq by assumption.
    destruct (live this i) eqn:Hlive; [| reflexivity].
    pose proof (Hyoung i Hi Hlive).
    destruct (Z.leb_spec (fence_of this i) c); [lia | reflexivity]. }
  rewrite Hidle. destruct (_ =? 0); [reflexivity | now apply IH].
Qed.

(** X14. [Deallocate] is idempotent: a second call with the same completed
    fence value changes nothing. *)
Theorem Deallocate_twice :
  forall this CompletedFenceValue,
    length (m_Ledger this) = Z.to_nat cLedgerSize ->
    Deallocate (Deallocate this CompletedFenceValue) CompletedFenceValue
    = Deallocate this CompletedFenceValue.
Proof.
  intros this c Hlen.
  destruct (Deallocate_slots this c Hlen) as (_ & _ & _ & Hslots).
  unfold Deallocate at 1. apply Deallocate_loop_idle.
  - apply List.Forall_forall; intros i Hi; now apply in_ledger_indices.
  - intros i Hi Hlive. destruct (Hslots i Hi) as [Hiff Hat].
    rewrite (Hat Hlive). now apply Hiff.
Qed.

Lemma sum_over_zero f l : (forall j, In j l -> f j = 0) -> sum_over f l = 0.
Proof.
  induction l as [| i l IH]; intros Hz; [reflexivity |].
  simpl. rewrite (Hz i) by now left. rewrite IH; [reflexivity |].
  intros j Hj. apply Hz. now right.
Qed.

Lemma idle_ledger_is_not_saturated this f :
  (forall i, in_ledger i -> live this i = false) -> saturated this f = false.
Proof.
  intros Hidle. unfold saturated.
  rewrite available_iff by apply next_slot_in_ledger.
  rewrite (Hidle _ (next_slot_in_ledger this)). apply andb_false_r.
Qed.

(** X15. Releasing everything: when the completed fence value has reached
    the fence value of every live ledger slot, [Deallocate] leaves no live
    slot and an empty live range ([head = tail]), and the next [Allocate] of
    a request within the asserted bound [NumItems < m_Size / 2] succeeds,
    whatever its fence value. *)
Theorem Deallocate_everything_then_Allocate :
  forall this CompletedFenceValue,
    Inv this ->
    (forall i, in_ledger i -> live this i = true ->
               fence_of this i <= CompletedFenceValue) ->
    let this' := Deallocate this CompletedFenceValue in
    (forall i, in_ledger i -> live this' i = false) /\
    head this' = tail this' /\
    (forall n f off,
        far_from_wrap this -> 0 < n -> n < m_Size this / 2 ->
        exists r, Allocate this' n f off = Some r /\ hr r = S_OK).
Proof.
  intros this c Hinv Hdone this'.
  pose proof (Deallocate_inv this c Hinv) as Hinv'. fold this' in Hinv'.
  destruct (Deallocate_slots this c (wf_ledger _ (inv_wf _ Hinv)))
    as (Ht & Hs & _ & Hslots). fold this' in Ht, Hs, Hslots.
  assert (Hidle : forall i, in_ledger i -> live this' i = false).
  { intros i Hi. destruct (live this' i) eqn:Hlive; [| reflexivity].
    destruct (proj1 (proj1 (Hslots i Hi)) Hlive) as [Hl Hy].
    pose proof (Hdone i Hi Hl). lia. }
  assert (Hempty : m_Head this' = m_Tail this' + m_Size this').
  { pose proof (inv_total _ Hinv') as Htotal.
    unfold live_total in Htotal. rewrite sum_over_zero in Htotal; [lia |].
    intros j Hj. apply in_ledger_indices in Hj.
    unfold live_allocations. now rewrite Hidle. }
  split; [exact Hidle |]. split; [unfold head, tail; lia |].
  intros n f off Hfar Hn Hhalf.
  pose proof (inv_wf _ Hinv') as Hwf'. pose proof Hwf' as [Hsize _ _ Htail].
  pose proof (Z.mul_div_le (m_Size this) 2 ltac:(lia)) as Hdiv.
  assert (Hfar' : far_from_wrap this') by (unfold far_from_wrap in *; lia).
  exists (allocate_flat this' n f off).
  split; [unfold Allocate; apply Allocate_flat; assumption || lia |].
  unfold allocate_flat.
  destruct (after_move_shares this' f Hwf') as (Hhead1 & Htl1 & Hsz1 & Hwf1).
  rewrite (after_move_failed this' f Hwf'), (idle_ledger_is_not_saturated this' f Hidle).
  set (this1 := snd (after_move this' f)) in *.
  unfold far_from_wrap in Hfar'.
  assert (Hloc : 0 <= m_Tail this' mod m_Size this' < m_Size this')
    by (apply Z.mod_pos_bound; lia).
  unfold padding, wraps, tail.
  destruct (Z.gtb_spec (m_Tail this' mod m_Size this' + n) (m_Size this'))
    as [Hwrap | Hfit].
  - set (pad := m_Size this' - m_Tail this' mod m_Size this') in *.
    destruct (place_cases this1 pad) as [[Hpad Hp] | [Hpad Hp]]; [| lia].
    rewrite Hp. cbn [hr after FAILED].
    set (this2 := record_allocation this1 pad).
    destruct (record_allocation_fields this1 pad) as (Hh2 & Ht2 & _).
    fold this2 in Hh2, Ht2. rewrite wrap64_small in Ht2 by lia.
    destruct (place_cases this2 n) as [[Hfits Hp2] | [Hfits Hp2]]; [| lia].
    rewrite Hp2. reflexivity.
  - destruct (place_cases this1 n) as [[Hfits Hp] | [Hfits Hp]]; [| lia].
    rewrite Hp. reflexivity.
Qed.

(** X16. Where an allocation lands: a successful [Allocate] of
    [NumItems > 0] on a ring buffer that satisfies the invariant hands out
    items that lie inside the buffer without straddling its end
    ([OffsetOut + NumItems <= m_Size]) and inside the free part of the ring:
    they start at or after the old tail and end at or before [m_Head], which
    the call leaves unchanged. *)
Theorem Allocate_block_is_contiguous_and_free :
  forall this n f off r,
    Inv this -> far_from_wrap this -> 0 < n < 2 ^ 32 ->
    Allocate this n f off = Some r -> hr r = S_OK ->
    0 <= OffsetOut r /\ OffsetOut r + n <= m_Size this /\
    exists start,
      m_Tail this <= start /\ OffsetOut r = start mod m_Size this /\
      m_Tail (after r) = start + n /\ start + n <= m_Head this /\
      m_Head (after r) = m_Head this /\ m_Size (after r) = m_Size this.
Proof.
  intros this n f off r Hinv Hfar Hn Halloc Hok.
  pose proof (inv_wf _ Hinv) as Hwf. pose proof (inv_head_tail _ Hinv) as Hht.
  unfold Allocate in Halloc. rewrite Allocate_flat in Halloc by assumption.
  injection Halloc as <-. unfold allocate_flat in *.
  destruct (after_move_shares this f Hwf) as (Hhead & Htl & Hsz & Hwf1).
  set (this1 := snd (after_move this f)) in *.
  destruct (FAILED (fst (after_move this f))); [discriminate |].
  pose proof Hwf1 as [Hsize _ _ Htail]. unfold far_from_wrap in Hfar.
  assert (Hloc : 0 <= m_Tail this1 mod m_Size this1 < m_Size this1)
    by (apply Z.mod_pos_bound; lia).
  unfold padding, wraps, tail in *. rewrite <- Htl, <- Hsz, <- Hhead in *.
  destruct (Z.gtb_spec (m_Tail this1 mod m_Size this1 + n) (m_Size this1))
    as [Hwrap | Hfit].
  - set (pad := m_Size this1 - m_Tail this1 mod m_Size this1) in *.
    destruct (place_cases this1 pad) as [[Hpad Hp] | [Hpad Hp]];
      rewrite Hp in *; cbn [hr after FAILED] in *; [| discriminate].
    set (this2 := record_allocation this1 pad) in *.
    destruct (record_allocation_fields this1 pad) as (Hh2 & Ht2 & Hs2 & _).
    fold this2 in Hh2, Ht2, Hs2. rewrite wrap64_small in Ht2 by lia.
    destruct (place_cases this2 n) as [[Hfits Hp2] | [Hfits Hp2]];
      rewrite Hp2 in *; cbn [hr after OffsetOut] in *; [| discriminate].
    destruct (record_allocation_fields this2 n) as (Hh3 & Ht3 & Hs3 & _).
    rewrite wrap64_small in Ht3 by lia.
    assert (Hzero : m_Tail this2 mod m_Size this2 = 0).
    { rewrite Ht2, Hs2.
      replace (m_Tail this1 + pad)
        with (m_Tail this1 - m_Tail this1 mod m_Size this1 + 1 * m_Size this1)
        by (subst pad; lia).
      rewrite Z.mod_add by lia.
      rewrite Zminus_mod, Z.mod_mod, Z.sub_diag by lia.
      apply Z.mod_0_l. lia. }
    rewrite Hzero. split; [lia |]. split; [lia |].
    exists (m_Tail this2). rewrite <- Hs2 at 1. rewrite Hzero.
    repeat split; try lia; congruence.
  - destruct (place_cases this1 n) as [[Hfits Hp] | [Hfits Hp]];
      rewrite Hp in *; cbn [hr after OffsetOut] in *; [| discriminate].
    destruct (record_allocation_fields this1 n) as (Hh3 & Ht3 & Hs3 & _).
    rewrite wrap64_small in Ht3 by lia.
    split; [lia |]. split; [lia |].
    exists (m_Tail this1). repeat split; try lia; congruence.
Qed.

(** X17. A saturated ledger: when a request of at least one item needs a
    new ledger entry and the next slot is still in use, [Allocate] returns
    [E_FAIL] without writing [OffsetOut], and the one thing it has changed
    is [m_LedgerIndex], which now names that next slot. *)
Theorem Allocate_on_a_saturated_ledger :
  forall this n f off,
    well_formed this -> n <> 0 -> saturated this f = true ->
    Allocate this n f off
    = Some (mkAllocated E_FAIL off
              (mkRing (m_Head this) (m_Tail this) (m_Size this) (m_Ledger this)
                 (m_LedgerMask this) (next_slot this))).
Proof.
  intros this n f off Hwf Hn Hsat.
  unfold Allocate. rewrite Allocate_fuel_S.
  destruct (Z.eqb_spec n 0); [contradiction |]. cbv zeta.
  pose proof (after_move_failed this f Hwf) as Hfailed. rewrite Hsat in Hfailed.
  rewrite Hfailed. do 2 f_equal.
  unfold saturated in Hsat. apply andb_prop in Hsat. destruct Hsat as [Hnewer Hbusy].
  rewrite available_iff in Hbusy by apply next_slot_in_ledger.
  rewrite negb_involutive in Hbusy.
  unfold after_move. rewrite Hnewer.
  rewrite MoveToNextLedgerEntry_eq by assumption. now rewrite Hbusy.
Qed.

(** X18. A failed call can still move the tail: when the request would
    straddle the end of the buffer, the padding up to the end fits below
    [m_Head] but the request after it does not, [Allocate] returns [E_FAIL]
    with [OffsetOut = UINT32(-1)], and the padding stays allocated: the tail
    has advanced to the end of the buffer. *)
Theorem failed_Allocate_keeps_the_padding :
  forall this n f off,
    well_formed this -> far_from_wrap this -> 0 < n < 2 ^ 32 ->
    saturated this f = false -> wraps this n = true ->
    m_Tail this + padding this n <= m_Head this ->
    m_Head this < m_Tail this + padding this n + n ->
    exists r,
      Allocate this n f off = Some r /\ hr r = E_FAIL /\
      OffsetOut r = 2 ^ 32 - 1 /\
      m_Tail (after r) = m_Tail this + padding this n /\
      0 < padding this n /\
      m_Tail (after r) mod m_Size this = 0 /\
      m_Head (after r) = m_Head this.
Proof.
  intros this n f off Hwf Hfar Hn Hsat Hwraps Hpadfits Hnofit.
  exists (allocate_flat this n f off).
  split; [unfold Allocate; now apply Allocate_flat |].
  unfold allocate_flat.
  destruct (after_move_shares this f Hwf) as (Hhead & Htl & Hsz & Hwf1).
  rewrite (after_move_failed this f Hwf), Hsat, Hwraps.
  set (this1 := snd (after_move this f)) in *.
  pose proof Hwf as [Hsize _ _ Htail]. unfold far_from_wrap in Hfar.
  assert (Hloc : 0 <= m_Tail this mod m_Size this < m_Size this)
    by (apply Z.mod_pos_bound; lia).
  unfold padding in *. rewrite Hwraps in *. unfold tail in *.
  set (pad := m_Size this - m_Tail this mod m_Size this) in *.
  destruct (place_cases this1 pad) as [[Hpad Hp] | [Hpad Hp]]; [| lia].
  rewrite Hp. cbn [hr after FAILED].
  set (this2 := record_allocation this1 pad).
  destruct (record_allocation_fields this1 pad) as (Hh2 & Ht2 & Hs2 & _).
  fold this2 in Hh2, Ht2, Hs2. rewrite wrap64_small in Ht2 by lia.
  destruct (place_cases this2 n) as [[Hfits Hp2] | [Hfits Hp2]]; [lia |].
  rewrite Hp2. cbn [hr OffsetOut after].
  split; [reflexivity |]. split; [reflexivity |]. split; [lia |].
  split; [lia |]. split; [| lia].
  rewrite Ht2, Htl.
  replace (m_Tail this + pad)
    with (m_Tail this - m_Tail this mod m_Size this + 1 * m_Size this)
    by (subst pad; lia).
  rewrite Z.mod_add by lia.
  rewrite Zminus_mod, Z.mod_mod, Z.sub_diag by lia.
  apply Z.mod_0_l. lia.
Qed.

(** A ring of 10 items with 3 and then 4 of them allocated under fence
    values 1 and 2. *)
Lemma seven_of_ten_Inv :
  Inv (run (construct 10) [OpAllocate 3 1; OpAllocate 4 2]).
Proof.
  apply run_inv; [apply ring_Inv_construct; lia | vm_compute; reflexivity].
Defined.

Example Deallocate_retires_exactly_the_completed_witness :
  let this := run (construct 10) [OpAllocate 3 1; OpAllocate 4 2] in
  let this' := Deallocate this 1 in
  m_Tail this' = m_Tail this /\ m_Size this' = m_Size this /\
  m_LedgerIndex this' = m_LedgerIndex this /\
  forall i, in_ledger i ->
    (live this' i = true <-> live this i = true /\ 1 < fence_of this i) /\
    (live this' i = true ->
     ledger_at (m_Ledger this') i = ledger_at (m_Ledger this) i).
Proof.
  apply (Deallocate_retires_exactly_the_completed
           (run (construct 10) [OpAllocate 3 1; OpAllocate 4 2]) 1).
  vm_compute. reflexivity.
Defined.

Example Deallocate_twice_witness :
  Deallocate (Deallocate (run (construct 10) [OpAllocate 3 1; OpAllocate 4 2]) 1) 1
  = Deallocate (run (construct 10) [OpAllocate 3 1; OpAllocate 4 2]) 1.
Proof.
  apply (Deallocate_twice (run (construct 10) [OpAllocate 3 1; OpAllocate 4 2]) 1).
  vm_compute. reflexivity.
Defined.

Example Deallocate_everything_then_Allocate_witness :
  let this' := Deallocate (run (construct 10) [OpAllocate 3 1; OpAllocate 4 2]) 2 in
  (forall i, in_ledger i -> live this' i = false) /\
  head this' = tail this' /\
  (forall n f off,
      far_from_wrap (run (construct 10) [OpAllocate 3 1; OpAllocate 4 2]) ->
      0 < n ->
      n < m_Size (run (construct 10) [OpAllocate 3 1; OpAllocate 4 2]) / 2 ->
      exists r, Allocate this' n f off = Some r /\ hr r = S_OK).
Proof.
  apply (Deallocate_everything_then_Allocate
           (run (construct 10) [OpAllocate 3 1; OpAllocate 4 2]) 2).
  - exact seven_of_ten_Inv.
  - intros i Hi _. apply in_ledger_indices in Hi.
    revert i Hi. apply List.Forall_forall.
    repeat constructor; vm_compute; discriminate.
Defined.

Example Allocate_block_is_contiguous_and_free_witness :
  let this := run (construct 10) [OpAllocate 3 1; OpAllocate 4 2; OpDeallocate 2] in
  let r := allocate_flat this 4 3 0 in
  0 <= OffsetOut r /\ OffsetOut r + 4 <= m_Size this /\
  exists start,
    m_Tail this <= start /\ OffsetOut r = start mod m_Size this /\
    m_Tail (after r) = start + 4 /\ start + 4 <= m_Head this /\
    m_Head (after r) = m_Head this /\ m_Size (after r) = m_Size this.
Proof.
  apply (Allocate_block_is_contiguous_and_free
           (run (construct 10) [OpAllocate 3 1; OpAllocate 4 2; OpDeallocate 2])
           4 3 0).
  - apply run_inv; [apply ring_Inv_construct; lia | vm_compute; reflexivity].
  - vm_compute. discriminate.
  - lia.
  - vm_compute. reflexivity.
  - vm_compute. reflexivity.
Defined.

Example Allocate_on_a_saturated_ledger_witness :
  Allocate (run (construct 64) fifteen_fences) 1 16 7
  = Some (mkAllocated E_FAIL 7
            (mkRing (m_Head (run (construct 64) fifteen_fences))
               (m_Tail (run (construct 64) fifteen_fences))
               (m_Size (run (construct 64) fifteen_fences))
               (m_Ledger (run (construct 64) fifteen_fences))
               (m_LedgerMask (run (construct 64) fifteen_fences))
               (next_slot (run (construct 64) fifteen_fences)))).
Proof.
  apply (Allocate_on_a_saturated_ledger (run (construct 64) fifteen_fences) 1 16 7).
  - split; vm_compute; repeat split; discriminate.
  - lia.
  - vm_compute. reflexivity.
Defined.

Example failed_Allocate_keeps_the_padding_witness :
  let this := run (construct 10) [OpAllocate 3 1; OpAllocate 4 2] in
  exists r,
    Allocate this 4 2 0 = Some r /\ hr r = E_FAIL /\
    OffsetOut r = 2 ^ 32 - 1 /\
    m_Tail (after r) = m_Tail this + padding this 4 /\
    0 < padding this 4 /\
    m_Tail (after r) mod m_Size this = 0 /\
    m_Head (after r) = m_Head this.
Proof.
  apply (failed_Allocate_keeps_the_padding
           (run (construct 10) [OpAllocate 3 1; OpAllocate 4 2]) 4 2 0).
  - split; vm_compute; repeat split; discriminate.
  - vm_compute. discriminate.
  - lia.
  - vm_compute. reflexivity.
  - vm_compute. reflexivity.
  - vm_compute. discriminate.
  - vm_compute. reflexivity.
Defined.

End FencedRingBufferMoreFacts.

(* --------------------------------------------------------------------- *)
(** ** CDescriptorHeapManager: what callers can rely on                   *)
(* --------------------------------------------------------------------- *)

Module DescriptorHeapManagerMoreFacts.

Import MachineFacts DescriptorHeapManager DescriptorHeapManagerFacts.
Import DescriptorHeapAccounting.

(** X19. No descriptor is handed out twice: on a manager reached from
    construction, a successful [AllocateHeapSlot] returns a handle that is
    not outstanding, lies within its page on a descriptor boundary outside
    every free range, and is a whole descriptor away from every other
    outstanding handle of that page. *)
Theorem AllocateHeapSlot_returns_a_fresh_descriptor :
  forall this allocated created slot,
    reachable this allocated -> heap_in_range this created ->
    result (AllocateHeapSlot mem_ok created this) = Returned slot ->
    let this' := after (AllocateHeapSlot mem_ok created this) in
    ~ In slot allocated /\
    slot_ok this' slot /\
    (forall other,
        In other allocated -> snd other = snd slot ->
        fst other + m_DescriptorSize this' <= fst slot \/
        fst slot + m_DescriptorSize this' <= fst other).
Proof.
  intros this allocated created slot Hreach Hrange Hres this'.
  pose proof (AllocateHeapSlot_inv this allocated created
                (reachable_inv _ _ Hreach) Hrange) as Hinv.
  rewrite Hres in Hinv. fold this' in Hinv.
  pose proof (inv_distinct _ _ Hinv) as Hnd.
  pose proof (inv_slots _ _ Hinv) as Hslots.
  inversion Hnd as [| ? ? Hfresh _]; subst.
  inversion Hslots as [| ? ? Hslot Hothers]; subst.
  split; [exact Hfresh |]. split; [exact Hslot |].
  intros other Hin Hpage.
  destruct Hslot as (page & P1 & _ & _ & P4 & _).
  pose proof (proj1 (List.Forall_forall _ _) Hothers _ Hin)
    as (page' & Q1 & _ & _ & Q4 & _).
  rewrite Hpage, P1 in Q1. injection Q1 as <-.
  apply (boundary_apart _ (m_Heap page)); try assumption.
  - exact (inv_size _ _ Hinv).
  - intros Heq. apply Hfresh.
    replace slot with other; [exact Hin |].
    destruct other, slot. simpl in *. congruence.
Qed.

(** X20. Reached managers never run into undefined behaviour: whenever the
    device delivers a heap (when one is needed), [AllocateHeapSlot] returns a
    handle; when some page still has a free descriptor it returns a handle
    whatever the device would answer and adds no page; and [FreeHeapSlot] of
    an outstanding handle returns. *)
Theorem reachable_calls_are_defined :
  forall this allocated,
    reachable this allocated ->
    (forall HeapBase,
        heap_in_range this (Returned HeapBase) ->
        exists slot,
          result (AllocateHeapSlot mem_ok (Returned HeapBase) this) = Returned slot) /\
    (forall created,
        m_FreeHeaps this <> [] ->
        exists slot,
          result (AllocateHeapSlot mem_ok created this) = Returned slot /\
          length (m_Heaps (after (AllocateHeapSlot mem_ok created this)))
          = length (m_Heaps this)) /\
    (forall Offset index,
        In (Offset, index) allocated ->
        exists this', FreeHeapSlot mem_ok this Offset index = Returned this').
Proof.
  intros this allocated Hreach. pose proof (reachable_inv _ _ Hreach) as Hinv.
  split; [| split].
  - intros HeapBase Hrange.
    pose proof (AllocateHeapSlot_inv this allocated _ Hinv Hrange) as Hstep.
    destruct (result (AllocateHeapSlot mem_ok (Returned HeapBase) this))
      as [slot | e |]; [now exists slot | destruct Hstep; discriminate | discriminate].
  - intros created Hfree.
    destruct (m_FreeHeaps this) as [| index free_heaps] eqn:Hfront; [contradiction |].
    destruct (take_slot_inv _ _ _ _ Hinv Hfront) as (h & Hres & _).
    assert (Heq : AllocateHeapSlot mem_ok created this = take_slot this)
      by (unfold AllocateHeapSlot; now rewrite Hfront).
    rewrite Heq. exists (h, index). split; [exact Hres |].
    unfold take_slot in *. rewrite Hfront in *.
    destruct (m_Heaps this !! index) as [HeapEntry |]; [| discriminate].
    destruct (m_FreeList HeapEntry) as [| Range ranges]; [discriminate |].
    destruct (_ =? _); [destruct ranges |]; simpl; now rewrite length_insert.
  - intros Offset index Hin.
    destruct (FreeHeapSlot_inv this allocated Offset index Hinv Hin) as (this' & Hf & _).
    now exists this'.
Qed.

Lemma chain_members ds base hi ranges Range : forall lo,
  chain ds base hi lo ranges -> In Range ranges ->
  lo <= Start Range /\ Start Range < End_ Range /\ End_ Range <= hi.
Proof.
  induction ranges as [| First ranges IH]; intros lo Hchain Hin; [destruct Hin |].
  simpl in Hchain. destruct Hchain as (Hlo & Hne & Hhi & _ & _ & Hrest).
  destruct Hin as [<- | Hin]; [lia |].
  specialize (IH (End_ First) Hrest Hin). lia.
Qed.

(** X21. The free lists: on a manager reached from construction every
    free list is sorted by ascending [Start] without overlap, every free
    range is a non-empty part of its page, and no free range covers an
    outstanding handle. *)
Theorem free_ranges_exclude_outstanding_descriptors :
  forall this allocated,
    reachable this allocated ->
    Forall (fun HeapEntry => ascending (m_FreeList HeapEntry)) (m_Heaps this) /\
    (forall index HeapEntry Range,
        m_Heaps this !! index = Some HeapEntry -> In Range (m_FreeList HeapEntry) ->
        m_Heap HeapEntry <= Start Range /\ Start Range < End_ Range /\
        End_ Range <= page_limit this HeapEntry) /\
    (forall Offset index HeapEntry Range,
        In (Offset, index) allocated ->
        m_Heaps this !! index = Some HeapEntry -> In Range (m_FreeList HeapEntry) ->
        Offset + m_DescriptorSize this <= Start Range \/ End_ Range <= Offset).
Proof.
  intros this allocated Hreach. pose proof (reachable_inv _ _ Hreach) as Hinv.
  split; [now apply (reachable_free_lists_ascending this allocated) |]. split.
  - intros index HeapEntry Range Hlook Hin.
    pose proof (Forall_lookup_1 _ _ _ _ (inv_pages _ _ Hinv) Hlook) as (_ & _ & Hchain).
    exact (chain_members _ _ _ _ _ _ Hchain Hin).
  - intros Offset index HeapEntry Range Hin Hlook HinR.
    destruct (slot_on_page _ _ _ _ _ Hinv Hin Hlook) as (_ & _ & _ & Hout).
    exact (proj1 (List.Forall_forall _ _) Hout _ HinR).
Qed.

Lemma coalesce_is_defined mem ds h ranges : coalesce mem ds h ranges <> Undefined.
Proof.
  induction ranges as [| Range ranges IH]; simpl; [discriminate |].
  destruct (_ =? _); [discriminate |].
  destruct (_ =? _); [discriminate |].
  destruct (_ >? _); [destruct (range_node_ok mem); discriminate |].
  destruct (coalesce mem ds h ranges) as [[l |] | e |];
    try discriminate; contradiction.
Qed.

Lemma set_free_list_pages this index HeapEntry ranges :
  m_Heaps this !! index = Some HeapEntry ->
  let this' := set_free_list this index HeapEntry ranges in
  map m_Heap (m_Heaps this') = map m_Heap (m_Heaps this) /\
  NumDescriptors this' = NumDescriptors this /\
  m_DescriptorSize this' = m_DescriptorSize this.
Proof.
  intros Hlook. simpl. split; [| split; reflexivity].
  change (map m_Heap) with (fmap (M := list) m_Heap).
  rewrite list_fmap_insert. apply list_insert_id.
  rewrite list_lookup_fmap. exact (f_equal (fmap m_Heap) Hlook).
Qed.

(** X22. [FreeHeapSlot] keeps its [noexcept]: for every page index within
    [m_Heaps] the call returns, whichever of its list allocations fail, and
    it leaves the pages, their heaps and the descriptor geometry as they
    were (only free lists and [m_FreeHeaps] can change). *)
Theorem FreeHeapSlot_never_throws :
  forall mem this Offset (index : HeapIndex),
    (index < length (m_Heaps this))%nat ->
    exists this',
      FreeHeapSlot mem this Offset index = Returned this' /\
      map m_Heap (m_Heaps this') = map m_Heap (m_Heaps this) /\
      NumDescriptors this' = NumDescriptors this /\
      m_DescriptorSize this' = m_DescriptorSize this.
Proof.
  intros mem this h index Hin.
  destruct (lookup_lt_is_Some_2 _ _ Hin) as [HeapEntry Hlook].
  unfold FreeHeapSlot. unfold HeapIndex in *. rewrite Hlook.
  pose proof (coalesce_is_defined mem (m_DescriptorSize this) h (m_FreeList HeapEntry))
    as Hdef.
  destruct (coalesce mem (m_DescriptorSize this) h (m_FreeList HeapEntry))
    as [[ranges |] | e |]; [| | | contradiction].
  - eexists. split; [reflexivity |]. now apply set_free_list_pages.
  - destruct (m_FreeList HeapEntry) as [| Range ranges].
    + destruct (index_node_ok mem); [| now eexists].
      destruct (range_node_ok mem); [| now eexists].
      eexists. split; [reflexivity |].
      exact (set_free_list_pages (set_free_heaps this _) index HeapEntry _ Hlook).
    + destruct (range_node_ok mem); [| now eexists].
      eexists. split; [reflexivity |]. now apply set_free_list_pages.
  - now eexists.
Qed.

(** X23. What the swallowed [bad_alloc] can leave behind: when a handle of
    a page without free descriptors is freed, no page being listed in
    [m_FreeHeaps], and the node for [m_FreeHeaps] is allocated but the node
    for the free range is not, [FreeHeapSlot] returns with the page listed as
    free although its free list is empty; the next [AllocateHeapSlot] then
    takes [*m_FreeList.begin()] of an empty list, which is undefined. *)
Theorem FreeHeapSlot_out_of_memory_breaks_AllocateHeapSlot :
  forall this Offset index HeapEntry mem created,
    m_Heaps this !! index = Some HeapEntry ->
    m_FreeList HeapEntry = [] ->
    m_FreeHeaps this = [] ->
    exists this',
      FreeHeapSlot (mkMem false true true) this Offset index = Returned this' /\
      m_FreeHeaps this' = [index] /\ m_Heaps this' = m_Heaps this /\
      result (AllocateHeapSlot mem created this') = Undefined.
Proof.
  intros this h index HeapEntry mem created Hlook Hfull Hnone.
  unfold FreeHeapSlot. rewrite Hlook, Hfull. simpl. rewrite Hnone.
  eexists. split; [reflexivity |]. split; [reflexivity |]. split; [reflexivity |].
  unfold AllocateHeapSlot, take_slot. simpl. now rewrite Hlook, Hfull.
Qed.

Lemma free_list_size_snoc ranges Range :
  free_list_size (ranges ++ [Range]) = free_list_size ranges + range_size Range.
Proof.
  induction ranges as [| First ranges IH]; simpl; [lia |]. rewrite IH. lia.
Qed.

Lemma heaps_free_size_snoc heaps HeapEntry :
  heaps_free_size (heaps ++ [HeapEntry])
  = heaps_free_size heaps + free_list_size (m_FreeList HeapEntry).
Proof.
  induction heaps as [| First heaps IH]; simpl; [lia |]. rewrite IH. lia.
Qed.

Lemma heaps_free_size_insert heaps : forall index HeapEntry HeapEntry',
  heaps !! index = Some HeapEntry ->
  heaps_free_size (<[index := HeapEntry']> heaps)
  = heaps_free_size heaps - free_list_size (m_FreeList HeapEntry)
    + free_list_size (m_FreeList HeapEntry').
Proof.
  induction heaps as [| First heaps IH]; intros [| index] E E' Hlook;
    try discriminate; simpl in *.
  - injection Hlook as ->. lia.
  - rewrite (IH index E E' Hlook). lia.
Qed.

Lemma free_size_set_free_list this index HeapEntry ranges :
  m_Heaps this !! index = Some HeapEntry ->
  free_size (set_free_list this index HeapEntry ranges)
  = free_size this - free_list_size (m_FreeList HeapEntry) + free_list_size ranges.
Proof.
  intros Hlook. unfold free_size, set_free_list. simpl.
  now rewrite (heaps_free_size_insert _ _ _ _ Hlook).
Qed.

Lemma coalesce_size mem ds h ranges : forall ranges',
  0 < ds -> 0 <= h -> h + ds < 2 ^ 64 ->
  Forall (fun Range => 0 <= End_ Range /\ End_ Range + ds < 2 ^ 64 \/ End_ Range <> h)
    ranges ->
  coalesce mem ds h ranges = Returned (Some ranges') ->
  free_list_size ranges' = free_list_size ranges + ds.
Proof.
  induction ranges as [| Range ranges IH]; intros ranges' Hds Hh Hlim Hends Hco;
    simpl in Hco; [discriminate |].
  inversion Hends as [| ? ? Hend Hrest]; subst.
  rewrite (wrap64_small (h + ds)) in Hco by lia.
  destruct (Z.eqb_spec (Start Range) (h + ds)) as [Hs | Hs].
  { injection Hco as <-. simpl. unfold range_size. simpl. lia. }
  destruct (Z.eqb_spec (End_ Range) h) as [He | He].
  { injection Hco as <-. simpl. unfold range_size. simpl.
    rewrite wrap64_small by lia. lia. }
  destruct (Start Range >? h).
  { destruct (range_node_ok mem); [| discriminate].
    injection Hco as <-. simpl. unfold range_size. simpl. lia. }
  destruct (coalesce mem ds h ranges) as [[l |] | e |] eqn:Hrec; try discriminate.
  injection Hco as <-. simpl. rewrite (IH l Hds Hh Hlim Hrest eq_refl). lia.
Qed.

Lemma take_slot_size this allocated index free_heaps :
  Inv this allocated -> m_FreeHeaps this = index :: free_heaps ->
  free_size (after (take_slot this)) = free_size this - m_DescriptorSize this /\
  capacity (after (take_slot this)) = capacity this /\
  m_DescriptorSize (after (take_slot this)) = m_DescriptorSize this.
Proof.
  intros Hinv Hfront.
  pose proof (inv_size _ _ Hinv) as Hds.
  pose proof (proj1 (List.Forall_forall _ _) (inv_free_heaps _ _ Hinv) index)
    as Hpage.
  destruct Hpage as (HeapEntry & Hlook & Hnonempty); [rewrite Hfront; now left |].
  pose proof (Forall_lookup_1 _ _ _ _ (inv_pages _ _ Hinv) Hlook)
    as (Hbase & Hlimit & Hchain).
  unfold take_slot. rewrite Hfront, Hlook.
  destruct (m_FreeList HeapEntry) as [| Range ranges] eqn:Hlist; [contradiction |].
  simpl in Hchain. destruct Hchain as (Hlo & Hne & Hhi & Hb1 & Hb2 & _).
  pose proof (boundary_gap _ _ _ _ Hds Hb1 Hb2 Hne) as Hgap.
  cbn [Start End_]. rewrite wrap64_small by lia.
  assert (Hsame : forall l, capacity (set_free_list this index HeapEntry l) = capacity this)
    by (intros l; unfold capacity, set_free_list; simpl; now rewrite length_insert).
  destruct (Z.eqb_spec (Start Range + m_DescriptorSize this) (End_ Range)) as [Heq | Hneq].
  - assert (Hsize : free_size (set_free_list this index HeapEntry ranges)
                    = free_size this - m_DescriptorSize this).
    { rewrite (free_size_set_free_list _ _ _ _ Hlook), Hlist. simpl.
      unfold range_size. lia. }
    destruct ranges; cbn [after]; (split; [exact Hsize | split; [apply Hsame | reflexivity]]).
  - cbn [after]. split; [| split; [apply Hsame | reflexivity]].
    rewrite (free_size_set_free_list _ _ _ _ Hlook), Hlist. simpl.
    unfold range_size. simpl. lia.
Qed.

Lemma AllocateHeap_size this allocated HeapBase :
  Inv this allocated -> heap_in_range this (Returned HeapBase) ->
  let grown := after (AllocateHeap mem_ok (Returned HeapBase) this) in
  free_size grown = free_size this + NumDescriptors this * m_DescriptorSize this /\
  capacity grown = capacity this + NumDescriptors this * m_DescriptorSize this /\
  m_DescriptorSize grown = m_DescriptorSize this.
Proof.
  intros Hinv [Hb0 Hlim].
  pose proof (inv_size _ _ Hinv) as Hds. pose proof (inv_count _ _ Hinv) as HN.
  pose proof (inv_page_bytes _ _ Hinv) as Hbytes.
  assert (0 < NumDescriptors this * m_DescriptorSize this) by nia.
  unfold AllocateHeap. simpl.
  rewrite (wrap32_small (_ * _)), wrap64_small by lia.
  unfold free_size, capacity. simpl.
  rewrite heaps_free_size_snoc, List.length_app. simpl. unfold range_size. simpl.
  repeat split; lia.
Qed.

Lemma remove_one (x : Slot) allocated :
  List.NoDup allocated -> In x allocated ->
  Z.of_nat (length (remove slot_eq_dec x allocated))
  = Z.of_nat (length allocated) - 1.
Proof.
  induction 1 as [| y l Hy Hnd IH]; intros Hin; [destruct Hin |].
  cbn [remove]. destruct (slot_eq_dec x y) as [<- | Hne].
  - rewrite notin_remove by assumption. cbn [length]. lia.
  - destruct Hin as [-> | Hin]; [contradiction |].
    cbn [length]. rewrite !Nat2Z.inj_succ, IH by assumption. lia.
Qed.

Lemma FreeHeapSlot_size this allocated h index this' :
  Inv this allocated -> In (h, index) allocated ->
  FreeHeapSlot mem_ok this h index = Returned this' ->
  free_size this' = free_size this + m_DescriptorSize this /\
  capacity this' = capacity this /\
  m_DescriptorSize this' = m_DescriptorSize this.
Proof.
  intros Hinv Hin Hfree.
  pose proof (inv_size _ _ Hinv) as Hds.
  pose proof (proj1 (List.Forall_forall _ _) (inv_slots _ _ Hinv) _ Hin)
    as (HeapEntry & Hlook & Hlo & Hhi & _ & _).
  simpl in Hlook, Hlo, Hhi.
  pose proof (Forall_lookup_1 _ _ _ _ (inv_pages _ _ Hinv) Hlook)
    as (Hbase & Hlimit & Hchain).
  assert (Hends : Forall (fun Range => 0 <= End_ Range /\
                                       End_ Range + m_DescriptorSize this < 2 ^ 64
                                       \/ End_ Range <> h)
                    (m_FreeList HeapEntry)).
  { apply List.Forall_forall. intros Range HinR.
    destruct (chain_members _ _ _ _ _ _ Hchain HinR) as (H1 & H2 & H3).
    destruct (Z.eq_dec (End_ Range) h); [left; lia | now right]. }
  assert (Hsame : forall x l, m_Heaps x = m_Heaps this ->
             NumDescriptors x = NumDescriptors this ->
             m_DescriptorSize x = m_DescriptorSize this ->
             capacity (set_free_list x index HeapEntry l) = capacity this).
  { intros x l H1 H2 H3. unfold capacity, set_free_list. simpl.
    now rewrite length_insert, H1, H2, H3. }
  unfold FreeHeapSlot in Hfree. rewrite Hlook in Hfree.
  destruct (coalesce mem_ok (m_DescriptorSize this) h (m_FreeList HeapEntry))
    as [[ranges |] | e |] eqn:Hco.
  - injection Hfree as <-.
    split; [| split; [now apply Hsame | reflexivity]].
    rewrite (free_size_set_free_list _ _ _ _ Hlook).
    assert (H0 : 0 <= h) by lia.
    assert (H1 : h + m_DescriptorSize this < 2 ^ 64) by lia.
    rewrite (coalesce_size _ _ _ _ _ Hds H0 H1 Hends Hco). lia.
  - assert (Hpush : forall x, m_Heaps x = m_Heaps this ->
              m_DescriptorSize x = m_DescriptorSize this ->
              free_size (set_free_list x index HeapEntry
                           (m_FreeList HeapEntry
                            ++ [mkRange h (wrap64 (h + m_DescriptorSize this))]))
              = free_size this + m_DescriptorSize this).
    { intros x H1 H3.
      rewrite (free_size_set_free_list x); [| now rewrite H1].
      rewrite free_list_size_snoc. unfold range_size. simpl.
      rewrite wrap64_small by lia. unfold free_size. rewrite H1. lia. }
    destruct (m_FreeList HeapEntry) as [| Range ranges] eqn:Hlist;
      simpl in Hfree; injection Hfree as <-.
    + split; [now apply Hpush |]. split; [now apply Hsame | reflexivity].
    + split; [now apply Hpush |]. split; [now apply Hsame | reflexivity].
  - injection Hfree as <-. exfalso.
    pose proof (slot_on_page _ _ _ _ _ Hinv Hin Hlook) as (_ & _ & Hb & Hout).
    assert (H0 : 0 <= h) by lia.
    assert (H1 : h + m_DescriptorSize this < 2 ^ 64) by lia.
    pose proof (coalesce_chain _ _ _ h _ _ Hds H0 H1 Hchain Hlo Hhi Hb Hout) as Hc.
    rewrite Hco in Hc. exact Hc.
  - discriminate.
Qed.

(** X24. Descriptors are conserved: on a manager reached from
    construction, the bytes covered by the free lists plus one descriptor
    for every outstanding handle make up exactly the pages the manager
    holds. *)
Theorem descriptors_are_conserved :
  forall this allocated,
    reachable this allocated ->
    free_size this + Z.of_nat (length allocated) * m_DescriptorSize this
    = capacity this.
Proof.
  induction 1 as [N ds Hds HN Hbytes
                 | this allocated created slot Hreach IH Hrange Hres
                 | this allocated created e Hreach IH Hres
                 | this allocated h index this' Hreach IH Hin Hfree].
  - reflexivity.
  - pose proof (reachable_inv _ _ Hreach) as Hinv.
    unfold AllocateHeapSlot in *.
    destruct (m_FreeHeaps this) as [| index free_heaps] eqn:Hfront.
    + destruct created as [HeapBase | e |]; try discriminate.
      destruct (AllocateHeap_inv this allocated HeapBase Hinv Hfront Hrange)
        as (Hgrown & Hinv1 & Hfront1).
      destruct (AllocateHeap_size this allocated HeapBase Hinv Hrange)
        as (Hf1 & Hc1 & Hd1).
      cbv zeta in *. rewrite Hgrown in *.
      destruct (take_slot_size _ _ _ _ Hinv1 Hfront1) as (Hf2 & Hc2 & Hd2).
      rewrite Hf2, Hc2, Hf1, Hc1, Hd1.
      change (length (slot :: allocated)) with (S (length allocated)). lia.
    + cbv zeta in *. cbn [result after] in *.
      destruct (take_slot_size _ _ _ _ Hinv Hfront) as (Hf2 & Hc2 & Hd2).
      rewrite Hf2, Hc2, Hd2.
      change (length (slot :: allocated)) with (S (length allocated)). lia.
  - rewrite (AllocateHeapSlot_thrown _ _ _ Hres). exact IH.
  - pose proof (reachable_inv _ _ Hreach) as Hinv.
    destruct (FreeHeapSlot_size _ _ _ _ _ Hinv Hin Hfree) as (Hf & Hc & Hd).
    rewrite Hf, Hc, Hd, (remove_one _ _ (inv_distinct _ _ Hinv) Hin). lia.
Qed.

Example AllocateHeapSlot_returns_a_fresh_descriptor_witness :
  let this := run (construct 2 32) two_pages_ops in
  let this' := after (AllocateHeapSlot mem_ok (Returned 9000) this) in
  ~ In (1000, 0%nat) [(5032, 1%nat); (1032, 0%nat)] /\
  slot_ok this' (1000, 0%nat) /\
  (forall other,
      In other [(5032, 1%nat); (1032, 0%nat)] -> snd other = 0%nat ->
      fst other + m_DescriptorSize this' <= 1000 \/
      1000 + m_DescriptorSize this' <= fst other).
Proof.
  apply (AllocateHeapSlot_returns_a_fresh_descriptor
           (run (construct 2 32) two_pages_ops) [(5032, 1%nat); (1032, 0%nat)]
           (Returned 9000) (1000, 0%nat)).
  - exact DescriptorHeapManagerExamples.two_pages_reachable.
  - vm_compute. split; [discriminate | reflexivity].
  - vm_compute. reflexivity.
Defined.

Example reachable_calls_are_defined_witness :
  exists this',
    FreeHeapSlot mem_ok (run (construct 2 32) two_pages_ops) 5032 1%nat
    = Returned this'.
Proof.
  apply (proj2 (proj2 (reachable_calls_are_defined
                         (run (construct 2 32) two_pages_ops)
                         [(5032, 1%nat); (1032, 0%nat)]
                         DescriptorHeapManagerExamples.two_pages_reachable))).
  simpl. tauto.
Defined.

Example free_ranges_exclude_outstanding_descriptors_witness :
  let this := run (construct 2 32) two_pages_ops in
  Forall (fun HeapEntry => ascending (m_FreeList HeapEntry)) (m_Heaps this) /\
  (forall index HeapEntry Range,
      m_Heaps this !! index = Some HeapEntry -> In Range (m_FreeList HeapEntry) ->
      m_Heap HeapEntry <= Start Range /\ Start Range < End_ Range /\
      End_ Range <= page_limit this HeapEntry) /\
  (forall Offset index HeapEntry Range,
      In (Offset, index) [(5032, 1%nat); (1032, 0%nat)] ->
      m_Heaps this !! index = Some HeapEntry -> In Range (m_FreeList HeapEntry) ->
      Offset + m_DescriptorSize this <= Start Range \/ End_ Range <= Offset).
Proof.
  exact (free_ranges_exclude_outstanding_descriptors
           (run (construct 2 32) two_pages_ops)
           [(5032, 1%nat); (1032, 0%nat)]
           DescriptorHeapManagerExamples.two_pages_reachable).
Defined.

Example FreeHeapSlot_never_throws_witness :
  exists this',
    FreeHeapSlot (mkMem false false false) (run (construct 2 32) full_page_ops)
      1000 0%nat = Returned this' /\
    map m_Heap (m_Heaps this') = map m_Heap (m_Heaps (run (construct 2 32) full_page_ops)) /\
    NumDescriptors this' = NumDescriptors (run (construct 2 32) full_page_ops) /\
    m_DescriptorSize this' = m_DescriptorSize (run (construct 2 32) full_page_ops).
Proof.
  apply (FreeHeapSlot_never_throws (mkMem false false false)
           (run (construct 2 32) full_page_ops) 1000 0%nat).
  vm_compute. lia.
Defined.

Example FreeHeapSlot_out_of_memory_breaks_AllocateHeapSlot_witness :
  exists this',
    FreeHeapSlot (mkMem false true true) (run (construct 2 32) full_page_ops)
      1000 0%nat = Returned this' /\
    m_FreeHeaps this' = [0%nat] /\
    m_Heaps this' = m_Heaps (run (construct 2 32) full_page_ops) /\
    result (AllocateHeapSlot mem_ok (Returned 5000) this') = Undefined.
Proof.
  apply (FreeHeapSlot_out_of_memory_breaks_AllocateHeapSlot
           (run (construct 2 32) full_page_ops) 1000 0%nat (mkHeapEntry 1000 [])
           mem_ok (Returned 5000)).
  - vm_compute. reflexivity.
  - reflexivity.
  - vm_compute. reflexivity.
Defined.

Example descriptors_are_conserved_witness :
  free_size (run (construct 2 32) two_pages_ops)
  + Z.of_nat (length [(5032, 1%nat); (1032, 0%nat)])
    * m_DescriptorSize (run (construct 2 32) two_pages_ops)
  = capacity (run (construct 2 32) two_pages_ops).
Proof.
  exact (descriptors_are_conserved (run (construct 2 32) two_pages_ops)
           [(5032, 1%nat); (1032, 0%nat)]
           DescriptorHeapManagerExamples.two_pages_reachable).
Defined.

End DescriptorHeapManagerMoreFacts.

(* --------------------------------------------------------------------- *)
(** ** The deferred deletion queue over a history                         *)
(* --------------------------------------------------------------------- *)

Module DeferredDeletionHistoryFacts.

Import DeferredDeletion DeferredDeletionFacts.

Section Facts.

Context {ImmediateContext DeferredWait HeapSuballocationBlock
         ConditionalHeapAllocator : Type}.
Variable MAX_VALID : nat.
Variable ReadyToDestroy_static :
  ImmediateContext -> bool -> list Z -> list DeferredWait -> bool.

Local Abbreviation Manager :=
  (DeferredDeletionQueueManager ImmediateContext DeferredWait
     HeapSuballocationBlock ConditionalHeapAllocator).
Local Abbreviation Request :=
  (AddRequest HeapSuballocationBlock ConditionalHeapAllocator).
Local Abbreviation Call_ :=
  (QueueCall ImmediateContext HeapSuballocationBlock ConditionalHeapAllocator).
Local Abbreviation built := (built (DeferredWait := DeferredWait) MAX_VALID).
Local Abbreviation ready_under :=
  (ready_under (DeferredWait := DeferredWait) MAX_VALID ReadyToDestroy_static).

Lemma add_cases (ctx : ImmediateContext) (push_ok : bool) queue (req : Request) :
  in_range MAX_VALID req = true ->
  let step :=
    AddSuballocationToQueue MAX_VALID ReadyToDestroy_static push_ok
      (mkManager ctx queue) req in
  outcome step <> Undefined /\
  m_pParent (after_add step) = ctx /\
  m_DeferredSuballocationDeletionQueue (after_add step)
  = queue ++ (if negb (ready_under (mkQueueCall ctx push_ok req)) && push_ok
              then [built req] else []) /\
  allocator_calls step
  = if ready_under (mkQueueCall ctx push_ok req)
    then [CallDeallocate (request_allocator req) (request_block req)] else [].
Proof.
  intros Hin. cbv zeta.
  rewrite (add_in_range MAX_VALID ReadyToDestroy_static push_ok _ req Hin).
  unfold enqueue_or_destroy, DeferredDeletion.ready_under.
  cbn [context request m_pParent].
  destruct (ReadyToDestroy ReadyToDestroy_static (retired (built req)) ctx);
    [| destruct push_ok]; cbn [negb andb outcome after_add allocator_calls m_pParent
                                 m_DeferredSuballocationDeletionQueue];
    rewrite ?app_nil_r; repeat split; discriminate.
Qed.

(** X25. The fate of every retired suballocation: after any sequence of
    [AddSuballocationToQueue] calls with arguments in range, the queue
    holds, behind what it held and in the order of the calls, the blocks
    that were not ready when they were added and whose [push] got its
    memory; the parent allocators have been handed back, in the order of the
    calls, exactly the blocks that were ready; a block that was not ready
    and whose [push] threw [bad_alloc] is in neither. *)
Theorem every_retired_block_is_queued_destroyed_or_lost :
  forall (calls : list Call_) (this : Manager),
    Forall (fun call => in_range MAX_VALID (request call) = true) calls ->
    exists final made,
      run MAX_VALID ReadyToDestroy_static this calls = Returned (final, made) /\
      m_DeferredSuballocationDeletionQueue final
      = m_DeferredSuballocationDeletionQueue this
        ++ map (fun call => built (request call))
             (List.filter (fun call => negb (ready_under call) && push_ok_at call)
                calls) /\
      made
      = map (fun call =>
               CallDeallocate (request_allocator (request call))
                 (request_block (request call)))
          (List.filter ready_under calls).
Proof.
  induction calls as [| [ctx push_ok req] calls IH]; intros this Hall.
  - exists this, []. simpl. now rewrite app_nil_r.
  - inversion Hall as [| ? ? Hin Hrest]; subst. cbn [request] in Hin.
    cbn [run context push_ok_at request].
    destruct (add_cases ctx push_ok (m_DeferredSuballocationDeletionQueue this) req Hin)
      as (Hdef & _ & Hqueue & Hmade).
    set (step := AddSuballocationToQueue MAX_VALID ReadyToDestroy_static push_ok
                   (mkManager ctx (m_DeferredSuballocationDeletionQueue this)) req)
      in *.
    destruct (IH (after_add step) Hrest) as (final & made & Hrun & Hq & Hm).
    exists final, (allocator_calls step ++ made).
    split; [rewrite Hrun; destruct (outcome step); [reflexivity | reflexivity | contradiction] |].
    rewrite Hq, Hqueue, Hmade, Hm. cbn [List.filter push_ok_at].
    destruct (ready_under (mkQueueCall ctx push_ok req)); cbn [negb andb].
    + split; [now rewrite app_nil_r | reflexivity].
    + destruct push_ok; cbn [map app].
      * split; [now rewrite <- app_assoc | reflexivity].
      * split; [now rewrite app_nil_r | reflexivity].
Qed.

End Facts.

Example every_retired_block_is_queued_destroyed_or_lost_witness :
  let ready_at (completed : Z) (_ : bool) (ids : list Z) (_ : list unit) :=
    forallb (fun id => id <=? completed) ids in
  exists final made,
    run 3 ready_at (construct 5)
      [mkQueueCall 5 true (AddOfType 11%nat 22%nat 1%nat 4);
       mkQueueCall 5 true (AddOfType 12%nat 22%nat 1%nat 9);
       mkQueueCall 5 false (AddOfIds 13%nat 22%nat [0; 0; 8])]
    = Returned (final, made) /\
    m_DeferredSuballocationDeletionQueue final
    = [built 3 (AddOfType 12%nat 22%nat 1%nat 9)] /\
    made = [CallDeallocate 22%nat 11%nat].
Proof.
  intros ready_at.
  apply (every_retired_block_is_queued_destroyed_or_lost 3 ready_at
           [mkQueueCall 5 true (AddOfType 11%nat 22%nat 1%nat 4);
            mkQueueCall 5 true (AddOfType 12%nat 22%nat 1%nat 9);
            mkQueueCall 5 false (AddOfIds 13%nat 22%nat [0; 0; 8])]
           (construct 5)).
  repeat constructor.
Defined.

End DeferredDeletionHistoryFacts.

(* --------------------------------------------------------------------- *)
(** ** ImmediateContext: small members                                    *)
(* --------------------------------------------------------------------- *)

Module CommandListTypeMaskFacts.

Import MachineFacts CommandListTypeMask.

Lemma land_with_predecessor x :
  0 <= x < 2 ^ 32 ->
  Z.land x (wrap32 (x - 1)) = 0 <-> x = 0 \/ exists k, 0 <= k < 32 /\ x = 2 ^ k.
Proof.
  intros Hx. destruct (Z.eq_dec x 0) as [-> | Hnz].
  - split; [now left | intros _; apply Z.land_0_l].
  - assert (Hpos : 0 < x) by lia.
    rewrite wrap32_small by lia.
    destruct (Z.log2_spec x Hpos) as [Hlow Hhigh].
    pose proof (Z.log2_nonneg x) as Hk.
    set (k := Z.log2 x) in *.
    assert (Hk32 : k < 32).
    { apply (Z.pow_lt_mono_r_iff 2); lia. }
    split.
    + intros Hland. right. exists k. split; [lia |].
      destruct (Z.eq_dec x (2 ^ k)) as [Heq | Hne]; [exact Heq | exfalso].
      assert (Hbit : Z.testbit x k = true) by (apply Z.bit_log2; lia).
      assert (Hlog : Z.log2 (x - 1) = k).
      { apply Z.log2_unique; [lia |]. replace (Z.succ k) with (k + 1) in * by lia. lia. }
      assert (Hbit' : Z.testbit (x - 1) k = true)
        by (rewrite <- Hlog; apply Z.bit_log2; lia).
      assert (Hboth : Z.testbit (Z.land x (x - 1)) k = true)
        by (rewrite Z.land_spec, Hbit, Hbit'; reflexivity).
      rewrite Hland, Z.bits_0 in Hboth. discriminate.
    + intros [-> | (j & Hj & ->)]; [lia |].
      replace (2 ^ j - 1) with (Z.ones j) by (rewrite Z.ones_equiv; lia).
      rewrite Z.land_ones by lia. apply Z_mod_same_full.
Qed.

Lemma land_below a b : 0 <= a -> 0 <= b < 2 ^ 32 -> 0 <= Z.land a b < 2 ^ 32.
Proof.
  intros Ha Hb. assert (Hnn : 0 <= Z.land a b) by (apply Z.land_nonneg; lia).
  split; [exact Hnn |].
  destruct (Z.eq_dec (Z.land a b) 0) as [-> | Hnz]; [lia |].
  apply Z.log2_lt_pow2; [lia |].
  pose proof (Z.log2_land a b Ha ltac:(lia)) as Hlog.
  assert (Z.log2 b < 32); [| lia].
  destruct (Z.eq_dec b 0) as [-> | Hb0]; [simpl; lia |].
  apply Z.log2_lt_pow2; lia.
Qed.

Section Facts.

Variable COMMAND_LIST_TYPE_UNKNOWN_MASK : Z.

(** X26. [IsSingleCommandListType] answers [true] exactly when, the bits
    of the UNKNOWN type set aside, the mask names no command list type or
    exactly one (it is 0 or a power of two). *)
Theorem IsSingleCommandListType_spec :
  forall commandListTypeMask,
    0 <= commandListTypeMask < 2 ^ 32 ->
    let known := known_types COMMAND_LIST_TYPE_UNKNOWN_MASK commandListTypeMask in
    IsSingleCommandListType COMMAND_LIST_TYPE_UNKNOWN_MASK commandListTypeMask = true
    <-> known = 0 \/ exists k, 0 <= k < 32 /\ known = 2 ^ k.
Proof.
  intros mask Hmask known. unfold IsSingleCommandListType. fold known. cbv zeta.
  fold (known_types COMMAND_LIST_TYPE_UNKNOWN_MASK mask). fold known.
  assert (Hknown : 0 <= known < 2 ^ 32).
  { unfold known, known_types. apply land_below; [lia | apply wrap32_range]. }
  rewrite <- (land_with_predecessor known Hknown).
  destruct (Z.eqb_spec (Z.land known (wrap32 (known - 1))) 0); split;
    congruence || discriminate || tauto.
Qed.

End Facts.

Example IsSingleCommandListType_spec_witness :
  IsSingleCommandListType 8 12 = true
  <-> known_types 8 12 = 0 \/ exists k, 0 <= k < 32 /\ known_types 8 12 = 2 ^ k.
Proof. apply (IsSingleCommandListType_spec 8 12). lia. Defined.

End CommandListTypeMaskFacts.

Module AllocationFallbackFacts.

Import AllocationFallback.

Section Facts.

Context {State A : Type}.
Variable E_OUTOFMEMORY : Z.
Variable ResourceAllocationFallback : State -> bool * State.

Local Abbreviation try_allocate :=
  (TryAllocateResourceWithFallback (A := A) E_OUTOFMEMORY ResourceAllocationFallback).

Lemma try_allocate_within budget allocateFunc :
  (forall s, (budget (snd (allocateFunc s)) <= budget s)%nat) ->
  (forall s, fst (ResourceAllocationFallback s) = true ->
             (budget (snd (ResourceAllocationFallback s)) < budget s)%nat) ->
  forall n s,
    (budget s <= n)%nat ->
    exists r s' events count,
      try_allocate (S n) allocateFunc s = Some (r, s', events) /\
      (count <= n)%nat /\ finished E_OUTOFMEMORY count r events.
Proof.
  intros Hkeep Hless.
  induction n as [| n IH]; intros s Hs.
  - cbn [TryAllocateResourceWithFallback].
    pose proof (Hkeep s) as Hk.
    destruct (allocateFunc s) as [[a | [hr |]] s1]; cbn [snd] in Hk.
    + exists (Value a), s1, [CalledAllocate], O.
      split; [reflexivity |]. split; [lia |]. left. split; [reflexivity | discriminate].
    + destruct (Z.eqb_spec hr E_OUTOFMEMORY) as [-> | Hne]; cbn [negb].
      * pose proof (Hless s1) as Hl.
        destruct (ResourceAllocationFallback s1) as [[|] s2]; cbn [fst snd negb] in *.
        -- specialize (Hl eq_refl). lia.
        -- exists (Raises (com_error_of E_OUTOFMEMORY)), s2,
             [CalledAllocate; CalledFallback false], O.
           split; [reflexivity |]. split; [lia |]. right. split; reflexivity.
      * exists (Raises (com_error_of hr)), s1, [CalledAllocate], O.
        split; [reflexivity |]. split; [lia |]. left. split; [reflexivity | congruence].
    + exists (Raises other_exception), s1, [CalledAllocate], O.
      split; [reflexivity |]. split; [lia |]. left. split; [reflexivity | discriminate].
  - remember (S n) as fuel eqn:Hfuel. cbn [TryAllocateResourceWithFallback].
    pose proof (Hkeep s) as Hk.
    destruct (allocateFunc s) as [[a | [hr |]] s1]; cbn [snd] in Hk.
    + exists (Value a), s1, [CalledAllocate], O.
      split; [reflexivity |]. split; [lia |]. left. split; [reflexivity | discriminate].
    + destruct (Z.eqb_spec hr E_OUTOFMEMORY) as [-> | Hne]; cbn [negb].
      * pose proof (Hless s1) as Hl.
        destruct (ResourceAllocationFallback s1) as [[|] s2]; cbn [fst snd negb] in *.
        -- specialize (Hl eq_refl).
           destruct (IH s2 ltac:(lia)) as (r & s' & events & count & Hrun & Hcount & Hdone).
           subst fuel. rewrite Hrun.
           exists r, s', (CalledAllocate :: CalledFallback true :: events), (S count).
           split; [reflexivity |]. split; [lia |].
           destruct Hdone as [[-> Hr] | [-> Hr]]; [left | right];
             (split; [reflexivity | exact Hr]).
        -- exists (Raises (com_error_of E_OUTOFMEMORY)), s2,
             [CalledAllocate; CalledFallback false], O.
           split; [reflexivity |]. split; [lia |]. right. split; reflexivity.
      * exists (Raises (com_error_of hr)), s1, [CalledAllocate], O.
        split; [reflexivity |]. split; [lia |]. left. split; [reflexivity | congruence].
    + exists (Raises other_exception), s1, [CalledAllocate], O.
      split; [reflexivity |]. split; [lia |]. left. split; [reflexivity | discriminate].
Qed.

(** X27. [TryAllocateResourceWithFallback] returns when freeing cannot go
    on forever: if every fallback that frees something uses up part of a
    finite budget that [allocateFunc] does not refill, the loop ends after
    at most that many retries.  Every retry follows an out-of-memory error
    and a fallback that freed something; the call ends with the first
    [allocateFunc] that returns or throws something else, or with the
    out-of-memory error once the fallback has freed nothing. *)
Theorem TryAllocateResourceWithFallback_returns :
  forall (budget : State -> nat) allocateFunc,
    (forall s, (budget (snd (allocateFunc s)) <= budget s)%nat) ->
    (forall s, fst (ResourceAllocationFallback s) = true ->
               (budget (snd (ResourceAllocationFallback s)) < budget s)%nat) ->
    forall s,
    exists r s' events count,
      TryAllocateResourceWithFallback (A := A) E_OUTOFMEMORY
        ResourceAllocationFallback (S (budget s)) allocateFunc s
      = Some (r, s', events) /\
      (count <= budget s)%nat /\ finished E_OUTOFMEMORY count r events.
Proof.
  intros budget allocateFunc Hkeep Hless s.
  now apply (try_allocate_within budget allocateFunc Hkeep Hless (budget s) s).
Qed.

(** X28. ... and does not return otherwise: while [allocateFunc] keeps
    failing with [E_OUTOFMEMORY] and the fallback keeps reporting that it
    freed something, no number of iterations ends the loop. *)
Theorem TryAllocateResourceWithFallback_can_spin :
  forall allocateFunc,
    (forall s, fst (allocateFunc s) = Raises (com_error_of E_OUTOFMEMORY)) ->
    (forall s, fst (ResourceAllocationFallback s) = true) ->
    forall fuel s,
      TryAllocateResourceWithFallback (A := A) E_OUTOFMEMORY
        ResourceAllocationFallback fuel allocateFunc s = None.
Proof.
  intros allocateFunc Hoom Hfreed.
  induction fuel as [| fuel IH]; intros s; [reflexivity |].
  cbn [TryAllocateResourceWithFallback].
  pose proof (Hoom s) as Ha.
  destruct (allocateFunc s) as [r s1]. cbn [fst] in Ha. subst r.
  rewrite Z.eqb_refl. cbn [negb].
  pose proof (Hfreed s1) as Hf.
  destruct (ResourceAllocationFallback s1) as [freed s2]. cbn [fst] in Hf. subst freed.
  cbn [negb]. now rewrite IH.
Qed.

End Facts.

(** The state is the number of evictable resources, the allocation needs
    two of them gone, and each fallback evicts one. *)
Example TryAllocateResourceWithFallback_returns_witness :
  exists r s' events count,
    TryAllocateResourceWithFallback 14
      (fun s : nat => if (s <? 3)%nat then (false, s) else (true, (s - 1)%nat))
      (S 5)
      (fun s : nat =>
         if (s <=? 3)%nat then (Value 7%nat, s)
         else (Raises (com_error_of 14), s))
      5%nat
    = Some (r, s', events) /\
    (count <= 5)%nat /\ finished 14 count r events.
Proof.
  apply (TryAllocateResourceWithFallback_returns 14
           (fun s : nat => if (s <? 3)%nat then (false, s) else (true, (s - 1)%nat))
           (fun s : nat => s)
           (fun s : nat =>
              if (s <=? 3)%nat then (Value 7%nat, s)
              else (Raises (com_error_of 14), s))).
  - intros s. destruct (s <=? 3)%nat; simpl; lia.
  - intros s. destruct (Nat.ltb_spec s 3); simpl; [discriminate | lia].
Defined.

Example TryAllocateResourceWithFallback_can_spin_witness :
  TryAllocateResourceWithFallback (A := nat) 14 (fun s : unit => (true, s)) 1000
    (fun s : unit => (Raises (com_error_of 14), s)) tt = None.
Proof.
  apply (TryAllocateResourceWithFallback_can_spin 14 (fun s : unit => (true, s))
           (fun s : unit => (Raises (com_error_of 14), s))).
  - reflexivity.
  - reflexivity.
Defined.

End AllocationFallbackFacts.

Module OnlineDescriptorHeapFacts.

Import MachineFacts OnlineDescriptorHeap.

(** X29. Descriptor handles of an online heap: when the heap's
    [NumDescriptors * m_DescriptorSize] bytes fit in 32 bits and the heap
    lies within the 64-bit address range, the CPU and GPU handles of two
    slots [slot < slot' < NumDescriptors] are at least one descriptor apart
    and both descriptors lie inside the heap. *)
Theorem handles_of_distinct_slots_do_not_overlap :
  forall this slot slot',
    0 < m_DescriptorSize this ->
    NumDescriptors this * m_DescriptorSize this <= 2 ^ 32 ->
    0 <= m_DescriptorHeapBaseCPU this ->
    m_DescriptorHeapBaseCPU this + NumDescriptors this * m_DescriptorSize this <= 2 ^ 64 ->
    0 <= m_DescriptorHeapBase this ->
    m_DescriptorHeapBase this + NumDescriptors this * m_DescriptorSize this <= 2 ^ 64 ->
    0 <= slot < slot' -> slot' < NumDescriptors this ->
    (m_DescriptorHeapBaseCPU this <= CPUHandle this slot /\
     CPUHandle this slot + m_DescriptorSize this <= CPUHandle this slot' /\
     CPUHandle this slot' + m_DescriptorSize this
     <= m_DescriptorHeapBaseCPU this + NumDescriptors this * m_DescriptorSize this)
    /\
    (m_DescriptorHeapBase this <= GPUHandle this slot /\
     GPUHandle this slot + m_DescriptorSize this <= GPUHandle this slot' /\
     GPUHandle this slot' + m_DescriptorSize this
     <= m_DescriptorHeapBase this + NumDescriptors this * m_DescriptorSize this).
Proof.
  intros this slot slot' Hds Hbytes Hc0 Hc1 Hg0 Hg1 Hslot Hslot'.
  unfold CPUHandle, GPUHandle.
  assert (H1 : 0 <= slot * m_DescriptorSize this) by nia.
  assert (H2 : slot * m_DescriptorSize this + m_DescriptorSize this
               <= slot' * m_DescriptorSize this) by nia.
  assert (H3 : slot' * m_DescriptorSize this + m_DescriptorSize this
               <= NumDescriptors this * m_DescriptorSize this) by nia.
  rewrite !(wrap32_small (slot * _)), !(wrap32_small (slot' * _)) by lia.
  rewrite !wrap64_small by lia. lia.
Qed.

Example handles_of_distinct_slots_do_not_overlap_witness :
  (4096 <= CPUHandle (mkOnlineHeap 8192 4096 16 32) 2 /\
   CPUHandle (mkOnlineHeap 8192 4096 16 32) 2 + 32
   <= CPUHandle (mkOnlineHeap 8192 4096 16 32) 5 /\
   CPUHandle (mkOnlineHeap 8192 4096 16 32) 5 + 32 <= 4096 + 16 * 32)
  /\
  (8192 <= GPUHandle (mkOnlineHeap 8192 4096 16 32) 2 /\
   GPUHandle (mkOnlineHeap 8192 4096 16 32) 2 + 32
   <= GPUHandle (mkOnlineHeap 8192 4096 16 32) 5 /\
   GPUHandle (mkOnlineHeap 8192 4096 16 32) 5 + 32 <= 8192 + 16 * 32).
Proof.
  apply (handles_of_distinct_slots_do_not_overlap (mkOnlineHeap 8192 4096 16 32) 2 5);
    simpl; lia.
Defined.

End OnlineDescriptorHeapFacts.

Module ScratchSpaceFacts.

Import ScratchSpace.

Lemma GetBuffer_step array_ok this minSize :
  m_Size this = capacity_of (m_spScratchBuffer this) ->
  let r := GetBuffer array_ok this minSize in
  m_Size (snd r) = capacity_of (m_spScratchBuffer (snd r)) /\
  m_Size this <= m_Size (snd r) /\
  (forall buffer, fst r = Returned buffer ->
     buffer = m_spScratchBuffer (snd r) /\ minSize <= capacity_of buffer) /\
  (m_Size (snd r) = m_Size this \/ m_Size (snd r) = minSize /\ array_ok = true).
Proof.
  intros Hinv. unfold GetBuffer.
  destruct (Z.gtb_spec minSize (m_Size this)) as [Hgrow | Hfits].
  - destruct array_ok; cbn [fst snd m_Size m_spScratchBuffer].
    + split; [reflexivity |]. split; [lia |].
      split; [| right; split; reflexivity].
      intros buffer Hb. injection Hb as <-. split; [reflexivity | simpl; lia].
    + split; [exact Hinv |]. split; [lia |].
      split; [intros buffer Hb; discriminate | now left].
  - cbn [fst snd]. split; [exact Hinv |]. split; [lia |]. split; [| now left].
    intros buffer Hb. injection Hb as <-. split; [reflexivity | rewrite <- Hinv; lia].
Qed.

Lemma run_grows calls : forall this,
  m_Size this = capacity_of (m_spScratchBuffer this) ->
  m_Size (run this calls) = capacity_of (m_spScratchBuffer (run this calls)) /\
  m_Size this <= m_Size (run this calls) /\
  Forall (fun call => fst call = true -> snd call <= m_Size (run this calls)) calls.
Proof.
  induction calls as [| [array_ok minSize] calls IH]; intros this Hinv.
  - simpl. split; [exact Hinv |]. split; [lia | constructor].
  - destruct (GetBuffer_step array_ok this minSize Hinv) as (Hinv1 & Hle1 & Hret & Hnew).
    cbv zeta in *.
    change (run this ((array_ok, minSize) :: calls))
      with (run (snd (GetBuffer array_ok this minSize)) calls).
    destruct (IH _ Hinv1) as (Hinv2 & Hle2 & Hall).
    split; [exact Hinv2 |]. split; [lia |].
    constructor; [| exact Hall]. cbn [fst snd]. intros ->.
    unfold GetBuffer in *.
    destruct (Z.gtb_spec minSize (m_Size this)); cbn [snd m_Size] in *; lia.
Qed.

(** X30. The scratch space only grows: after any sequence of [GetBuffer]
    calls on a new scratch space, [m_Size] is the length of the array the
    scratch space owns and is at least every size that was requested while
    the allocation succeeded; the next [GetBuffer(minSize)], when it
    returns, returns that array, it has at least [minSize] bytes, and
    [m_Size] has not shrunk. *)
Theorem GetBuffer_only_grows :
  forall calls array_ok minSize,
    let this := run construct calls in
    let r := GetBuffer array_ok this minSize in
    m_Size this = capacity_of (m_spScratchBuffer this) /\
    Forall (fun call => fst call = true -> snd call <= m_Size this) calls /\
    m_Size this <= m_Size (snd r) /\
    (forall buffer, fst r = Returned buffer ->
       buffer = m_spScratchBuffer (snd r) /\ minSize <= capacity_of buffer).
Proof.
  intros calls array_ok minSize this r.
  destruct (run_grows calls construct eq_refl) as (Hinv & _ & Hall).
  fold this in Hinv, Hall.
  destruct (GetBuffer_step array_ok this minSize Hinv) as (_ & Hle & Hret & _).
  split; [exact Hinv |]. split; [exact Hall |]. split; [exact Hle | exact Hret].
Qed.

End ScratchSpaceFacts.
